(** * Timelord: city lookup, nearest airports and result formatting

    A shallow embedding of [timelord.go].  Go values are modelled as the code
    has them: [float64] as IEEE-754 binary64 ([spec_float] with the
    Standard Library's operations), [int64] as [Z], [string] as byte strings,
    slices as headers (pointer, offset, length, capacity) into a store of
    backing arrays, maps as [gmap], and a panic as an explicit outcome. *)

From Stdlib Require Import ZArith Floats Ascii String List Permutation Sorted Lia.
From stdpp Require Import base option list strings gmap.

Open Scope Z_scope.
Set Warnings "-inexact-float".

(** ** float64 *)

Module Float64.

Definition float64 := spec_float.

Definition fadd : float64 -> float64 -> float64 := SF64add.
Definition fsub : float64 -> float64 -> float64 := SF64sub.
Definition fmul : float64 -> float64 -> float64 := SF64mul.
Definition fdiv : float64 -> float64 -> float64 := SF64div.
Definition fneg : float64 -> float64 := SFopp.
Definition flt : float64 -> float64 -> bool := SFltb.
Definition feq : float64 -> float64 -> bool := SFeqb.

(** The float64 nearest to a literal, as the Go compiler rounds constants. *)
Definition f_zero : float64 := S754_zero false.
Definition f_one : float64 := S754_finite false 4503599627370496 (-52).
Definition f_two : float64 := S754_finite false 4503599627370496 (-51).
Definition f_three : float64 := S754_finite false 6755399441055744 (-51).
Definition f_five : float64 := S754_finite false 5629499534213120 (-50).
Definition f_180 : float64 := S754_finite false 6333186975989760 (-45).
Definition f_6371 : float64 := S754_finite false 7004988580560896 (-40).
(** [math.Pi] converted to float64: 0x1.921fb54442d18p+1. *)
Definition f_Pi : float64 := S754_finite false 7074237752028440 (-51).

Definition is_nan (x : float64) : bool :=
  match x with S754_nan => true | _ => false end.

Definition is_finite (x : float64) : bool :=
  match x with S754_zero _ | S754_finite _ _ _ => true | _ => false end.

(** [float64(n)] for an integer [n]: round to nearest, ties to even. *)
Definition of_int (n : Z) : float64 := binary_normalize prec emax n 0 false.

Definition int64_min : Z := - 2 ^ 63.
Definition int64_max : Z := 2 ^ 63 - 1.

(** [int64(x)]: the fraction is discarded (truncation towards zero).  A value
    that does not fit (also NaN and the infinities) gives the amd64 result,
    the smallest int64. *)
Definition to_int64 (x : float64) : Z :=
  match x with
  | S754_zero _ => 0
  | S754_finite s m e =>
      let mag := if 0 <=? e then Z.shiftl (Zpos m) e else Z.shiftr (Zpos m) (- e) in
      let v := if s then - mag else mag in
      if (int64_min <=? v) && (v <=? int64_max) then v else int64_min
  | _ => int64_min
  end.

(** [math.Min], with the special cases of its documentation:
    Min(x, -Inf) = Min(-Inf, x) = -Inf, Min(x, NaN) = Min(NaN, x) = NaN,
    Min(-0, +-0) = Min(+-0, -0) = -0. *)
Definition Min (x y : float64) : float64 :=
  match x, y with
  | S754_infinity true, _ | _, S754_infinity true => S754_infinity true
  | S754_nan, _ | _, S754_nan => S754_nan
  | S754_zero sx, S754_zero _ => if sx then x else y
  | _, _ => if flt x y then x else y
  end.

(** [math.Sqrt] is the correctly rounded IEEE square root. *)
Definition Sqrt : float64 -> float64 := SF64sqrt.

End Float64.
Export Float64.

(** The transcendental functions of Go's [math] package.  Their code is not
    part of the repository; the program is modelled over any implementation
    of them. *)
Class MathLib := {
  Sin : float64 -> float64;
  Cos : float64 -> float64;
  Pow : float64 -> float64 -> float64;
  Atan2 : float64 -> float64 -> float64
}.

(** ** Data model *)

(** City represents a city bleve index *)
Record City := mkCity {
  city_ID : string;
  city_Name : string;
  city_ASCIIName : string;
  city_CountryID : string;
  city_Timezone : string;
  city_Population : Z;
  city_Latitude : string;
  city_Longitude : string
}.

Record SearchResultIcon := mkIcon { icon_Path : string }.

Record SearchResult := mkSearchResult {
  sr_UID : string;
  sr_Title : string;
  sr_Subtitle : string;
  sr_Arg : string;
  sr_Autocomplete : string;
  sr_Icon : SearchResultIcon
}.

Record Airport := mkAirport {
  ap_ID : Z;
  ap_Name : string;
  ap_Code : string;
  ap_CountryCode : string;
  ap_Lat : float64;
  ap_Long : float64;
  ap_Type : string;
  ap_Distance : float64
}.

(** Go's zero values. *)
Definition zeroCity : City := mkCity "" "" "" "" "" 0 "" "".
Definition zeroSearchResult : SearchResult := mkSearchResult "" "" "" "" "" (mkIcon "").
Definition zeroAirport : Airport := mkAirport 0 "" "" "" f_zero f_zero "" f_zero.

(** [airport.Distance = d] on a copy of the record. *)
Definition set_Distance (a : Airport) (d : float64) : Airport :=
  mkAirport (ap_ID a) (ap_Name a) (ap_Code a) (ap_CountryCode a)
            (ap_Lat a) (ap_Long a) (ap_Type a) d.

(** ** HaversineDistance *)

Section Haversine.
Context {libm : MathLib}.

(** HaversineDistance calculates the distance between 2 lat longs.  Every
    operation is rounded on its own, as on amd64 (no fused multiply-add). *)
Definition HaversineDistance (la1 lg1 la2 lg2 : float64) : float64 :=
  let lat1 := fdiv (fmul la1 f_Pi) f_180 in
  let long1 := fdiv (fmul lg1 f_Pi) f_180 in
  let lat2 := fdiv (fmul la2 f_Pi) f_180 in
  let long2 := fdiv (fmul lg2 f_Pi) f_180 in
  let diffLat := fsub lat2 lat1 in
  let diffLong := fsub long2 long1 in
  let a := fadd (Pow (Sin (fdiv diffLat f_two)) f_two)
                (fmul (fmul (Cos lat1) (Cos lat2))
                      (Pow (Sin (fdiv diffLong f_two)) f_two)) in
  let c := fmul f_two (Atan2 (Sqrt a) (Sqrt (fsub f_one a))) in
  fmul c f_6371.

End Haversine.

(** ** Outcomes, the store and slices *)

(** A Go call either returns or panics. *)
Inductive outcome (A : Type) : Type :=
| Returns (a : A)
| Panics (msg : string).
Arguments Returns {A} a.
Arguments Panics {A} msg.

(** The store: the backing arrays allocated so far, addressed by position. *)
Abbreviation heap := (list (list Airport)).

(** A slice header. *)
Record slice := mkSlice {
  s_ptr : nat;
  s_off : nat;
  s_len : nat;
  s_cap : nat
}.

(** The growth policy of [append] belongs to the Go runtime; all that is
    used of it is that the new capacity holds the new length. *)
Class GoRuntime := {
  growcap : nat -> nat -> nat;
  growcap_fits : forall oldcap needed, (needed <= growcap oldcap needed)%nat
}.

(** Computations over the store that may panic. *)
Definition M (A : Type) : Type := heap -> outcome (A * heap).

Definition ret {A} (a : A) : M A := fun h => Returns (a, h).

Definition bind {A B} (m : M A) (k : A -> M B) : M B :=
  fun h => match m h with
           | Returns (a, h') => k a h'
           | Panics msg => Panics msg
           end.

Definition panic {A} (msg : string) : M A := fun _ => Panics msg.

#[global] Instance M_ret : MRet M := @ret.
#[global] Instance M_bind : MBind M := fun A B k m => bind m k.

(** [for _, i := range idxs { acc = f acc i }] *)
Fixpoint foldM {A} (f : A -> nat -> M A) (idxs : list nat) (acc : A) : M A :=
  match idxs with
  | [] => ret acc
  | i :: idxs' => acc' ← f acc i; foldM f idxs' acc'
  end.

(** The elements a slice shows: [s[0], ..., s[len(s)-1]]. *)
Definition view (h : heap) (s : slice) : list Airport :=
  take (s_len s) (drop (s_off s) (default [] (h !! s_ptr s))).

(** [[]Airport{}]: length and capacity 0, no backing array in use. *)
Definition emptySlice : slice := mkSlice 0 0 0 0.

(** [s[i]] as a value. *)
Definition index (s : slice) (i : nat) : M Airport :=
  fun h =>
    if decide (i < s_len s)%nat then
      match h !! s_ptr s with
      | Some arr =>
          match arr !! (s_off s + i)%nat with
          | Some a => Returns (a, h)
          | None => Panics "invalid memory address"
          end
      | None => Panics "invalid memory address"
      end
    else Panics "index out of range".

(** [s[i] = v]. *)
Definition assign (s : slice) (i : nat) (v : Airport) : M unit :=
  fun h =>
    if decide (i < s_len s)%nat then
      match h !! s_ptr s with
      | Some arr =>
          if decide (s_off s + i < length arr)%nat
          then Returns (tt, <[s_ptr s := <[(s_off s + i)%nat := v]> arr]> h)
          else Panics "invalid memory address"
      | None => Panics "invalid memory address"
      end
    else Panics "index out of range".

(** [append(s, v)]: in place while the capacity lasts, otherwise into a
    fresh backing array that receives a copy of the elements. *)
Definition append `{GoRuntime} (s : slice) (v : Airport) : M slice :=
  fun h =>
    if decide (s_len s < s_cap s)%nat then
      match h !! s_ptr s with
      | Some arr =>
          if decide (s_off s + s_len s < length arr)%nat
          then Returns (mkSlice (s_ptr s) (s_off s) (S (s_len s)) (s_cap s),
                        <[s_ptr s := <[(s_off s + s_len s)%nat := v]> arr]> h)
          else Panics "invalid memory address"
      | None => Panics "invalid memory address"
      end
    else
      let c := growcap (s_cap s) (S (s_len s)) in
      let arr := view h s ++ [v] ++ replicate (c - S (s_len s)) zeroAirport in
      Returns (mkSlice (length h) 0 (S (s_len s)) c, h ++ [arr]).

(** [s[:k]] for an [int64] bound [k]. *)
Definition slice_to (s : slice) (k : Z) : M slice :=
  if (0 <=? k) && (k <=? Z.of_nat (s_cap s))
  then ret (mkSlice (s_ptr s) (s_off s) (Z.to_nat k) (s_cap s))
  else panic "slice bounds out of range".

(** ** sort.SliceStable *)

(** The swapper [reflect.Swapper(x)] that [sort.SliceStable] builds. *)
Definition swap (x : slice) (i j : nat) : M unit :=
  a ← index x i;
  b ← index x j;
  assign x i b ;;
  assign x j a.

(** The inner loop of insertion sort:
    [for j := i; j > a && less(j, j-1); j-- { swap(j, j-1) }]. *)
Fixpoint sift (less : nat -> nat -> M bool) (x : slice) (a j : nat) : M unit :=
  match j with
  | O => ret tt
  | S j' =>
      if decide (a < j)%nat then
        b ← less j j';
        if b : bool then swap x j j' ;; sift less x a j' else ret tt
      else ret tt
  end.

(** [for i := a + 1; i < b; i++ { ... }] *)
Definition insertionSort (less : nat -> nat -> M bool) (x : slice) (a b : nat) : M unit :=
  foldM (fun _ i => sift less x a i) (seq (S a) (b - S a)) tt.

(** [sort.SliceStable(x, less)].  The function is Go's standard library, not
    the repository's: a stable sort by [less], which the library requires to
    be a strict weak order.  It is modelled by the insertion sort above run
    on the whole slice.  That is what Go runs on a slice of up to 20
    elements, whatever [less] is.  On a longer slice Go insertion-sorts
    blocks of 20 and merges them; the result is the same permutation as
    here when [less] is a strict weak order on the elements (there is one
    stable sort then), as [<] is on distances without NaN and on type
    strings.  With more than 20 elements and a NaN among the distances the
    library promises no order and its merges may leave another permutation
    than the one computed here: what is stated below about the order of the
    airports returned is stated for distances without NaN, and what is
    stated without that condition holds of every sorting function that
    permutes the slice. *)
Definition SliceStable (x : slice) (less : nat -> nat -> M bool) : M unit :=
  insertionSort less x 0 (s_len x).

(** ** FindClosestAirport *)

Section FindClosestAirport.
Context {libm : MathLib} {rt : GoRuntime}.

(** [int64(math.Min(float64(n), k))] *)
Definition clamp (n : nat) (k : float64) : Z :=
  to_int64 (Min (of_int (Z.of_nat n)) k).

(** FindClosestAirport returns list of airports from a city's lat long *)
Definition FindClosestAirport (lat long : float64) (airports : slice) : M slice :=
  matches ← foldM (fun matches i =>
                      airport ← index airports i;
                      let distance := HaversineDistance lat long (ap_Lat airport) (ap_Long airport) in
                      let airport := set_Distance airport distance in
                      append matches airport)
                   (seq 0 (s_len airports)) emptySlice;
  SliceStable matches (fun i j =>
                         mi ← index matches i;
                         mj ← index matches j;
                         ret (flt (ap_Distance mi) (ap_Distance mj))) ;;
  filter ← slice_to matches (clamp (s_len matches) f_five);
  SliceStable filter (fun i j =>
                        fi ← index filter i;
                        fj ← index filter j;
                        ret (String.ltb (ap_Type fi) (ap_Type fj))) ;;
  slice_to filter (clamp (s_len filter) f_three).

End FindClosestAirport.

(** ** The ranking as the specification words it *)

Section StableSort.
Context {A : Type} (lt : A -> A -> bool).

(** [bubble x r]: [r] is a sorted run read from its last element backwards;
    [x] moves past every element it is smaller than and stops at the first
    it is not. *)
Fixpoint bubble (x : A) (r : list A) : list A :=
  match r with
  | [] => [x]
  | y :: r' => if lt x y then y :: bubble x r' else x :: r
  end.

(** Insert [x] behind a sorted list. *)
Definition insert_last (x : A) (l : list A) : list A :=
  rev (bubble x (rev l)).

(** Stable sort: the elements are inserted in input order. *)
Definition stable_sort (l : list A) : list A :=
  fold_left (fun acc x => insert_last x acc) l [].

(** No element is followed by a smaller one. *)
Definition ascending (l : list A) : Prop :=
  StronglySorted (fun a b => lt b a = false) l.

(** Neither element is smaller than the other. *)
Definition incomparable (a b : A) : Prop := lt a b = false /\ lt b a = false.

#[global] Instance incomparable_dec (a b : A) : Decision (incomparable a b).
Proof. unfold incomparable. apply _. Defined.

End StableSort.

(** Elements with the same key keep their relative order: the subsequence of
    the elements with a given key is the same in both lists. *)
Definition keeps_order_of_equal_keys {A K : Type} `{EqDecision K}
    (key : A -> K) (l l' : list A) : Prop :=
  forall k : K, filter (fun a => key a = k) l' = filter (fun a => key a = k) l.


(** [l'] is [l] stably sorted by [lt], which compares keys. *)
Definition stably_sorted {A K : Type} `{EqDecision K}
    (key : A -> K) (lt : A -> A -> bool) (l l' : list A) : Prop :=
  l' ≡ₚ l /\ ascending lt l' /\ keeps_order_of_equal_keys key l l'.

#[global] Instance float64_eq_dec : EqDecision float64.
Proof. solve_decision. Defined.

Definition by_distance (a b : Airport) : bool := flt (ap_Distance a) (ap_Distance b).
Definition by_type (a b : Airport) : bool := String.ltb (ap_Type a) (ap_Type b).

Section NearestAirports.
Context {libm : MathLib}.

(** Step 1 of the ranking: the candidate with its distance attached. *)
Definition with_distance (lat lon : float64) (a : Airport) : Airport :=
  set_Distance a (HaversineDistance lat lon (ap_Lat a) (ap_Long a)).

(** The four steps of [nearestAirports], on lists. *)
Definition nearestAirports (lat lon : float64) (candidates : list Airport) : list Airport :=
  let measured := map (with_distance lat lon) candidates in
  let closest := take 5 (stable_sort by_distance measured) in
  take 3 (stable_sort by_type closest).

End NearestAirports.

(** A slice header that fits its backing array.  The nil slice (all fields 0)
    is well formed in every store. *)
Definition valid_slice (h : heap) (s : slice) : Prop :=
  (s_len s <= s_cap s)%nat /\
  (s_off s + s_cap s <= length (default [] (h !! s_ptr s)))%nat.

(** ** Notions the statements use *)

(** The store only gains arrays: every array of [h] is in [h'] unchanged. *)
Definition extends (h h' : heap) : Prop :=
  forall p arr, h !! p = Some arr -> h' !! p = Some arr.

(** What a store shares with another outside one array. *)
Definition same_except (p : nat) (h h' : heap) : Prop :=
  length h' = length h /\ forall q, q <> p -> h' !! q = h !! q.

(** A slice of the function's own: empty, or into an array allocated after
    the store [h0] the function started from. *)
Definition fresh (h0 h : heap) (s : slice) : Prop :=
  valid_slice h s /\ (s_cap s = 0%nat \/ (length h0 <= s_ptr s)%nat).

(** The comparison closures of [FindClosestAirport]: both read two elements
    of the slice being sorted and compare a field. *)
Definition reads (x : slice) (lt : Airport -> Airport -> bool) (i j : nat) : M bool :=
  xi ← index x i; xj ← index x j; mret (lt xi xj).

(** A float64 in canonical form of magnitude at most 1. *)
Definition unit_bounded (x : float64) : Prop :=
  valid_binary x = true /\ SFleb (SFabs x) f_one = true.

(** A latitude or longitude: a float64 in canonical form between -180 and
    180. *)
Definition coordinate (x : float64) : Prop :=
  valid_binary x = true /\ SFleb (SFabs x) f_180 = true.

(** What is used of Go's math functions.  The first three are special cases
    the package documents (Sin(+-0) = +-0; Pow(+-0, y) = +0 for finite
    y > 0 that is not an odd integer; Atan2(+0, x) = +0 for x >= 0).  The
    others are properties of the functions that the implementation keeps:
    the sine is odd, a square does not depend on the sign, and a cosine lies
    between -1 and 1. *)
Class GoMathLaws (libm : MathLib) : Prop := {
  Sin_zero : Sin f_zero = f_zero;
  Pow_zero_two : Pow f_zero f_two = f_zero;
  Atan2_zero_one : Atan2 f_zero f_one = f_zero;
  Sin_odd : forall x, Sin (fneg x) = fneg (Sin x);
  Pow_two_even : forall x, Pow (fneg x) f_two = Pow x f_two;
  Cos_bounded : forall x, is_finite x = true -> unit_bounded (Cos x)
}.

(** The term [a] of the formula, as [HaversineDistance] computes it before
    the two square roots. *)
Definition haversine_a {libm : MathLib} (la1 lg1 la2 lg2 : float64) : float64 :=
  let lat1 := fdiv (fmul la1 f_Pi) f_180 in
  let long1 := fdiv (fmul lg1 f_Pi) f_180 in
  let lat2 := fdiv (fmul la2 f_Pi) f_180 in
  let long2 := fdiv (fmul lg2 f_Pi) f_180 in
  let diffLat := fsub lat2 lat1 in
  let diffLong := fsub long2 long1 in
  fadd (Pow (Sin (fdiv diffLat f_two)) f_two)
       (fmul (fmul (Cos lat1) (Cos lat2))
             (Pow (Sin (fdiv diffLong f_two)) f_two)).

(** ** Outcomes without the store *)

#[global] Instance outcome_ret : MRet outcome := @Returns.
#[global] Instance outcome_bind : MBind outcome :=
  fun A B k m => match m with
                 | Returns a => k a
                 | Panics msg => Panics msg
                 end.

(** Run [f] on the elements in order; the first panic ends the run. *)
Fixpoint mapO {A B} (f : A -> outcome B) (l : list A) : outcome (list B) :=
  match l with
  | [] => Returns []
  | a :: l' => b ← f a; bs ← mapO f l'; Returns (b :: bs)
  end.

(** ** The bleve index, as [searchCity] uses it *)

(** A search request: the text of the match query and the sort order. *)
Record SearchRequest := mkRequest {
  req_match : string;
  req_sort : list string
}.

Definition NewMatchQuery (term : string) : string := term.
Definition NewSearchRequest (query : string) : SearchRequest := mkRequest query [].
Definition SortBy (req : SearchRequest) (order : list string) : SearchRequest :=
  mkRequest (req_match req) order.

(** What the program asks of [bleve.Index]: [Search] gives the ids of the
    hits in rank order or an error; [Document] gives the stored fields of a
    document, each a byte string, or no document. *)
Record bleveIndex := mkIndex {
  ix_Search : SearchRequest -> list string + string;
  ix_Document : string -> option (list string)
}.

(** [binary.BigEndian.Uint64(b)]: the first 8 bytes of [b], most significant
    first; it panics on fewer. *)
Definition byte_value (c : ascii) : Z := Z.of_N (N_of_ascii c).

Fixpoint be_value (acc : Z) (n : nat) (b : string) : option Z :=
  match n with
  | O => Some acc
  | S n' =>
      match b with
      | EmptyString => None
      | String c b' => be_value (acc * 256 + byte_value c) n' b'
      end
  end.

Definition BigEndian_Uint64 (b : string) : outcome Z :=
  match be_value 0 8 b with
  | Some u => Returns u
  | None => Panics "index out of range"
  end.

(** [int64(u)] for a [uint64]: the same 64 bits read as two's complement. *)
Definition int64_of_uint64 (u : Z) : Z :=
  if u <? 2 ^ 63 then u else u - 2 ^ 64.

(** [raw.Fields[i].Value()] *)
Definition field_value (fields : list string) (i : nat) : outcome string :=
  match fields !! i with
  | Some v => Returns v
  | None => Panics "index out of range"
  end.

(** The [City] literal [searchCity] builds from a document. *)
Definition document_City (raw : option (list string)) : outcome City :=
  match raw with
  | None => Panics "invalid memory address or nil pointer dereference"
  | Some fields =>
      f0 ← field_value fields 0;
      f1 ← field_value fields 1;
      f2 ← field_value fields 2;
      f3 ← field_value fields 3;
      f4 ← field_value fields 4;
      f5 ← field_value fields 5;
      u ← BigEndian_Uint64 f5;
      f6 ← field_value fields 6;
      f7 ← field_value fields 7;
      Returns (mkCity f0 f1 f2 f3 f4 (int64_of_uint64 u) f6 f7)
  end.

(** The request [searchCity] sends for a term. *)
Definition city_request (searchTerm : string) : SearchRequest :=
  let query := NewMatchQuery searchTerm in
  let search := NewSearchRequest query in
  SortBy search ["-_score"; "-population"]%string.

(** [searchCity]: the result is the pair of the record and the error, the
    error [nil] ([None]) on success. *)
Definition searchCity (searchTerm : string) (index : bleveIndex)
  : outcome (City * option string) :=
  match ix_Search index (city_request searchTerm) with
  | inr err => Panics err
  | inl hits =>
      if decide (length hits = 0%nat) then
        Returns (zeroCity, Some "No results found"%string)
      else
        results ← mapO (fun id => document_City (ix_Document index id)) hits;
        match results with
        | result :: _ => Returns (result, None)
        | [] => Panics "index out of range"
        end
  end.

(** ** performSearch *)

(** The fan-in: the main goroutine receives [n] values from the channel.  The
    goroutines that have not delivered yet are [pending]; which of them
    delivers next is the scheduler's choice, read from [sched]. *)
Fixpoint fanIn (sched : list nat) (pending : list City) (n : nat)
    (results : list City) : list City :=
  match n with
  | O => results
  | S n' =>
      let k := (hd 0%nat sched `mod` length pending)%nat in
      match pending !! k with
      | Some result =>
          fanIn (tl sched) (delete k pending) n'
                (if decide (city_ID result <> ""%string)
                 then results ++ [result] else results)
      | None => results
      end
  end.

(** [performSearch].  Every goroutine runs [searchCity] on its term, drops
    the error and sends the record; a panic in a goroutine ends the
    process.  The order in which the records arrive is not determined by the
    program: it is the extra argument [sched]. *)
Definition performSearch (sched : list nat) (cities : list string)
    (cityIndex : bleveIndex) : outcome (list City) :=
  sent ← mapO (fun item => r ← searchCity item cityIndex; Returns (fst r)) cities;
  Returns (fanIn sched sent (length cities) []).

(** ** The Index Store *)

Module IndexStore.

(** Modelled from the spec: the Index Store is the bleve library, which is
    not part of the repository.  Following section 4.1, a store holds the city
    records; a query matches a term against them with a relevance score
    (here any function [relevance], [None] for no match) and returns all
    matches in the order the request asks for.  A sort key is a field name,
    [_score] for the relevance, with [-] in front for descending order;
    later keys break the ties of earlier ones.  Documents are retrieved as
    stored: the text fields as they are; the bytes kept for the population
    are the store's own encoding of the number, [population_field], which the
    spec does not fix. *)
Record store := mkStore {
  records : list City;
  relevance : string -> City -> option Z;
  population_field : City -> string
}.

(** Modelled from the spec: the matches of a term, each with its score, in
    the order of the records. *)
Definition matches (s : store) (term : string) : list (City * Z) :=
  omap (fun c => match relevance s term c with
                 | Some score => Some (c, score)
                 | None => None
                 end) (records s).

(** Modelled from the spec: the order one sort key puts two matches in. *)
Definition key_compare (key : string) (a b : City * Z) : comparison :=
  match key with
  | "_score"%string => Z.compare (snd a) (snd b)
  | "-_score"%string => Z.compare (snd b) (snd a)
  | "population"%string => Z.compare (city_Population (fst a)) (city_Population (fst b))
  | "-population"%string => Z.compare (city_Population (fst b)) (city_Population (fst a))
  | _ => Eq
  end.

(** Modelled from the spec: the order a list of sort keys puts two matches
    in, the first key that tells them apart deciding. *)
Fixpoint order_compare (order : list string) (a b : City * Z) : comparison :=
  match order with
  | [] => Eq
  | key :: order' =>
      match key_compare key a b with
      | Eq => order_compare order' a b
      | c => c
      end
  end.

Definition ranks_before (order : list string) (a b : City * Z) : bool :=
  match order_compare order a b with Lt => true | _ => false end.

(** Modelled from the spec: [query] returns all matches, in the order the
    request asks for. *)
Definition query (s : store) (req : SearchRequest) : list (City * Z) :=
  stable_sort (ranks_before (req_sort req)) (matches s (req_match req)).

(** Modelled from the spec: the stored form of a record, its fields in the
    order of the fields of [City], the population in the store's encoding. *)
Definition stored_fields (s : store) (c : City) : list string :=
  [city_ID c; city_Name c; city_ASCIIName c; city_CountryID c; city_Timezone c;
   population_field s c; city_Latitude c; city_Longitude c].

(** Modelled from the spec: the document of an identity is the stored form
    of the record that has it. *)
Definition document (s : store) (id : string) : option (list string) :=
  match list_find (fun c => city_ID c = id) (records s) with
  | Some (_, c) => Some (stored_fields s c)
  | None => None
  end.

(** One encoding a store can use: the [n] bytes of [u], most significant
    first, and the 64 bits of an [int64] as a [uint64].  It is the encoding
    the decoder of [searchCity] reads back. *)
Fixpoint be_bytes (n : nat) (u : Z) : string :=
  match n with
  | O => EmptyString
  | S n' => String (ascii_of_N (Z.to_N ((u / 256 ^ Z.of_nat n') mod 256))) (be_bytes n' u)
  end.

Definition uint64_of_int64 (z : Z) : Z := z mod 2 ^ 64.

Definition big_endian_population (c : City) : string :=
  be_bytes 8 (uint64_of_int64 (city_Population c)).

(** Modelled from the spec: the store behind the interface [searchCity]
    uses; a search never fails. *)
Definition index (s : store) : bleveIndex :=
  mkIndex (fun req => inl (map (fun m => city_ID (fst m)) (query s req)))
          (document s).

(** The record [searchCity] builds from the document of [c]: the text fields
    of [c], and the population read from the first 8 bytes of the stored
    field. *)
Definition decoded (s : store) (c : City) : City :=
  mkCity (city_ID c) (city_Name c) (city_ASCIIName c) (city_CountryID c)
         (city_Timezone c)
         (int64_of_uint64 (default 0 (be_value 0 8 (population_field s c))))
         (city_Latitude c) (city_Longitude c).

(** The requested order [-_score], [-population]: a match comes before
    another only with a higher score, or the same score and a higher
    population. *)
Definition ranked_above (a b : City * Z) : Prop :=
  snd b < snd a \/
  (snd a = snd b /\ city_Population (fst b) <= city_Population (fst a)).

End IndexStore.

(** ** formatResults *)

(** What the program reads from its environment while formatting: the time
    zone database, the clock, the formatting of instants, the flag files on
    disk, and the library functions whose code is outside the repository. *)
Class World := {
  Location : Type;
  Time : Type;
  (** [time.LoadLocation]: the location, or [nil] (with an error). *)
  LoadLocation : string -> option Location;
  (** [time.Now()] as read while formatting the record at a position. *)
  Now : nat -> Time;
  Time_In : Time -> Location -> Time;
  Time_Zone : Time -> string;
  Time_Format : Time -> string -> string;
  ToLower : string -> string;
  (** [strconv.ParseFloat(s, 64)], the value it returns. *)
  ParseFloat : string -> float64;
  (** [os.Stat] fails on the name with an error for which [os.IsNotExist] holds. *)
  NotExist : string -> bool;
  (** [json.Marshal] of the output array. *)
  Marshal : list SearchResult -> string
}.

Definition space : ascii := ascii_of_nat 32.
Definition underscore : ascii := ascii_of_nat 95.
Definition comma : ascii := ascii_of_nat 44.

(** [strings.Replace(s, " ", "_", -1)] *)
Fixpoint Replace_spaces (s : string) : string :=
  match s with
  | EmptyString => EmptyString
  | String c s' =>
      String (if Ascii.eqb c space then underscore else c) (Replace_spaces s')
  end.

(** [strings.Join] *)
Fixpoint Join (elems : list string) (sep : string) : string :=
  match elems with
  | [] => EmptyString
  | [e] => e
  | e :: elems' => (e ++ sep ++ Join elems' sep)%string
  end.

(** [strings.Split(s, ",")] *)
Fixpoint Split_commas (s : string) : list string :=
  match s with
  | EmptyString => [EmptyString]
  | String c s' =>
      if Ascii.eqb c comma then EmptyString :: Split_commas s'
      else match Split_commas s' with
           | e :: elems => String c e :: elems
           | [] => [String c EmptyString]
           end
  end.

(** The bytes between the name and the time in a title, as the source file
    has them. *)
Definition title_dash : string :=
  string_of_list_ascii
    (map ascii_of_nat [195; 162; 226; 130; 172; 226; 128; 157]%nat).

Definition quote : string := String (ascii_of_nat 34) EmptyString.

Section FormatResults.
Context {libm : MathLib} {rt : GoRuntime} {world : World}.

(** [t.In(loc)].  Go's [time] package: "In panics if loc is nil." *)
Definition InLocation (t : Time) (loc : option Location) : M Time :=
  match loc with
  | Some l => mret (Time_In t l)
  | None => panic "time: missing Location in call to Time.In"
  end.

(** [m[key]] on a map of strings: the zero value for an absent key. *)
Definition at_key (m : gmap string string) (key : string) : string :=
  default EmptyString (m !! key).

(** [airportIndex[key]]: the nil slice for an absent key. *)
Definition airports_of (m : gmap string slice) (key : string) : slice :=
  default emptySlice (m !! key).

(** The body of the loop for a record with an identity. *)
Definition formatResult (i : nat) (city : City)
    (countryIndex : gmap string string) (airportIndex : gmap string slice)
    (phoneIndex currencyIndex : gmap string string) : M SearchResult :=
  let loc := LoadLocation (city_Timezone city) in
  now ← InLocation (Now i) loc;
  let zone := Time_Zone now in
  let icon := ToLower (Replace_spaces (at_key countryIndex (city_CountryID city))) in
  let icon := ("flags/" ++ icon ++ ".png")%string in
  let icon := if NotExist icon then "flags/_no_flag.png"%string else icon in
  let lat := ParseFloat (city_Latitude city) in
  let long := ParseFloat (city_Longitude city) in
  airports ← FindClosestAirport lat long (airports_of airportIndex (city_CountryID city));
  airportString ← foldM (fun codes j => a ← index airports j; mret (<[j := ap_Code a]> codes))
                        (seq 0 (s_len airports))
                        (replicate (s_len airports) EmptyString);
  let subtitle :=
    [Time_Format now "Monday, January 2";
     at_key countryIndex (city_CountryID city);
     ("+" ++ at_key phoneIndex (city_CountryID city))%string;
     at_key currencyIndex (city_CountryID city);
     Join airportString ","] in
  mret (mkSearchResult
          (city_ID city)
          (city_Name city ++ " " ++ title_dash ++ " "
             ++ Time_Format now "3:04 PM" ++ " " ++ zone)%string
          (Join subtitle " | ")
          (city_Name city)
          (city_Name city)
          (mkIcon icon)).

(** [for i, city := range results { ... output[i] = ... }] from position [i]. *)
Fixpoint formatLoop (i : nat) (results : list City)
    (countryIndex : gmap string string) (airportIndex : gmap string slice)
    (phoneIndex currencyIndex : gmap string string)
    (output : list SearchResult) : M (list SearchResult) :=
  match results with
  | [] => mret output
  | city :: results' =>
      if decide (city_ID city = EmptyString) then
        formatLoop (S i) results' countryIndex airportIndex phoneIndex currencyIndex output
      else
        r ← formatResult i city countryIndex airportIndex phoneIndex currencyIndex;
        formatLoop (S i) results' countryIndex airportIndex phoneIndex currencyIndex
                   (<[i := r]> output)
  end.

(** The array [output] that [formatResults] marshals. *)
Definition formatResults_items (results : list City)
    (countryIndex : gmap string string) (airportIndex : gmap string slice)
    (phoneIndex currencyIndex : gmap string string) : M (list SearchResult) :=
  formatLoop 0 results countryIndex airportIndex phoneIndex currencyIndex
             (replicate (length results) zeroSearchResult).

Definition formatResults (results : list City)
    (countryIndex : gmap string string) (airportIndex : gmap string slice)
    (phoneIndex currencyIndex : gmap string string) : M string :=
  output ← formatResults_items results countryIndex airportIndex phoneIndex currencyIndex;
  mret ("{" ++ quote ++ "items" ++ quote ++ ":" ++ Marshal output ++ "}")%string.

End FormatResults.

(** ** main *)

(** What a run does to the world outside, in order. *)
Inductive event :=
| BuildsIndex (databasePath cityFile : string)
| OpensIndex (databasePath : string)
| ReadsDataset (file : string)
| Prints (line : string).

(** The process: its arguments, the files it finds, what the loading
    functions give for them (each may panic), and the scheduler's choices. *)
Class Process := {
  Args : list string;
  index_NotExist : bool;
  CreateIndex : string -> string -> outcome unit;
  OpenIndex : string -> outcome bleveIndex;
  GetCountryMap : string -> outcome (gmap string string);
  GetAirportsByCountry : string -> outcome (gmap string slice * heap);
  GetPhoneCodesByCountry : string -> outcome (gmap string string);
  GetCurrencyByCountry : string -> outcome (gmap string string);
  schedule : list nat
}.

(** A run: the events so far and how it went on. *)
Definition IO (A : Type) : Type := list event * outcome A.

#[global] Instance IO_ret : MRet IO := fun A a => ([], Returns a).
#[global] Instance IO_bind : MBind IO :=
  fun A B k m => match m with
                 | (es, Returns a) => let '(es', o) := k a in (es ++ es', o)
                 | (es, Panics msg) => (es, Panics msg)
                 end.

(** An action on the world and its result. *)
Definition act {A} (e : event) (o : outcome A) : IO A := ([e], o).
(** A computation that touches nothing outside. *)
Definition pure_step {A} (o : outcome A) : IO A := ([], o).

Section Main.
Context {libm : MathLib} {rt : GoRuntime} {world : World} {process : Process}.

Definition main : IO unit :=
  let indexFile := "cities.bleve"%string in
  let cityFile := "datasets/cities.json"%string in
  let countryFile := "datasets/countries.json"%string in
  let airportFile := "datasets/airports.json"%string in
  let phoneFile := "datasets/phone.json"%string in
  let currencyFile := "datasets/currency.json"%string in
  let input := Join Args " " in
  if decide (input = EmptyString) then pure_step (Panics "Must specify query")
  else
    (if index_NotExist
     then act (BuildsIndex indexFile cityFile) (CreateIndex indexFile cityFile)
     else mret tt) ;;
    cityIndex ← act (OpensIndex indexFile) (OpenIndex indexFile);
    countryIndex ← act (ReadsDataset countryFile) (GetCountryMap countryFile);
    airports ← act (ReadsDataset airportFile) (GetAirportsByCountry airportFile);
    phoneIndex ← act (ReadsDataset phoneFile) (GetPhoneCodesByCountry phoneFile);
    currencyIndex ← act (ReadsDataset currencyFile) (GetCurrencyByCountry currencyFile);
    let searchTerm := Split_commas input in
    results ← pure_step (performSearch schedule searchTerm cityIndex);
    payload ← pure_step
      (match formatResults results countryIndex (fst airports) phoneIndex currencyIndex
               (snd airports) with
       | Returns (payload, _) => Returns payload
       | Panics msg => Panics msg
       end);
    act (Prints payload) (Returns tt).

End Main.

(** ** Worked inputs *)

(** A stand-in for Go's math library, used to run the model on concrete
    inputs: the small-angle approximations sin x = x, cos x = 1,
    atan2(y, x) = y, and x^y computed as x * x (the program only squares). *)
Definition small_angle_math : MathLib :=
  {| Sin := fun x => x;
     Cos := fun _ => f_one;
     Pow := fun x _ => fmul x x;
     Atan2 := fun y _ => y |}.

(** A runtime whose [append] doubles the capacity when it must grow. *)
Definition doubling_runtime : GoRuntime :=
  {| growcap := fun oldcap needed => Nat.max (2 * oldcap) needed;
     growcap_fits := fun oldcap needed => Nat.le_max_r (2 * oldcap) needed |}.

(** The float64 of a decimal literal. *)
Definition lit (x : PrimFloat.float) : float64 := Prim2SF x.

(** Airports around Toronto (43.7, -79.4), in file order. *)
Definition toronto_lat : float64 := Eval vm_compute in lit 43.7%float.
Definition toronto_long : float64 := Eval vm_compute in lit (-79.4)%float.

Definition ap (id : Z) (code : string) (lat long : float64) (type : string) : Airport :=
  mkAirport id code code "CA" lat long type f_zero.

Definition YHM : Airport :=
  Eval vm_compute in ap 1 "YHM" (lit 43.1736%float) (lit (-79.935)%float) "medium_airport".
Definition YKZ : Airport :=
  Eval vm_compute in ap 2 "YKZ" (lit 43.8622%float) (lit (-79.37)%float) "small_airport".
Definition YYZ : Airport :=
  Eval vm_compute in ap 3 "YYZ" (lit 43.6777%float) (lit (-79.6248)%float) "large_airport".
Definition YVR : Airport :=
  Eval vm_compute in ap 4 "YVR" (lit 49.1939%float) (lit (-123.184)%float) "large_airport".
Definition YTZ : Airport :=
  Eval vm_compute in ap 5 "YTZ" (lit 43.6275%float) (lit (-79.3962)%float) "medium_airport".
Definition YOO : Airport :=
  Eval vm_compute in ap 6 "YOO" (lit 43.9228%float) (lit (-78.895)%float) "medium_airport".
Definition YKF : Airport :=
  Eval vm_compute in ap 7 "YKF" (lit 43.4608%float) (lit (-80.3786)%float) "medium_airport".

Definition canada : list Airport := [YHM; YKZ; YYZ; YVR; YTZ; YOO; YKF].

(** A second stand-in for the math library.  For an argument that is not a
    finite number it gives what the package documents (Sin(+-Inf) = NaN,
    Cos(+-Inf) = NaN, a NaN argument gives NaN); at the three arguments the
    antipodal pair below needs it gives the values of [math.Sin] and
    [math.Cos], which are the correctly rounded ones there:
      sin 0.895353906273091 = 0.7804304073383297,
      sin 1.5707963267948966 = 1,
      cos 0.895353906273091 = 0.6252426563357053;
    elsewhere it is the small-angle stand-in (sin x = x, cos x = 1,
    atan2(y, x) = y, and the square computed as x * x). *)
Definition radians_51_3 : float64 := Eval vm_compute in lit 0.895353906273091%float.
Definition half_pi : float64 := Eval vm_compute in lit 1.5707963267948966%float.
Definition sin_51_3 : float64 := Eval vm_compute in lit 0.7804304073383297%float.
Definition cos_51_3 : float64 := Eval vm_compute in lit 0.6252426563357053%float.

(** [v] with the sign of [x]. *)
Definition with_sign_of (x v : float64) : float64 :=
  if flt x f_zero then fneg v else v.

Definition reference_math : MathLib :=
  {| Sin := fun x =>
       if negb (is_finite x) then S754_nan
       else if feq (SFabs x) radians_51_3 then with_sign_of x sin_51_3
       else if feq (SFabs x) half_pi then with_sign_of x f_one
       else x;
     Cos := fun x =>
       if negb (is_finite x) then S754_nan
       else if feq (SFabs x) radians_51_3 then cos_51_3
       else f_one;
     Pow := fun x _ => fmul x x;
     Atan2 := fun y x => if is_nan y || is_nan x then S754_nan else y |}.

(** A point on the Greenwich meridian south of London and the point opposite
    to it on the globe. *)
Definition meridian_lat : float64 := Eval vm_compute in lit 51.3%float.
Definition meridian_long : float64 := f_zero.
Definition opposite_lat : float64 := Eval vm_compute in lit (-51.3)%float.
Definition opposite_long : float64 := f_180.



(** A store holding the Canadian airports in array 0, and the slice over it. *)
Definition canada_heap : heap := [canada].
Definition canada_slice : slice := mkSlice 0 0 7 7.

(** Two cities named Toronto and one record with a time zone that does not
    exist. *)
Definition Toronto : City :=
  mkCity "6167865" "Toronto" "toronto" "CA" "America/Toronto" 2600000
         "43.70011" "-79.4163".
Definition Toronto_Ohio : City :=
  mkCity "5174095" "Toronto" "toronto" "US" "America/New_York" 5091
         "40.46423" "-80.60091".
Definition Atlantis : City :=
  mkCity "1" "Atlantis" "atlantis" "AT" "Atlantic/Atlantis" 0 "31.0" "-24.0".

(** A store with the three records; a term matches the records whose ASCII
    name it equals, all with the same score.  This store keeps the
    population as the 8 bytes the decoder of [searchCity] reads, so its
    records are read back as they were stored. *)
Definition example_store : IndexStore.store :=
  IndexStore.mkStore [Toronto_Ohio; Atlantis; Toronto]
    (fun term c => if String.eqb term (city_ASCIIName c) then Some 1 else None)
    IndexStore.big_endian_population.

Definition example_index : bleveIndex := IndexStore.index example_store.

(** The same records in a store that keeps a number as the bleve library
    does: one byte for the shift and the bits of the float64, sign bit
    flipped, in groups of seven, 11 bytes in all.  The fields below are those
    of the populations 2600000, 5091 and 0. *)
Definition bytes (l : list Z) : string :=
  string_of_list_ascii (map (fun b => ascii_of_N (Z.to_N b)) l).

Definition prefix_coded_population (c : City) : string :=
  if String.eqb (city_ID c) "6167865" then bytes [32; 1; 65; 33; 117; 68; 0; 0; 0; 0; 0]
  else if String.eqb (city_ID c) "5174095" then bytes [32; 1; 64; 89; 120; 96; 0; 0; 0; 0; 0]
  else bytes [32; 1; 0; 0; 0; 0; 0; 0; 0; 0; 0].

Definition prefix_coded_store : IndexStore.store :=
  IndexStore.mkStore [Toronto_Ohio; Atlantis; Toronto]
    (fun term c => if String.eqb term (city_ASCIIName c) then Some 1 else None)
    prefix_coded_population.

Definition ascii_lower (c : ascii) : ascii :=
  let n := nat_of_ascii c in
  if ((65 <=? n) && (n <=? 90))%nat then ascii_of_nat (n + 32) else c.

Fixpoint lower (s : string) : string :=
  match s with
  | EmptyString => EmptyString
  | String c s' => String (ascii_lower c) (lower s')
  end.

(** An environment for the examples.  A location is its zone abbreviation,
    an instant the position it was read at with its zone; formatting gives
    back the layout. *)
Definition example_world : World :=
  {| Location := string;
     Time := nat * string;
     LoadLocation := fun name =>
       if String.eqb name "America/Toronto" then Some "EST"%string
       else if String.eqb name "America/New_York" then Some "EST"%string
       else if String.eqb name "" then Some "UTC"%string
       else None;
     Now := fun i => (i, "UTC"%string);
     Time_In := fun t l => (fst t, l);
     Time_Zone := snd;
     Time_Format := fun _ layout => layout;
     ToLower := lower;
     ParseFloat := fun s =>
       if String.eqb s "43.70011" then toronto_lat
       else if String.eqb s "-79.4163" then toronto_long
       else f_zero;
     NotExist := fun name => negb (String.eqb name "flags/canada.png");
     Marshal := fun output => Join (map sr_Title output) "," |}.

Definition example_countries : gmap string string := {[ "CA"%string := "Canada"%string ]}.
Definition example_airports : gmap string slice := {[ "CA"%string := canada_slice ]}.
Definition example_phones : gmap string string := {[ "CA"%string := "1"%string ]}.
Definition example_currencies : gmap string string := {[ "CA"%string := "CAD"%string ]}.

(** A process started with the given arguments on an existing index. *)
Definition example_process (args : list string) : Process :=
  {| Args := args;
     index_NotExist := false;
     CreateIndex := fun _ _ => Returns tt;
     OpenIndex := fun _ => Returns example_index;
     GetCountryMap := fun _ => Returns example_countries;
     GetAirportsByCountry := fun _ => Returns (example_airports, canada_heap);
     GetPhoneCodesByCountry := fun _ => Returns example_phones;
     GetCurrencyByCountry := fun _ => Returns example_currencies;
     schedule := [1%nat] |}.

(** ** The dataset loaders *)

Set Warnings "-register-all".

(** A decoded JSON document, as [json.Unmarshal] stores it in an
    [interface{}]: nil, bool, float64, string, [[]interface{}] or
    [map[string]interface{}]. *)
Inductive JSON :=
| JNull
| JBool (b : bool)
| JNumber (x : float64)
| JString (s : string)
| JArray (elems : list JSON)
| JObject (members : gmap string JSON).

(** What the loaders take from outside the repository: the content of a file
    ([ioutil.ReadFile]) and the decoder of [encoding/json], one decoder for
    each type the program decodes into.  Each gives its value or an error. *)
Class Files := {
  ReadFile : string -> string + string;
  Unmarshal_map : string -> gmap string string + string;
  Unmarshal_Airports : string -> list Airport + string;
  Unmarshal_any : string -> JSON + string
}.

(** [for _, b := range l { acc = f acc b }], with and without the store. *)
Fixpoint rangeM {A B} (f : A -> B -> M A) (l : list B) (acc : A) : M A :=
  match l with
  | [] => mret acc
  | b :: l' => acc' ← f acc b; rangeM f l' acc'
  end.

Fixpoint rangeO {A B} (f : A -> B -> outcome A) (l : list B) (acc : A) : outcome A :=
  match l with
  | [] => Returns acc
  | b :: l' => acc' ← f acc b; rangeO f l' acc'
  end.

(** The dynamic type of an [interface{}] value, as the runtime prints it. *)
Definition type_name (v : JSON) : string :=
  match v with
  | JNull => "nil"
  | JBool _ => "bool"
  | JNumber _ => "float64"
  | JString _ => "string"
  | JArray _ => "[]interface {}"
  | JObject _ => "map[string]interface {}"
  end.

(** The panic of a failed type assertion [v.(T)]. *)
Definition conversion_panic {A} (v : JSON) (target : string) : outcome A :=
  Panics ("interface conversion: interface {} is " ++ type_name v ++ ", not " ++ target).

(** [v.([]interface{})] *)
Definition as_array (v : JSON) : outcome (list JSON) :=
  match v with
  | JArray elems => Returns elems
  | _ => conversion_panic v "[]interface {}"
  end.

(** [v.(map[string]interface{})] *)
Definition as_object (v : JSON) : outcome (gmap string JSON) :=
  match v with
  | JObject members => Returns members
  | _ => conversion_panic v "map[string]interface {}"
  end.

(** [v.(string)] *)
Definition as_string (v : JSON) : outcome string :=
  match v with
  | JString s => Returns s
  | _ => conversion_panic v "string"
  end.

(** [m[key]] on a [map[string]interface{}]: nil for an absent key. *)
Definition member (m : gmap string JSON) (key : string) : JSON :=
  default JNull (m !! key).

Module Loaders.
Section Loaders.
Context {files : Files} {rt : GoRuntime}.

(** GetPhoneCodesByCountry returns map of country code -> phone number prefix *)
Definition GetPhoneCodesByCountry (phoneFile : string) : outcome (gmap string string) :=
  match ReadFile phoneFile with
  | inr err => Panics err
  | inl cdata =>
      match Unmarshal_map cdata with
      | inr jsonErr => Panics jsonErr
      | inl data => Returns data
      end
  end.

(** GetCurrencyByCountry returns map of country code -> currency *)
Definition GetCurrencyByCountry (currencyFile : string) : outcome (gmap string string) :=
  match ReadFile currencyFile with
  | inr err => Panics err
  | inl cdata =>
      match Unmarshal_map cdata with
      | inr jsonErr => Panics jsonErr
      | inl data => Returns data
      end
  end.

(** The body of the loop of [GetAirportsByCountry]:
    [airports[airport.CountryCode] = append(airports[airport.CountryCode], airport)]. *)
Definition addAirport (airports : gmap string slice) (airport : Airport)
  : M (gmap string slice) :=
  s ← append (airports_of airports (ap_CountryCode airport)) airport;
  mret (<[ap_CountryCode airport := s]> airports).

(** GetAirportsByCountry returns map of country code -> airports.  The
    decoded [data] is only read; the slices of the map are built by [append]
    in the store. *)
Definition GetAirportsByCountry (airportFile : string) : M (gmap string slice) :=
  let airports : gmap string slice := ∅ in
  match ReadFile airportFile with
  | inr err => panic err
  | inl cdata =>
      match Unmarshal_Airports cdata with
      | inr jsonErr => panic jsonErr
      | inl data => rangeM addAirport data airports
      end
  end.

(** The body of the loop of [GetCountryMap].  The index expression on the
    left is evaluated before the value on the right. *)
Definition addCountry (countries : gmap string string) (country : JSON)
  : outcome (gmap string string) :=
  o ← as_object country;
  code ← as_string (member o "Code");
  o' ← as_object country;
  name ← as_string (member o' "Name");
  Returns (<[code := name]> countries).

(** GetCountryMap returns map of country code -> country name *)
Definition GetCountryMap (countryFile : string) : outcome (gmap string string) :=
  let countries : gmap string string := ∅ in
  match ReadFile countryFile with
  | inr err => Panics err
  | inl cdata =>
      match Unmarshal_any cdata with
      | inr jsonErr => Panics jsonErr
      | inl data =>
          elems ← as_array data;
          rangeO addCountry elems countries
      end
  end.

End Loaders.
End Loaders.

(** A process whose datasets are loaded by the functions above, from an
    empty store; building and opening the index stay with the bleve
    library. *)
Definition loading_process `{Files} `{GoRuntime} (args : list string)
    (index_missing : bool)
    (create : string -> string -> outcome unit)
    (open : string -> outcome bleveIndex)
    (sched : list nat) : Process :=
  {| Args := args;
     index_NotExist := index_missing;
     CreateIndex := create;
     OpenIndex := open;
     GetCountryMap := Loaders.GetCountryMap;
     GetAirportsByCountry := fun airportFile => Loaders.GetAirportsByCountry airportFile [];
     GetPhoneCodesByCountry := Loaders.GetPhoneCodesByCountry;
     GetCurrencyByCountry := Loaders.GetCurrencyByCountry;
     schedule := sched |}.

(** A well-formed entry of the country file: an object whose [Code] and
    [Name] are strings. *)
Definition country_entry (v : JSON) : option (string * string) :=
  match v with
  | JObject members =>
      match members !! "Code"%string, members !! "Name"%string with
      | Some (JString code), Some (JString name) => Some (code, name)
      | _, _ => None
      end
  | _ => None
  end.

(** The state of the loop of [GetAirportsByCountry] after the airports
    [done], started in the store [h0]: every slice of the map is non-empty,
    lies in an array of its own allocated after [h0], and shows the airports
    of its country code in the order read. *)
Definition grouped (h0 h : heap) (airports : gmap string slice) (done : list Airport) : Prop :=
  extends h0 h /\
  (forall code s, airports !! code = Some s ->
     fresh h0 h s /\ (0 < s_len s)%nat /\ (length h0 <= s_ptr s < length h)%nat /\
     view h s = filter (fun a => ap_CountryCode a = code) done) /\
  (forall code, airports !! code = None ->
     filter (fun a => ap_CountryCode a = code) done = []) /\
  (forall code1 code2 s1 s2,
     code1 <> code2 -> airports !! code1 = Some s1 -> airports !! code2 = Some s2 ->
     s_ptr s1 <> s_ptr s2).

(** Dataset files for the examples: a file's content is its name, and the
    decoders give the Canadian airports and one entry per map. *)
Definition example_files : Files :=
  {| ReadFile := fun name =>
       if String.prefix "datasets/" name then inl name else inr "no such file"%string;
     Unmarshal_map := fun cdata =>
       if String.eqb cdata "datasets/phone.json" then inl example_phones
       else if String.eqb cdata "datasets/currency.json" then inl example_currencies
       else inr "unexpected end of JSON input"%string;
     Unmarshal_Airports := fun cdata =>
       if String.eqb cdata "datasets/airports.json" then inl canada
       else inr "unexpected end of JSON input"%string;
     Unmarshal_any := fun cdata =>
       if String.eqb cdata "datasets/countries.json"
       then inl (JArray [JObject {[ "Code"%string := JString "CA";
                                   "Name"%string := JString "Kanada" ]};
                         JObject {[ "Code"%string := JString "CA";
                                   "Name"%string := JString "Canada";
                                   "Capital"%string := JString "Ottawa" ]}])
       else if String.eqb cdata "datasets/broken.json"
       then inl (JArray [JObject {[ "Code"%string := JString "CA" ]}])
       else inr "unexpected end of JSON input"%string |}.

(** ** Tactics *)

(** Case analysis on the comparisons of exponents and mantissas that
    [SFcompare] makes. *)
Ltac float_order_cases :=
  repeat match goal with
  | |- context [Pos.compare_cont Eq ?p ?q] =>
      change (Pos.compare_cont Eq p q) with (Pos.compare p q)
  | H : context [Pos.compare_cont Eq ?p ?q] |- _ =>
      change (Pos.compare_cont Eq p q) with (Pos.compare p q) in H
  end;
  repeat match goal with
  | H : context [Z.compare ?a ?b] |- _ => destruct (Z.compare_spec a b); simpl in H
  | H : context [Pos.compare ?a ?b] |- _ => destruct (Pos.compare_spec a b); simpl in H
  | |- context [Z.compare ?a ?b] => destruct (Z.compare_spec a b); simpl
  | |- context [Pos.compare ?a ?b] => destruct (Pos.compare_spec a b); simpl
  end;
  try reflexivity; try discriminate; try lia.


(** * Proofs *)

(** ** The stable sort on lists *)

Lemma StronglySorted_app_iff {A : Type} (R : A -> A -> Prop) (l1 l2 : list A) :
  StronglySorted R (l1 ++ l2) <->
  StronglySorted R l1 /\ StronglySorted R l2 /\
  (forall a b, In a l1 -> In b l2 -> R a b).
Proof.
  induction l1 as [|c l1 IH]; simpl.
  - split; [intros H; repeat split; [constructor|exact H|tauto] | tauto].
  - split.
    + intros H. inversion H as [|? ? Hs Hc]; subst.
      apply IH in Hs as (Hs1 & Hs2 & Hcross).
      apply Forall_app in Hc as [Hc1 Hc2]. rewrite List.Forall_forall in Hc2.
      repeat split; [constructor; assumption|assumption|].
      intros a b [<-|Ha] Hb; auto.
    + intros (H1 & H2 & Hcross). inversion H1 as [|? ? Hs Hc]; subst.
      constructor.
      * apply IH. repeat split; auto.
      * apply Forall_app. split; [exact Hc|].
        rewrite List.Forall_forall. intros b Hb. apply Hcross; auto.
Qed.

Section StableSortFacts.
Context {A : Type} (lt : A -> A -> bool).

Lemma bubble_split (x : A) (r : list A) :
  exists r1 r2, r = r1 ++ r2 /\ bubble lt x r = r1 ++ x :: r2 /\
    Forall (fun y => lt x y = true) r1 /\
    (r2 = [] \/ exists y r2', r2 = y :: r2' /\ lt x y = false).
Proof.
  induction r as [|y r IH]; simpl.
  - exists [], []. repeat split; auto.
  - destruct (lt x y) eqn:E.
    + destruct IH as (r1 & r2 & -> & -> & Hall & Hstop).
      exists (y :: r1), r2. repeat split; auto.
    + exists [], (y :: r). repeat split; eauto.
Qed.

(** Where [insert_last] puts the new element: behind the last element it is
    not smaller than, in front of the elements it is smaller than. *)
Lemma insert_last_split (x : A) (l : list A) :
  exists l1 l2, l = l1 ++ l2 /\ insert_last lt x l = l1 ++ x :: l2 /\
    Forall (fun y => lt x y = true) l2 /\
    (l1 = [] \/ exists l1' y, l1 = l1' ++ [y] /\ lt x y = false).
Proof.
  unfold insert_last.
  destruct (bubble_split x (rev l)) as (r1 & r2 & Hl & -> & Hall & Hstop).
  exists (rev r2), (rev r1). repeat split.
  - rewrite <- rev_app_distr, <- Hl. symmetry. apply rev_involutive.
  - rewrite rev_app_distr. simpl. rewrite <- app_assoc. reflexivity.
  - apply Forall_rev. exact Hall.
  - destruct Hstop as [-> | (y & r2' & -> & Hy)]; [left; reflexivity|].
    right. exists (rev r2'), y. simpl. auto.
Qed.

Lemma insert_last_nil (x : A) : insert_last lt x [] = [x].
Proof. reflexivity. Qed.

Lemma insert_last_snoc (x y : A) (l : list A) :
  insert_last lt x (l ++ [y]) =
  if lt x y then insert_last lt x l ++ [y] else l ++ [y; x].
Proof.
  unfold insert_last. rewrite rev_app_distr. simpl.
  destruct (lt x y); simpl.
  - reflexivity.
  - rewrite rev_involutive, <- app_assoc. reflexivity.
Qed.

Lemma insert_last_perm (x : A) (l : list A) : insert_last lt x l ≡ₚ x :: l.
Proof.
  destruct (insert_last_split x l) as (l1 & l2 & -> & -> & _).
  symmetry. apply Permutation_middle.
Qed.

Lemma insert_last_length (x : A) (l : list A) :
  length (insert_last lt x l) = S (length l).
Proof. exact (Permutation_length (insert_last_perm x l)). Qed.

Lemma stable_sort_snoc (l : list A) (x : A) :
  stable_sort lt (l ++ [x]) = insert_last lt x (stable_sort lt l).
Proof. unfold stable_sort. rewrite fold_left_app. reflexivity. Qed.

Lemma stable_sort_perm (l : list A) : stable_sort lt l ≡ₚ l.
Proof.
  induction l as [|x l IH] using rev_ind; [reflexivity|].
  rewrite stable_sort_snoc, insert_last_perm, IH.
  apply Permutation_cons_append.
Qed.

Lemma stable_sort_length (l : list A) : length (stable_sort lt l) = length l.
Proof. exact (Permutation_length (stable_sort_perm l)). Qed.

(** Sortedness needs [lt] to be a strict weak order on the elements at hand
    (those satisfying [ok]): asymmetric, and "not smaller" transitive. *)
Section Ascending.
Context (ok : A -> Prop).
Hypothesis lt_asym : forall a b, ok a -> ok b -> lt a b = true -> lt b a = false.
Hypothesis ge_trans : forall a b c, ok a -> ok b -> ok c ->
  lt b a = false -> lt c b = false -> lt c a = false.

Lemma insert_last_ascending (x : A) (l : list A) :
  ok x -> Forall ok l -> ascending lt l -> ascending lt (insert_last lt x l).
Proof.
  intros Hx Hok Hs.
  destruct (insert_last_split x l) as (l1 & l2 & -> & -> & Hall & Hstop).
  unfold ascending in *.
  apply StronglySorted_app_iff in Hs as (Hs1 & Hs2 & Hcross).
  apply Forall_app in Hok as [Hok1 Hok2].
  rewrite List.Forall_forall in Hok1, Hok2, Hall.
  assert (Hleft : forall a, In a l1 -> lt x a = false).
  { destruct Hstop as [-> | (l1' & y & -> & Hy)]; [simpl; tauto|].
    intros a Ha. apply in_app_or in Ha as [Ha | [<- | []]]; [|exact Hy].
    apply StronglySorted_app_iff in Hs1 as (_ & _ & Hc).
    apply (ge_trans a y x); auto.
    - apply Hok1, in_or_app. auto.
    - apply Hok1, in_or_app. simpl. auto.
    - apply Hc; simpl; auto. }
  apply StronglySorted_app_iff. split; [exact Hs1|]. split.
  - constructor; [exact Hs2|].
    rewrite List.Forall_forall. intros b Hb. apply lt_asym; auto.
  - intros a b Ha [<-|Hb]; auto.
Qed.

Lemma stable_sort_ascending (l : list A) :
  Forall ok l -> ascending lt (stable_sort lt l).
Proof.
  induction l as [|x l IH] using rev_ind; intros Hok.
  - constructor.
  - apply Forall_app in Hok as [Hl Hx]. inversion Hx; subst.
    rewrite stable_sort_snoc. apply insert_last_ascending; auto.
    rewrite (stable_sort_perm l). exact Hl.
Qed.

End Ascending.

(** Stability: a class of elements none of which is smaller than another
    (such as the elements with one key) keeps its order. *)
Lemma insert_last_filter (same : A -> Prop) `{forall a, Decision (same a)}
    (x : A) (l : list A) :
  (forall b, In b l -> same x -> same b -> lt x b = false) ->
  filter same (insert_last lt x l) = filter same (l ++ [x]).
Proof.
  intros Hirr.
  destruct (insert_last_split x l) as (l1 & l2 & -> & -> & Hall & _).
  rewrite <- app_assoc, !filter_app. f_equal.
  assert (Hl2 : same x -> filter same l2 = []).
  { intros Hx.
    assert (Hirr2 : forall b, In b l2 -> same b -> lt x b = false)
      by (intros b Hb; apply Hirr; [apply in_or_app; auto|exact Hx]).
    clear Hirr. induction Hall as [|y l2 Hy Hall IH]; [reflexivity|].
    rewrite filter_cons. destruct (decide (same y)) as [Hsy|].
    - rewrite Hirr2 in Hy; [discriminate|left; reflexivity|assumption].
    - apply IH. intros b Hb. apply Hirr2. right. exact Hb. }
  rewrite filter_cons, (filter_cons _ x []), filter_nil.
  destruct (decide (same x)) as [Hx|Hx].
  - rewrite (Hl2 Hx). reflexivity.
  - rewrite app_nil_r. reflexivity.
Qed.

Lemma stable_sort_filter (same : A -> Prop) `{forall a, Decision (same a)}
    (l : list A) :
  (forall a b, In a l -> In b l -> same a -> same b -> lt a b = false) ->
  filter same (stable_sort lt l) = filter same l.
Proof.
  intros Hirr. induction l as [|x l IH] using rev_ind; [reflexivity|].
  rewrite stable_sort_snoc, insert_last_filter.
  - rewrite !filter_app, IH; [reflexivity|].
    intros a b Ha Hb. apply Hirr; apply in_or_app; auto.
  - intros b Hb. apply Hirr; apply in_or_app; [right; left; reflexivity|left].
    apply (Permutation_in b (stable_sort_perm l)). exact Hb.
Qed.

(** Under a strict weak order there is one stable sort: an arrangement that
    is ascending and changes no class of incomparable elements is the list
    [stable_sort] gives, whatever algorithm made it. *)
Section Unique.
Context (ok : A -> Prop).
Hypothesis lt_asym : forall a b, ok a -> ok b -> lt a b = true -> lt b a = false.
Hypothesis ge_trans : forall a b c, ok a -> ok b -> ok c ->
  lt b a = false -> lt c b = false -> lt c a = false.

Lemma lt_irrefl_ok (a : A) : ok a -> lt a a = false.
Proof.
  intros Ha. destruct (lt a a) eqn:E; [|reflexivity].
  rewrite (lt_asym a a Ha Ha E) in E. discriminate.
Qed.

Lemma ascending_unique (l1 : list A) :
  forall l2, Forall ok l1 -> l1 ≡ₚ l2 -> ascending lt l1 -> ascending lt l2 ->
  (forall x, In x l1 -> filter (incomparable lt x) l1 = filter (incomparable lt x) l2) ->
  l1 = l2.
Proof.
  induction l1 as [|a l1 IH]; intros l2 Hok Hperm Hs1 Hs2 Hfilter.
  - apply Permutation_nil_l in Hperm. congruence.
  - destruct l2 as [|b l2]; [apply Permutation_nil_r in Hperm; discriminate|].
    inversion Hok as [|? ? Ha Hok1]; subst.
    inversion Hs1 as [|? ? Hs1' Hmin1]; subst.
    inversion Hs2 as [|? ? Hs2' Hmin2]; subst.
    rewrite List.Forall_forall in Hmin1, Hmin2.
    assert (Hb : ok b).
    { rewrite List.Forall_forall in Hok. apply Hok.
      apply (Permutation_in b (Permutation_sym Hperm)). left. reflexivity. }
    assert (Hba : lt b a = false).
    { assert (Hin : In b (a :: l1))
        by (apply (Permutation_in b (Permutation_sym Hperm)); left; reflexivity).
      destruct Hin as [<-|Hin]; [apply lt_irrefl_ok; exact Ha|apply Hmin1; exact Hin]. }
    assert (Hab : lt a b = false).
    { assert (Hin : In a (b :: l2)) by (apply (Permutation_in a Hperm); left; reflexivity).
      destruct Hin as [<-|Hin]; [apply lt_irrefl_ok; exact Ha|apply Hmin2; exact Hin]. }
    assert (Heq : a = b).
    { specialize (Hfilter a (or_introl eq_refl)).
      rewrite !filter_cons in Hfilter.
      rewrite decide_True in Hfilter by (split; apply lt_irrefl_ok; exact Ha).
      rewrite decide_True in Hfilter by (split; assumption).
      congruence. }
    subst b. f_equal. apply IH; auto.
    + apply (Permutation_cons_inv Hperm).
    + intros x Hx. specialize (Hfilter x (or_intror Hx)).
      rewrite !filter_cons in Hfilter.
      destruct (decide (incomparable lt x a)); congruence.
Qed.

Lemma stable_sort_unique (l l' : list A) :
  Forall ok l -> l' ≡ₚ l -> ascending lt l' ->
  (forall x, In x l -> filter (incomparable lt x) l' = filter (incomparable lt x) l) ->
  l' = stable_sort lt l.
Proof.
  intros Hok Hperm Hs Hfilter.
  assert (Hok' : Forall ok l') by (rewrite Hperm; exact Hok).
  apply ascending_unique; auto.
  - rewrite Hperm. symmetry. apply stable_sort_perm.
  - apply (stable_sort_ascending ok); assumption.
  - intros x Hx. apply (Permutation_in x Hperm) in Hx.
    rewrite (Hfilter x Hx). symmetry. apply stable_sort_filter.
    rewrite List.Forall_forall in Hok.
    intros a b Ha Hb [_ Hax] [Hxb _].
    apply (ge_trans b x a); auto.
Qed.

End Unique.

End StableSortFacts.

(** ** The store *)

Lemma bind_Returns {A B} (m : M A) (k : A -> M B) (h h' : heap) (a : A) :
  m h = Returns (a, h') -> (m ≫= k) h = k a h'.
Proof. intros E. unfold mbind, M_bind, bind. rewrite E. reflexivity. Qed.

Lemma bind_Panics {A B} (m : M A) (k : A -> M B) (h : heap) (msg : string) :
  m h = Panics msg -> (m ≫= k) h = Panics msg.
Proof. intros E. unfold mbind, M_bind, bind. rewrite E. reflexivity. Qed.

Lemma extends_refl (h : heap) : extends h h.
Proof. intros p arr E. exact E. Qed.

Lemma extends_trans (h1 h2 h3 : heap) :
  extends h1 h2 -> extends h2 h3 -> extends h1 h3.
Proof. intros H12 H23 p arr E. auto. Qed.

Lemma extends_view (h h' : heap) (s : slice) :
  extends h h' -> valid_slice h s -> view h' s = view h s.
Proof.
  intros Hext [Hlen Hfit]. unfold view.
  destruct (h !! s_ptr s) as [arr|] eqn:E.
  - rewrite (Hext _ _ E). reflexivity.
  - simpl in Hfit. assert (s_len s = 0)%nat as -> by lia. reflexivity.
Qed.

Lemma view_length (h : heap) (s : slice) :
  valid_slice h s -> length (view h s) = s_len s.
Proof.
  intros [Hlen Hfit]. unfold view. rewrite length_take, length_drop. lia.
Qed.

Lemma view_lookup (h : heap) (s : slice) (i : nat) (a : Airport) :
  view h s !! i = Some a ->
  (i < s_len s)%nat /\ exists arr, h !! s_ptr s = Some arr /\ arr !! (s_off s + i)%nat = Some a.
Proof.
  unfold view. intros E. apply lookup_take_Some in E as [E Hi].
  rewrite lookup_drop in E. split; [exact Hi|].
  destruct (h !! s_ptr s) as [arr|]; [eauto|discriminate].
Qed.

Lemma index_view (h : heap) (s : slice) (i : nat) (a : Airport) :
  view h s !! i = Some a -> index s i h = Returns (a, h).
Proof.
  intros E. apply view_lookup in E as (Hi & arr & Harr & Ha).
  unfold index. rewrite decide_True by exact Hi. rewrite Harr, Ha. reflexivity.
Qed.

Lemma same_except_refl (p : nat) (h : heap) : same_except p h h.
Proof. split; auto. Qed.

Lemma same_except_trans (p : nat) (h1 h2 h3 : heap) :
  same_except p h1 h2 -> same_except p h2 h3 -> same_except p h1 h3.
Proof.
  intros [L12 H12] [L23 H23]. split; [congruence|].
  intros q Hq. rewrite H23, H12 by exact Hq. reflexivity.
Qed.

Lemma assign_view (h : heap) (s : slice) (i : nat) (v : Airport) :
  valid_slice h s -> (i < s_len s)%nat ->
  exists h', assign s i v h = Returns (tt, h') /\
    view h' s = <[i := v]> (view h s) /\
    valid_slice h' s /\ same_except (s_ptr s) h h'.
Proof.
  intros [Hlen Hfit] Hi. unfold assign. rewrite decide_True by exact Hi.
  destruct (h !! s_ptr s) as [arr|] eqn:E; simpl in Hfit; [|lia].
  rewrite decide_True by lia. eexists. split; [reflexivity|].
  assert (Hp : (s_ptr s < length h)%nat) by (eapply lookup_lt_Some; exact E).
  assert (Hnew : <[s_ptr s := <[(s_off s + i)%nat := v]> arr]> h !! s_ptr s
                 = Some (<[(s_off s + i)%nat := v]> arr))
    by (apply list_lookup_insert_eq; exact Hp).
  repeat split.
  - unfold view. rewrite Hnew, E. simpl.
    rewrite drop_insert_ge by lia.
    replace (s_off s + i - s_off s)%nat with i by lia.
    apply take_insert_lt. exact Hi.
  - exact Hlen.
  - rewrite Hnew. simpl. rewrite length_insert. exact Hfit.
  - apply length_insert.
  - intros q Hq. apply list_lookup_insert_ne. congruence.
Qed.

Lemma swap_view (h : heap) (s : slice) (i j : nat) (a b : Airport) :
  valid_slice h s ->
  view h s !! i = Some a -> view h s !! j = Some b ->
  exists h', swap s i j h = Returns (tt, h') /\
    view h' s = <[j := a]> (<[i := b]> (view h s)) /\
    valid_slice h' s /\ same_except (s_ptr s) h h'.
Proof.
  intros Hv Ha Hb. unfold swap.
  rewrite (bind_Returns _ _ _ _ _ (index_view _ _ _ _ Ha)).
  rewrite (bind_Returns _ _ _ _ _ (index_view _ _ _ _ Hb)).
  assert (Hi : (i < s_len s)%nat) by (apply view_lookup in Ha; tauto).
  assert (Hj : (j < s_len s)%nat) by (apply view_lookup in Hb; tauto).
  destruct (assign_view h s i b Hv Hi) as (h1 & E1 & V1 & Hv1 & F1).
  rewrite (bind_Returns _ _ _ _ _ E1).
  destruct (assign_view h1 s j a Hv1 Hj) as (h2 & E2 & V2 & Hv2 & F2).
  exists h2. rewrite E2, V2, V1. repeat split; try apply Hv2.
  - destruct F1, F2. congruence.
  - intros q Hq. destruct F1 as [_ F1], F2 as [_ F2].
    rewrite F2, F1 by exact Hq. reflexivity.
Qed.

Lemma reads_view (h : heap) (x : slice) lt (i j : nat) (a b : Airport) :
  view h x !! i = Some a -> view h x !! j = Some b ->
  reads x lt i j h = Returns (lt a b, h).
Proof.
  intros Ha Hb. unfold reads.
  rewrite (bind_Returns _ _ _ _ _ (index_view _ _ _ _ Ha)).
  rewrite (bind_Returns _ _ _ _ _ (index_view _ _ _ _ Hb)).
  reflexivity.
Qed.

(** The inner loop inserts the element at [j] into the run before it. *)
Lemma sift_view lt (x : slice) (j : nat) :
  forall (h : heap) (p rest : list Airport) (e : Airport),
  valid_slice h x -> view h x = p ++ e :: rest -> length p = j ->
  exists h', sift (reads x lt) x 0 j h = Returns (tt, h') /\
    view h' x = insert_last lt e p ++ rest /\
    valid_slice h' x /\ same_except (s_ptr x) h h'.
Proof.
  induction j as [|j IH]; intros h p rest e Hv Hview Hp.
  - destruct p; [|discriminate]. exists h. simpl.
    repeat split; try apply Hv; auto.
  - destruct (exists_last (l := p)) as (p' & y & ->);
      [intros ->; discriminate|].
    rewrite length_app in Hp. simpl in Hp.
    assert (Hp' : length p' = j) by lia.
    rewrite <- app_assoc in Hview. simpl in Hview.
    assert (Hy : view h x !! j = Some y).
    { rewrite Hview, lookup_app_r by lia.
      rewrite Hp', Nat.sub_diag. reflexivity. }
    assert (He : view h x !! S j = Some e).
    { rewrite Hview, lookup_app_r by lia.
      replace (S j - length p')%nat with 1%nat by lia. reflexivity. }
    cbn [sift]. destruct (decide (0 < S j)%nat) as [_|]; [|lia].
    rewrite (bind_Returns _ _ _ _ _ (reads_view h x lt _ _ _ _ He Hy)).
    rewrite insert_last_snoc.
    destruct (lt e y) eqn:Elt.
    + destruct (swap_view h x (S j) j e y Hv He Hy) as (h1 & E1 & V1 & Hv1 & F1).
      rewrite (bind_Returns _ _ _ _ _ E1).
      assert (Hview1 : view h1 x = p' ++ e :: (y :: rest)).
      { rewrite V1, Hview.
        rewrite insert_app_r_alt by lia.
        replace (S j - length p')%nat with 1%nat by lia. simpl.
        rewrite insert_app_r_alt by lia.
        rewrite Hp', Nat.sub_diag. reflexivity. }
      destruct (IH h1 p' (y :: rest) e Hv1 Hview1 Hp') as (h2 & E2 & V2 & Hv2 & F2).
      exists h2. rewrite E2, V2, <- app_assoc.
      repeat split; try apply Hv2; auto.
      * destruct F1, F2; congruence.
      * intros q Hq. destruct F1 as [_ F1], F2 as [_ F2].
        rewrite F2, F1 by exact Hq. reflexivity.
    + exists h. rewrite Hview, <- app_assoc. simpl.
      repeat split; try apply Hv; auto.
Qed.

(** The outer loop: after the pass for [i] the first [i + 1] elements are
    the stable sort of what stood there. *)
Lemma insertionSort_view lt (x : slice) (n : nat) :
  forall (k : nat) (h : heap) (done todo : list Airport),
  valid_slice h x -> view h x = stable_sort lt done ++ todo ->
  length done = k -> length todo = n ->
  exists h', foldM (fun _ i => sift (reads x lt) x 0 i) (seq k n) tt h = Returns (tt, h') /\
    view h' x = stable_sort lt (done ++ todo) /\
    valid_slice h' x /\ same_except (s_ptr x) h h'.
Proof.
  induction n as [|n IH]; intros k h done todo Hv Hview Hk Hn.
  - destruct todo; [|discriminate]. exists h. simpl.
    rewrite app_nil_r in *. repeat split; try apply Hv; auto.
  - destruct todo as [|e todo]; [discriminate|]. simpl in Hn.
    simpl.
    destruct (sift_view lt x k h (stable_sort lt done) todo e Hv Hview)
      as (h1 & E1 & V1 & Hv1 & F1).
    { rewrite stable_sort_length. exact Hk. }
    rewrite (bind_Returns _ _ _ _ _ E1).
    rewrite <- stable_sort_snoc in V1.
    destruct (IH (S k) h1 (done ++ [e]) todo Hv1 V1) as (h2 & E2 & V2 & Hv2 & F2).
    { rewrite length_app. simpl. lia. }
    { lia. }
    exists h2. rewrite E2, V2, <- app_assoc.
    repeat split; try apply Hv2; auto.
    + destruct F1, F2; congruence.
    + intros q Hq. destruct F1 as [_ F1], F2 as [_ F2].
      rewrite F2, F1 by exact Hq. reflexivity.
Qed.

(** [sort.SliceStable] leaves the stable sort of the slice in its place and
    touches no other array. *)
Lemma SliceStable_view lt (x : slice) (h : heap) :
  valid_slice h x ->
  exists h', SliceStable x (reads x lt) h = Returns (tt, h') /\
    view h' x = stable_sort lt (view h x) /\
    valid_slice h' x /\ same_except (s_ptr x) h h'.
Proof.
  intros Hv. unfold SliceStable, insertionSort.
  destruct (view h x) as [|e l] eqn:Hview.
  - assert (s_len x = 0)%nat as -> by (rewrite <- (view_length h x Hv), Hview; reflexivity).
    exists h. simpl. rewrite Hview. repeat split; try apply Hv; auto.
  - assert (Hlen : s_len x = S (length l))
      by (rewrite <- (view_length h x Hv), Hview; reflexivity).
    rewrite Hlen. replace (S (length l) - 1)%nat with (length l) by lia.
    destruct (insertionSort_view lt x (length l) 1 h [e] l Hv) as (h' & E & V & Hv' & F);
      auto.
    exists h'. auto.
Qed.

(** ** float64: conversions of integers and the clamp *)

Lemma digits2_pos_size (p : positive) : digits2_pos p = Pos.size p.
Proof. induction p; simpl; congruence. Qed.

Lemma digits2_pos_lower (p : positive) :
  2 ^ (Zpos (digits2_pos p) - 1) <= Zpos p.
Proof.
  rewrite digits2_pos_size.
  pose proof (Pos.size_le p) as H.
  apply Pos2Z.pos_le_pos in H. rewrite Pos2Z.inj_pow in H.
  replace (Zpos (Pos.size p)) with (Z.succ (Zpos (Pos.size p) - 1)) in H by lia.
  rewrite Z.pow_succ_r in H by lia. lia.
Qed.

Lemma shr_1_div2 (mrs : shr_record) :
  0 <= shr_m mrs -> shr_m (shr_1 mrs) = Z.div2 (shr_m mrs).
Proof.
  destruct mrs as [m r s]. simpl. intros Hm.
  destruct m as [|[p|p|]|p]; simpl; try reflexivity; lia.
Qed.

Lemma iter_shr_1 (n : positive) :
  forall mrs, 0 <= shr_m mrs ->
  shr_m (SpecFloat.iter_pos shr_1 n mrs) = Z.shiftr (shr_m mrs) (Zpos n).
Proof.
  induction n as [n IH|n IH|]; intros mrs Hm; simpl SpecFloat.iter_pos.
  - rewrite IH, IH, shr_1_div2, Z.div2_spec, !Z.shiftr_shiftr by
      (try lia; rewrite ?IH, ?shr_1_div2, ?Z.div2_spec by
         (try lia; rewrite ?shr_1_div2, ?Z.div2_spec by lia;
          apply Z.shiftr_nonneg; lia);
       apply Z.shiftr_nonneg; rewrite ?Z.shiftr_nonneg; lia).
    f_equal. lia.
  - rewrite IH, IH, !Z.shiftr_shiftr by
      (try lia; rewrite ?IH by lia; apply Z.shiftr_nonneg; lia).
    f_equal. lia.
  - rewrite shr_1_div2, Z.div2_spec by lia. reflexivity.
Qed.

(** Rounding a positive mantissa at a non-negative exponent: the mantissa
    stays positive and the exponent does not decrease; a mantissa of at most
    53 bits is left alone. *)
Lemma shr_fexp_positive (m e : Z) (l : location) :
  0 < m -> - 1074 <= Zdigits2 m + e - 53 ->
  exists mrs e', shr_fexp prec emax m e l = (mrs, e') /\
    0 < shr_m mrs /\ e <= e' /\
    (Zdigits2 m <= 53 -> mrs = shr_record_of_loc m l /\ e' = e).
Proof.
  intros Hm He. unfold shr_fexp, fexp, SpecFloat.emin, prec, emax.
  destruct m as [|p|p]; try lia. simpl Zdigits2 in *.
  set (d := Zpos (digits2_pos p)) in *.
  replace (Z.max (d + e - 53) (3 - 1024 - 53) - e) with (d - 53) by lia.
  assert (Hrec : shr_m (shr_record_of_loc (Zpos p) l) = Zpos p)
    by (destruct l as [|[]]; reflexivity).
  unfold shr. destruct (d - 53) as [|n|n] eqn:En.
  - eexists _, _. split; [reflexivity|]. rewrite Hrec. repeat split; lia.
  - eexists _, _. split; [reflexivity|].
    rewrite iter_shr_1, Hrec by (rewrite Hrec; lia).
    repeat split; try lia.
    rewrite Z.shiftr_div_pow2 by lia.
    pose proof (digits2_pos_lower p) as Hlow. fold d in Hlow.
    apply Z.div_str_pos. split; [apply Z.pow_pos_nonneg; lia|].
    eapply Z.le_trans; [|exact Hlow].
    apply Z.pow_le_mono_r; lia.
  - eexists _, _. split; [reflexivity|]. rewrite Hrec. repeat split; lia.
Qed.

Lemma round_nearest_even_ge (m : Z) (l : location) : m <= round_nearest_even m l.
Proof.
  destruct l as [|[]]; simpl; try lia. destruct (Z.even m); lia.
Qed.

Lemma binary_round_aux_positive (m e : Z) :
  0 < m -> 0 <= e ->
  (exists m' e', binary_round_aux prec emax false m e loc_Exact = S754_finite false m' e' /\ e <= e')
  \/ binary_round_aux prec emax false m e loc_Exact = S754_infinity false.
Proof.
  intros Hm He. unfold binary_round_aux.
  destruct (shr_fexp_positive m e loc_Exact Hm) as (mrs1 & e1 & -> & Hm1 & He1 & _).
  { destruct m; simpl; lia. }
  set (m1 := round_nearest_even (shr_m mrs1) (loc_of_shr_record mrs1)).
  assert (Hm1' : 0 < m1) by (pose proof (round_nearest_even_ge (shr_m mrs1) (loc_of_shr_record mrs1)); lia).
  destruct (shr_fexp_positive m1 e1 loc_Exact Hm1') as (mrs2 & e2 & -> & Hm2 & He2 & _).
  { destruct m1; simpl; lia. }
  destruct (shr_m mrs2) as [|p|p]; try lia.
  destruct (e2 <=? emax - prec); [left|right; reflexivity].
  eexists _, _. split; [reflexivity|lia].
Qed.

Lemma digits2_pos_shift (p k : positive) :
  digits2_pos (Pos.iter xO p k) = (digits2_pos p + k)%positive.
Proof.
  induction k as [|k IH] using Pos.peano_ind.
  - simpl. lia.
  - rewrite Pos.iter_succ. simpl. rewrite IH. lia.
Qed.

(** [float64(n)] for [n >= 8] is a positive number with an exponent above
    that of 5 (which is [-50]), or overflows to +Inf. *)
Lemma of_int_large (p : positive) :
  8 <= Zpos p ->
  (exists m e, of_int (Zpos p) = S754_finite false m e /\ -49 <= e)
  \/ of_int (Zpos p) = S754_infinity false.
Proof.
  intros Hp. unfold of_int, binary_normalize, binary_round.
  pose proof (digits2_pos_lower p) as Hlow.
  set (d := Zpos (digits2_pos p)) in *.
  assert (Hd : 4 <= d).
  { destruct (Z_lt_le_dec d 4) as [Hlt|]; [|assumption].
    pose proof (Pos.size_gt p) as Hgt. rewrite <- digits2_pos_size in Hgt.
    apply Pos2Z.pos_lt_pos in Hgt. rewrite Pos2Z.inj_pow in Hgt. fold d in Hgt.
    assert (2 ^ d <= 2 ^ 3) by (apply Z.pow_le_mono_r; lia).
    change (2 ^ 3) with 8 in *. lia. }
  assert (Hf : fexp prec emax (d + 0) = d - 53)
    by (unfold fexp, SpecFloat.emin, prec, emax; lia).
  rewrite Hf. unfold shl_align. rewrite Z.sub_0_r.
  destruct (d - 53) as [|n|n] eqn:En.
  - destruct (binary_round_aux_positive (Zpos p) 0) as [(m' & e' & -> & He')| ->];
      try lia; [left|right; reflexivity].
    eexists _, _. split; [reflexivity|lia].
  - destruct (binary_round_aux_positive (Zpos p) 0) as [(m' & e' & -> & He')| ->];
      try lia; [left|right; reflexivity].
    eexists _, _. split; [reflexivity|lia].
  - left. unfold binary_round_aux.
    assert (Hdig : Zdigits2 (Zpos (Pos.iter xO p n)) = 53).
    { simpl. rewrite digits2_pos_shift. fold d. lia. }
    destruct (shr_fexp_positive (Zpos (Pos.iter xO p n)) (Zneg n) loc_Exact)
      as (mrs1 & e1 & -> & _ & _ & Hid); try lia.
    destruct Hid as [-> ->]; [lia|]. simpl shr_record_of_loc.
    simpl loc_of_shr_record. simpl round_nearest_even. simpl shr_m at 1.
    destruct (shr_fexp_positive (Zpos (Pos.iter xO p n)) (Zneg n) loc_Exact)
      as (mrs2 & e2 & -> & _ & _ & Hid); try lia.
    destruct Hid as [-> ->]; [lia|]. simpl.
    replace (Z.neg n <=? emax - prec) with true by (symmetry; apply Z.leb_le; unfold emax, prec; lia).
    eexists _, _. split; [reflexivity|lia].
Qed.

Lemma Min_five_large (x : float64) :
  (exists m e, x = S754_finite false m e /\ -49 <= e) \/ x = S754_infinity false ->
  Min x f_five = f_five.
Proof.
  intros [(m & e & -> & He)| ->]; [|reflexivity].
  unfold Min, flt, SFltb, SFcompare, f_five.
  destruct (e ?= -50) eqn:E; try reflexivity.
  - apply Z.compare_eq in E. lia.
  - change (e < -50) in E. lia.
Qed.

(** [int64(math.Min(float64(n), 5))] is the smaller of [n] and 5. *)
Lemma clamp_five (n : nat) : clamp n f_five = Z.of_nat (Nat.min n 5).
Proof.
  do 8 (destruct n as [|n]; [reflexivity|]).
  replace (Nat.min _ 5) with 5%nat by lia.
  unfold clamp.
  remember (S (S (S (S (S (S (S (S n)))))))) as k eqn:Hk.
  destruct (Z.of_nat k) as [|p|p] eqn:E; try lia.
  rewrite Min_five_large; [reflexivity|].
  apply of_int_large. lia.
Qed.

(** [int64(math.Min(float64(n), 3))] for the at most 5 elements kept. *)
Lemma clamp_three (n : nat) :
  (n <= 5)%nat -> clamp n f_three = Z.of_nat (Nat.min n 3).
Proof.
  intros Hn. do 6 (destruct n as [|n]; [reflexivity|]). lia.
Qed.

(** The model of float64 agrees with the machine's binary64 arithmetic on
    the constants of the program and on a conversion to radians. *)
Example float64_constants :
  f_Pi = lit 3.141592653589793%float /\ f_180 = lit 180%float /\
  f_6371 = lit 6371%float /\ f_one = lit 1%float /\ f_two = lit 2%float /\
  f_three = lit 3%float /\ f_five = lit 5%float.
Proof. vm_compute. repeat split; reflexivity. Qed.

Example radians_of_toronto_lat :
  SF2Prim (fdiv (fmul toronto_lat f_Pi) f_180)
  = (43.7 * 3.141592653589793 / 180)%float.
Proof. vm_compute. reflexivity. Qed.

(** Conversions between integers and float64. *)
Example to_int64_truncates :
  to_int64 (lit 2.9%float) = 2 /\ to_int64 (lit (-2.9)%float) = -2 /\
  to_int64 (of_int 7) = 7 /\ to_int64 S754_nan = int64_min.
Proof. vm_compute. repeat split; reflexivity. Qed.

Example Min_special_cases :
  Min (lit 7%float) f_five = f_five /\ Min f_three f_five = f_three /\
  Min S754_nan f_five = S754_nan /\
  Min (S754_zero true) (S754_zero false) = S754_zero true /\
  Min (S754_zero false) (S754_zero true) = S754_zero true.
Proof. vm_compute. repeat split; reflexivity. Qed.

(** ** FindClosestAirport on the store *)

Lemma extends_length (h h' : heap) : extends h h' -> (length h <= length h')%nat.
Proof.
  intros Hext. destruct (decide (length h <= length h')%nat) as [|Hn]; [assumption|].
  destruct (lookup_lt_is_Some_2 h (length h')) as [arr E]; [lia|].
  apply Hext, lookup_lt_Some in E. lia.
Qed.

Lemma same_except_extends (h0 h h' : heap) (p : nat) :
  extends h0 h -> same_except p h h' -> (length h0 <= p)%nat -> extends h0 h'.
Proof.
  intros Hext [_ Hsame] Hp q arr E.
  rewrite Hsame; [apply Hext; exact E|].
  apply lookup_lt_Some in E. lia.
Qed.

Lemma take_min_length {A} (l : list A) (k : nat) :
  take (Nat.min (length l) k) l = take k l.
Proof.
  destruct (le_lt_dec k (length l)) as [Hle|Hlt].
  - rewrite Nat.min_r by exact Hle. reflexivity.
  - rewrite Nat.min_l by lia. rewrite firstn_all, take_ge by lia. reflexivity.
Qed.

Section FindClosestAirportFacts.
Context {libm : MathLib} {rt : GoRuntime}.

Lemma append_fresh (h0 h : heap) (s : slice) (v : Airport) :
  extends h0 h -> fresh h0 h s ->
  exists s' h', append s v h = Returns (s', h') /\
    view h' s' = view h s ++ [v] /\ fresh h0 h' s' /\ extends h0 h'.
Proof.
  intros Hext [[Hlen Hfit] Hfresh]. unfold append.
  destruct (decide (s_len s < s_cap s)%nat) as [Hroom|Hfull].
  - destruct Hfresh as [Hcap|Hptr]; [lia|].
    destruct (h !! s_ptr s) as [arr|] eqn:E; simpl in Hfit; [|lia].
    rewrite decide_True by lia. eexists _, _. split; [reflexivity|].
    assert (Hp : (s_ptr s < length h)%nat) by (eapply lookup_lt_Some; exact E).
    assert (Hnew : <[s_ptr s := <[(s_off s + s_len s)%nat := v]> arr]> h !! s_ptr s
                   = Some (<[(s_off s + s_len s)%nat := v]> arr))
      by (apply list_lookup_insert_eq; exact Hp).
    repeat split.
    + unfold view. simpl. rewrite Hnew, E. simpl.
      rewrite drop_insert_ge by lia.
      replace (s_off s + s_len s - s_off s)%nat with (s_len s) by lia.
      rewrite insert_take_drop by (rewrite length_drop; lia).
      rewrite cons_middle, app_assoc.
      apply take_app_length'.
      rewrite length_app, length_take, length_drop. simpl. lia.
    + simpl. lia.
    + simpl. rewrite Hnew. simpl. rewrite length_insert. exact Hfit.
    + right. exact Hptr.
    + intros q arr' E'. rewrite list_lookup_insert_ne; [apply Hext; exact E'|].
      apply lookup_lt_Some in E'. lia.
  - eexists _, _. split; [reflexivity|].
    pose proof (growcap_fits (s_cap s) (S (s_len s))) as Hgrow.
    pose proof (view_length h s (conj Hlen Hfit)) as Hvl.
    assert (Hlast : forall arr, (h ++ [arr]) !! length h = Some arr).
    { intros arr. rewrite lookup_app_r by lia. rewrite Nat.sub_diag. reflexivity. }
    repeat split.
    + remember (view h s) as l eqn:Hl.
      unfold view. simpl. rewrite Hlast. simpl. rewrite drop_0.
      rewrite cons_middle, app_assoc.
      apply take_app_length'.
      rewrite length_app, Hvl. simpl. lia.
    + exact Hgrow.
    + simpl. rewrite Hlast. simpl. rewrite length_app, Hvl. simpl.
      rewrite length_replicate. lia.
    + right. simpl. apply extends_length. exact Hext.
    + intros q arr' E'. rewrite lookup_app_l; [apply Hext; exact E'|].
      apply Hext, lookup_lt_Some in E'. exact E'.
Qed.

(** The loop over the candidates: [matches] ends as the candidates in input
    order, each with its distance, in an array of the function's own. *)
Lemma collect_loop (lat long : float64) (h0 : heap) (airports : slice) :
  valid_slice h0 airports ->
  forall (todo done : list Airport) (h : heap) (m : slice),
  view h0 airports = done ++ todo ->
  extends h0 h -> fresh h0 h m ->
  view h m = map (with_distance lat long) done ->
  exists m' h',
    foldM (fun matches i =>
             airport ← index airports i;
             let distance := HaversineDistance lat long (ap_Lat airport) (ap_Long airport) in
             let airport := set_Distance airport distance in
             append matches airport)
          (seq (length done) (length todo)) m h = Returns (m', h') /\
    view h' m' = map (with_distance lat long) (done ++ todo) /\
    fresh h0 h' m' /\ extends h0 h'.
Proof.
  intros Hvalid todo. induction todo as [|a todo IH]; intros done h m Hsplit Hext Hfresh Hview.
  - exists m, h. rewrite app_nil_r. simpl. auto.
  - assert (Ha : view h airports !! length done = Some a).
    { rewrite (extends_view h0 h airports Hext Hvalid), Hsplit.
      rewrite lookup_app_r by lia. rewrite Nat.sub_diag. reflexivity. }
    destruct (append_fresh h0 h m (with_distance lat long a) Hext Hfresh)
      as (m1 & h1 & E1 & V1 & Hfresh1 & Hext1).
    destruct (IH (done ++ [a]) h1 m1) as (m' & h' & E & V & Hfresh' & Hext'); auto.
    + rewrite <- app_assoc. exact Hsplit.
    + rewrite V1, Hview, map_app. reflexivity.
    + rewrite length_app in E. simpl in E.
      replace (length done + 1)%nat with (S (length done)) in E by lia.
      exists m', h'. rewrite <- app_assoc in V.
      split; [|auto]. cbn [length seq foldM].
      erewrite bind_Returns; [exact E|].
      erewrite bind_Returns; [|apply index_view; exact Ha].
      exact E1.
Qed.

Lemma slice_to_view (h : heap) (s : slice) (k : nat) :
  valid_slice h s -> (k <= s_len s)%nat ->
  exists s', slice_to s (Z.of_nat k) h = Returns (s', h) /\
    view h s' = take k (view h s) /\ valid_slice h s' /\
    s_ptr s' = s_ptr s /\ s_cap s' = s_cap s /\ s_len s' = k.
Proof.
  intros [Hlen Hfit] Hk. unfold slice_to.
  replace ((0 <=? Z.of_nat k) && (Z.of_nat k <=? Z.of_nat (s_cap s))) with true
    by (symmetry; apply andb_true_iff; split; apply Z.leb_le; lia).
  eexists. split; [reflexivity|]. rewrite Nat2Z.id. unfold view. simpl.
  repeat split; simpl; try lia; try assumption.
  rewrite take_take. f_equal. lia.
Qed.

(** What a call does: it returns, the result shows the ranking of the
    specification, and the store has only gained arrays. *)
Lemma FindClosestAirport_returns (lat long : float64) (airports : slice) (h : heap) :
  valid_slice h airports ->
  exists res h', FindClosestAirport lat long airports h = Returns (res, h') /\
    view h' res = nearestAirports lat long (view h airports) /\
    valid_slice h' res /\ extends h h'.
Proof.
  intros Hvalid. unfold FindClosestAirport.
  pose proof (view_length h airports Hvalid) as Hn.
  destruct (collect_loop lat long h airports Hvalid (view h airports) [] h emptySlice)
    as (m & h1 & E1 & V1 & [Hv1 Hfresh1] & Hext1); auto using extends_refl.
  { repeat split; simpl; auto; lia. }
  rewrite Hn in E1. simpl in E1, V1.
  rewrite (bind_Returns _ _ _ _ _ E1).
  destruct (SliceStable_view by_distance m h1 Hv1) as (h2 & E2 & V2 & Hv2 & F2).
  change (fun i j => mi ← index m i; mj ← index m j; mret (flt (ap_Distance mi) (ap_Distance mj)))
    with (reads m by_distance).
  rewrite (bind_Returns _ _ _ _ _ E2).
  rewrite clamp_five.
  destruct (slice_to_view h2 m (Nat.min (s_len m) 5) Hv2) as (f & E3 & V3 & Hv3 & Hp3 & Hc3 & Hl3);
    [lia|].
  rewrite (bind_Returns _ _ _ _ _ E3).
  destruct (SliceStable_view by_type f h2 Hv3) as (h3 & E4 & V4 & Hv4 & F4).
  change (fun i j => fi ← index f i; fj ← index f j; mret (String.ltb (ap_Type fi) (ap_Type fj)))
    with (reads f by_type).
  rewrite (bind_Returns _ _ _ _ _ E4).
  rewrite clamp_three by lia.
  destruct (slice_to_view h3 f (Nat.min (s_len f) 3) Hv4) as (r & E5 & V5 & Hv5 & Hp5 & Hc5 & Hl5);
    [lia|].
  exists r, h3. split; [exact E5|]. split; [|split; [exact Hv5|]].
  - pose proof (view_length h2 m Hv2) as Hm. rewrite V2 in Hm.
    pose proof (view_length h3 f Hv4) as Hf. rewrite V4, V3, V2 in Hf.
    rewrite V5, V4, V3, V2, V1, <- Hf, <- Hm, V1.
    unfold nearestAirports. rewrite !take_min_length. reflexivity.
  - destruct Hfresh1 as [Hcap|Hptr].
    + assert (Hm0 : s_len m = 0%nat) by (destruct Hv1; lia).
      assert (Hf0 : s_len f = 0%nat) by lia.
      unfold SliceStable, insertionSort in E2, E4. rewrite Hm0 in E2. rewrite Hf0 in E4.
      simpl in E2, E4. inversion E2; inversion E4; subst. exact Hext1.
    + apply (same_except_extends h h2 h3 (s_ptr f)); [|exact F4|rewrite Hp3; exact Hptr].
      apply (same_except_extends h h1 h2 (s_ptr m)); assumption.
Qed.

End FindClosestAirportFacts.

(** ** The two orders the ranking sorts by *)

(** [<] on float64 is irreflexive and asymmetric, and "not smaller" is
    transitive as long as no NaN is compared. *)
Lemma flt_irrefl (a : float64) : flt a a = false.
Proof.
  unfold flt, SFltb, SFcompare.
  destruct a as [[]|[]| |[] m e]; simpl; float_order_cases.
Qed.

Lemma flt_asym (a b : float64) : flt a b = true -> flt b a = false.
Proof.
  unfold flt, SFltb, SFcompare.
  destruct a as [[]|[]| |[] ma ea], b as [[]|[]| |[] mb eb]; simpl;
    try discriminate; try reflexivity; intros H; float_order_cases.
Qed.

Lemma flt_ge_trans (a b c : float64) :
  is_nan a = false -> is_nan b = false -> is_nan c = false ->
  flt b a = false -> flt c b = false -> flt c a = false.
Proof.
  unfold flt, SFltb, SFcompare.
  destruct a as [[]|[]| |[] ma ea], b as [[]|[]| |[] mb eb], c as [[]|[]| |[] mc ec];
    simpl; try discriminate; try reflexivity; intros _ _ _ H1 H2; float_order_cases.
Qed.

(** [<] on strings is the lexical order of the bytes. *)
Lemma ascii_compare_trans (a b c : ascii) :
  Ascii.compare a b <> Gt -> Ascii.compare b c <> Gt ->
  Ascii.compare a c <> Gt /\
  (Ascii.compare a c = Eq -> Ascii.compare a b = Eq /\ Ascii.compare b c = Eq).
Proof.
  unfold Ascii.compare.
  destruct (N.compare_spec (N_of_ascii a) (N_of_ascii b));
    destruct (N.compare_spec (N_of_ascii b) (N_of_ascii c));
    destruct (N.compare_spec (N_of_ascii a) (N_of_ascii c));
    intros; split; intros; try congruence; try lia; auto.
Qed.

Lemma string_compare_trans (a : string) :
  forall b c, String.compare a b <> Gt -> String.compare b c <> Gt ->
  String.compare a c <> Gt.
Proof.
  induction a as [|x a IH]; intros [|y b] [|z c]; simpl; try congruence.
  intros Hab Hbc.
  assert (Hxy : Ascii.compare x y <> Gt) by (destruct (Ascii.compare x y); congruence).
  assert (Hyz : Ascii.compare y z <> Gt) by (destruct (Ascii.compare y z); congruence).
  destruct (ascii_compare_trans x y z Hxy Hyz) as [Hxz Heq].
  destruct (Ascii.compare x z) eqn:E; try congruence.
  destruct (Heq eq_refl) as [E1 E2]. rewrite E1 in Hab. rewrite E2 in Hbc.
  apply (IH b c); assumption.
Qed.

Lemma string_ltb_irrefl (a : string) : String.ltb a a = false.
Proof.
  unfold String.ltb. pose proof (String.compare_antisym a a) as H.
  destruct (String.compare a a); simpl in H; congruence.
Qed.

Lemma string_ltb_asym (a b : string) : String.ltb a b = true -> String.ltb b a = false.
Proof.
  unfold String.ltb. rewrite (String.compare_antisym b a).
  destruct (String.compare a b); simpl; congruence.
Qed.

Lemma string_ltb_ge_trans (a b c : string) :
  String.ltb b a = false -> String.ltb c b = false -> String.ltb c a = false.
Proof.
  unfold String.ltb. intros Hba Hcb.
  pose proof (string_compare_trans a b c) as H.
  rewrite (String.compare_antisym a b), (String.compare_antisym b c),
    (String.compare_antisym a c) in H.
  destruct (String.compare b a), (String.compare c b), (String.compare c a);
    simpl in *; try congruence; exfalso; apply H; congruence.
Qed.

(** ** The ranking on lists *)

Section RankingFacts.
Context {libm : MathLib}.

Lemma by_distance_stable (l : list Airport) :
  stable_sort by_distance l ≡ₚ l /\
  keeps_order_of_equal_keys ap_Distance l (stable_sort by_distance l) /\
  (Forall (fun a => is_nan (ap_Distance a) = false) l ->
   ascending by_distance (stable_sort by_distance l)).
Proof.
  split; [apply stable_sort_perm|]. split.
  - intros k. apply stable_sort_filter.
    intros a b _ _ <- Hb. unfold by_distance. rewrite Hb. apply flt_irrefl.
  - apply stable_sort_ascending.
    + intros a b _ _. apply flt_asym.
    + intros a b c Ha Hb Hc. apply flt_ge_trans; assumption.
Qed.


Lemma by_type_stable (l : list Airport) :
  stably_sorted ap_Type by_type l (stable_sort by_type l).
Proof.
  split; [apply stable_sort_perm|]. split.
  - apply (stable_sort_ascending by_type (fun _ => True)).
    + intros a b _ _. apply string_ltb_asym.
    + intros a b c _ _ _. apply string_ltb_ge_trans.
    + apply Forall_true. auto.
  - intros k. apply stable_sort_filter.
    intros a b _ _ <- Hb. unfold by_type. rewrite Hb. apply string_ltb_irrefl.
Qed.

(** The two sorts are determined by being stable sorts: any other stable
    sorting of the same list, by whatever algorithm, gives the same
    arrangement. *)
Lemma by_type_sort_unique (l l' : list Airport) :
  l' ≡ₚ l -> ascending by_type l' ->
  (forall x, In x l -> filter (incomparable by_type x) l' = filter (incomparable by_type x) l) ->
  l' = stable_sort by_type l.
Proof.
  apply (stable_sort_unique by_type (fun _ => True)).
  - intros a b _ _. apply string_ltb_asym.
  - intros a b c _ _ _. apply string_ltb_ge_trans.
  - apply Forall_true. auto.
Qed.

Lemma by_distance_sort_unique (l l' : list Airport) :
  Forall (fun a => is_nan (ap_Distance a) = false) l ->
  l' ≡ₚ l -> ascending by_distance l' ->
  (forall x, In x l ->
     filter (incomparable by_distance x) l' = filter (incomparable by_distance x) l) ->
  l' = stable_sort by_distance l.
Proof.
  apply (stable_sort_unique by_distance (fun a => is_nan (ap_Distance a) = false)).
  - intros a b _ _. apply flt_asym.
  - intros a b c Ha Hb Hc. apply flt_ge_trans; assumption.
Qed.

Lemma nearestAirports_length (lat lon : float64) (l : list Airport) :
  (length (nearestAirports lat lon l) <= 3)%nat.
Proof. unfold nearestAirports. rewrite length_take. lia. Qed.

Lemma nearestAirports_drawn (lat lon : float64) (l : list Airport) (r : Airport) :
  r ∈ nearestAirports lat lon l ->
  exists c, c ∈ l /\ r = with_distance lat lon c.
Proof.
  unfold nearestAirports. intros Hr.
  apply elem_of_take in Hr as (i & Hr & _). apply list_elem_of_lookup_2 in Hr.
  rewrite stable_sort_perm in Hr.
  apply elem_of_take in Hr as (j & Hr & _). apply list_elem_of_lookup_2 in Hr.
  rewrite stable_sort_perm in Hr.
  apply list_elem_of_fmap in Hr as (c & -> & Hc). eauto.
Qed.

End RankingFacts.

(** ** FindClosestAirport: the claims *)

Lemma extends_valid (h h' : heap) (s : slice) :
  extends h h' -> valid_slice h s -> valid_slice h' s.
Proof.
  intros Hext [Hlen Hfit]. split; [exact Hlen|].
  destruct (h !! s_ptr s) as [arr|] eqn:E.
  - rewrite (Hext _ _ E). exact Hfit.
  - simpl in Hfit. lia.
Qed.

Section FindClosestAirportClaims.
Context {libm : MathLib} {rt : GoRuntime}.



(** C8.  A call leaves every array of the caller's store as it was, so the
    candidate slice shows the same records, stored distances included; the
    distances of a query live in arrays of the call's own.  Nothing is
    carried over to a later query: on the store the first call left, a query
    returns the records the same query returns on the store as it was before
    the first call, each of them a candidate with the distance from the
    later query point, and leaves the candidates unchanged again. *)
Theorem FindClosestAirport_leaves_candidates
    (lat long : float64) (airports : slice) (h : heap) :
  valid_slice h airports ->
  exists res h',
    FindClosestAirport lat long airports h = Returns (res, h') /\
    extends h h' /\
    view h' airports = view h airports /\
    forall lat2 long2, exists res2 h2 res0 h0,
      FindClosestAirport lat2 long2 airports h' = Returns (res2, h2) /\
      FindClosestAirport lat2 long2 airports h = Returns (res0, h0) /\
      view h2 res2 = view h0 res0 /\
      view h2 airports = view h airports /\
      forall r, r ∈ view h2 res2 ->
        exists c, c ∈ view h airports /\
          r = mkAirport (ap_ID c) (ap_Name c) (ap_Code c) (ap_CountryCode c)
                        (ap_Lat c) (ap_Long c) (ap_Type c)
                        (HaversineDistance lat2 long2 (ap_Lat c) (ap_Long c)).
Proof.
  intros Hvalid.
  destruct (FindClosestAirport_returns lat long airports h Hvalid)
    as (res & h' & E & _ & _ & Hext).
  exists res, h'. split; [exact E|]. split; [exact Hext|].
  pose proof (extends_view h h' airports Hext Hvalid) as Hsame.
  split; [exact Hsame|].
  intros lat2 long2.
  pose proof (extends_valid h h' airports Hext Hvalid) as Hvalid'.
  destruct (FindClosestAirport_returns lat2 long2 airports h' Hvalid')
    as (res2 & h2 & E2 & V2 & _ & Hext2).
  destruct (FindClosestAirport_returns lat2 long2 airports h Hvalid)
    as (res0 & h0 & E0 & V0 & _ & _).
  exists res2, h2, res0, h0. split; [exact E2|]. split; [exact E0|].
  rewrite V2, V0, Hsame. split; [reflexivity|]. split.
  - rewrite (extends_view h' h2 airports Hext2 Hvalid'). exact Hsame.
  - intros r Hr. apply nearestAirports_drawn in Hr as (c & Hc & ->).
    exists c. split; [exact Hc|reflexivity].
Qed.

End FindClosestAirportClaims.

(** The ranking run on the airports around Toronto.  The five nearest are
    YTZ, YKZ, YYZ, YOO, YHM; by type the large YYZ comes first, then the
    medium ones in distance order, and the small YKZ, second nearest, is
    dropped. *)
Example FindClosestAirport_toronto :
  match @FindClosestAirport small_angle_math doubling_runtime
          toronto_lat toronto_long canada_slice canada_heap with
  | Returns (res, h') =>
      map ap_Code (view h' res) = ["YYZ"; "YTZ"; "YOO"]%string /\
      view h' canada_slice = canada
  | Panics _ => False
  end.
Proof. vm_compute. split; reflexivity. Qed.

Example nearestAirports_toronto :
  map ap_Code (@nearestAirports small_angle_math toronto_lat toronto_long canada)
  = ["YYZ"; "YTZ"; "YOO"]%string.
Proof. vm_compute. reflexivity. Qed.

(** Two airports at the same place as the city: the type decides, and with
    the same type the input order stays. *)
Example nearestAirports_ties :
  map ap_Code
    (@nearestAirports small_angle_math toronto_lat toronto_long
       [ap 1 "S" toronto_lat toronto_long "small_airport";
        ap 2 "L" toronto_lat toronto_long "large_airport";
        ap 3 "T" toronto_lat toronto_long "small_airport"])
  = ["L"; "S"; "T"]%string.
Proof. vm_compute. reflexivity. Qed.

Lemma canada_slice_valid : valid_slice canada_heap canada_slice.
Proof. split; simpl; lia. Qed.




Lemma FindClosestAirport_leaves_candidates_witness :
  exists res h',
    @FindClosestAirport small_angle_math doubling_runtime
      toronto_lat toronto_long canada_slice canada_heap = Returns (res, h') /\
    view h' canada_slice = canada /\
    exists res2 h2,
      @FindClosestAirport small_angle_math doubling_runtime
        (ap_Lat YVR) (ap_Long YVR) canada_slice h' = Returns (res2, h2) /\
      view h2 canada_slice = canada.
Proof.
  destruct (@FindClosestAirport_leaves_candidates small_angle_math doubling_runtime
              toronto_lat toronto_long canada_slice canada_heap)
    as (res & h' & E & _ & V & Hlater).
  - split; simpl; lia.
  - exists res, h'. split; [exact E|]. split; [exact V|].
    destruct (Hlater (ap_Lat YVR) (ap_Long YVR)) as (res2 & h2 & _ & _ & E2 & _ & _ & V2 & _).
    exists res2, h2. split; [exact E2|exact V2].
Defined.

(** ** searchCity and performSearch *)

Lemma mapO_Returns {A B} (f : A -> outcome B) (l : list A) (bs : list B) :
  mapO f l = Returns bs <-> Forall2 (fun a b => f a = Returns b) l bs.
Proof.
  revert bs. induction l as [|a l IH]; intros bs; simpl.
  - split.
    + intros E. inversion E. constructor.
    + intros H. inversion H. reflexivity.
  - unfold mbind, outcome_bind. destruct (f a) as [b|msg] eqn:Ea.
    + destruct (mapO f l) as [bs'|msg] eqn:El.
      * split.
        -- intros E. inversion E; subst. constructor; [exact Ea|]. apply IH. reflexivity.
        -- intros H. inversion H as [|? b' ? bs'' Hb Hrest]; subst.
           apply IH in Hrest. congruence.
      * split; [discriminate|].
        intros H. inversion H as [|? b' ? bs'' Hb Hrest]; subst.
        apply IH in Hrest. discriminate.
    + split; [discriminate|].
      intros H. inversion H; subst. congruence.
Qed.

Lemma mapO_total {A B} (f : A -> outcome B) (l : list A) :
  Forall (fun a => exists b, f a = Returns b) l ->
  exists bs, mapO f l = Returns bs.
Proof.
  induction 1 as [|a l [b Hb] _ [bs IH]]; simpl.
  - eauto.
  - unfold mbind, outcome_bind. rewrite Hb, IH. eauto.
Qed.

(** A record that comes with an error is the zero record. *)
Lemma searchCity_error (term : string) (ix : bleveIndex) (c : City) (e : string) :
  searchCity term ix = Returns (c, Some e) -> c = zeroCity.
Proof.
  unfold searchCity. destruct (ix_Search ix (city_request term)) as [hits|err]; [|discriminate].
  destruct (decide (length hits = 0%nat)); [congruence|].
  unfold mbind, outcome_bind.
  destruct (mapO _ hits) as [[|r rs]|]; discriminate.
Qed.

(** The fan-in delivers the records in some order and keeps those with an
    identity. *)
Lemma fanIn_order (pending : list City) :
  forall (sched : list nat) (results : list City),
  exists order, order ≡ₚ pending /\
    fanIn sched pending (length pending) results
    = results ++ filter (fun c => city_ID c <> EmptyString) order.
Proof.
  remember (length pending) as n eqn:Hn. revert pending Hn.
  induction n as [|n IH]; intros pending Hn sched results.
  - destruct pending; [|discriminate]. exists []. simpl. rewrite app_nil_r. auto.
  - cbn [fanIn]. rewrite <- Hn.
    set (k := (hd 0%nat sched `mod` S n)%nat).
    assert (Hk : (k < length pending)%nat)
      by (rewrite <- Hn; apply Nat.mod_upper_bound; lia).
    destruct (lookup_lt_is_Some_2 pending k Hk) as [r Hr]. rewrite Hr.
    destruct (IH (delete k pending)) with (sched := tl sched)
      (results := if decide (city_ID r <> EmptyString) then results ++ [r] else results)
      as (order & Hperm & ->).
    { rewrite length_delete by eauto. lia. }
    exists (r :: order). split.
    + rewrite Hperm. symmetry. apply delete_Permutation. exact Hr.
    + rewrite filter_cons. destruct (decide (city_ID r <> EmptyString)).
      * rewrite <- app_assoc. reflexivity.
      * reflexivity.
Qed.

(** Every order of delivery is the fan-in of some schedule. *)
Lemma fanIn_any_order (order : list City) :
  forall (pending results : list City),
  order ≡ₚ pending ->
  exists sched,
    fanIn sched pending (length pending) results
    = results ++ filter (fun c => city_ID c <> EmptyString) order.
Proof.
  induction order as [|r order IH]; intros pending results Hperm.
  - apply Permutation_nil_l in Hperm. subst. exists []. simpl.
    rewrite app_nil_r. reflexivity.
  - assert (Hr : r ∈ pending) by (rewrite <- Hperm; left).
    apply list_elem_of_lookup in Hr as [k Hk].
    pose proof (lookup_lt_Some _ _ _ Hk) as Hlt.
    assert (Hrest : order ≡ₚ delete k pending).
    { apply (Permutation_cons_inv (a := r)).
      rewrite Hperm. apply delete_Permutation. exact Hk. }
    destruct (IH (delete k pending)
                (if decide (city_ID r <> EmptyString) then results ++ [r] else results)
                Hrest) as [sched Hsched].
    exists (k :: sched).
    destruct pending as [|c pending']; [simpl in Hlt; lia|].
    cbn [fanIn length hd tl]. rewrite Nat.mod_small by exact Hlt. rewrite Hk.
    assert (Hlen : length (delete k (c :: pending')) = length pending')
      by (rewrite length_delete by eauto; simpl; lia).
    rewrite <- Hlen, Hsched, filter_cons.
    destruct (decide (city_ID r <> EmptyString)).
    + rewrite <- app_assoc. reflexivity.
    + reflexivity.
Qed.

(** C3.  On an index whose lookups for the batch return, [performSearch]
    returns, whatever order the goroutines deliver in.  Each term sends one
    record ([sent]); the result is, up to order, the sent records that
    have an identity.  So there are at most as many results as terms, every
    result is the record [searchCity] returned without error for a term of
    the batch, every such record with an identity is among the results, and
    no result has an empty identity. *)
Theorem performSearch_hits_of_the_batch
    (sched : list nat) (cities : list string) (cityIndex : bleveIndex) :
  Forall (fun term => exists r, searchCity term cityIndex = Returns r) cities ->
  exists results sent,
    performSearch sched cities cityIndex = Returns results /\
    Forall2 (fun term c => exists e, searchCity term cityIndex = Returns (c, e)) cities sent /\
    results ≡ₚ filter (fun c => city_ID c <> EmptyString) sent /\
    (length results <= length cities)%nat /\
    (forall r, r ∈ results ->
       city_ID r <> EmptyString /\
       exists term, term ∈ cities /\ searchCity term cityIndex = Returns (r, None)) /\
    (forall term r e, term ∈ cities -> searchCity term cityIndex = Returns (r, e) ->
       city_ID r <> EmptyString -> r ∈ results).
Proof.
  intros Hall. unfold performSearch.
  destruct (mapO_total (fun item => r ← searchCity item cityIndex; Returns (fst r)) cities)
    as [sent Hsent].
  { eapply Forall_impl; [exact Hall|]. intros term [r Hr]. simpl.
    unfold mbind, outcome_bind. rewrite Hr. eauto. }
  unfold mbind at 1, outcome_bind at 1. rewrite Hsent.
  apply mapO_Returns in Hsent.
  assert (Hpairs : Forall2 (fun term c => exists e, searchCity term cityIndex = Returns (c, e))
                     cities sent).
  { eapply Forall2_impl; [exact Hsent|]. intros term c. simpl.
    unfold mbind, outcome_bind.
    destruct (searchCity term cityIndex) as [[c' e]|]; [|discriminate].
    intros E. inversion E; subst. eauto. }
  pose proof (Forall2_length _ _ _ Hpairs) as Hlen.
  destruct (fanIn_order sent sched []) as (order & Hperm & Hfan).
  rewrite Hlen, Hfan. simpl.
  exists (filter (fun c => city_ID c <> EmptyString) order), sent.
  assert (Hres : filter (fun c => city_ID c <> EmptyString) order
                 ≡ₚ filter (fun c => city_ID c <> EmptyString) sent)
    by (rewrite Hperm; reflexivity).
  split; [reflexivity|]. split; [exact Hpairs|]. split; [exact Hres|].
  split; [|split].
  - rewrite Hres. apply length_filter.
  - intros r Hr. rewrite Hres in Hr. apply list_elem_of_filter in Hr as [Hid Hr].
    split; [exact Hid|].
    apply list_elem_of_lookup in Hr as [i Hi].
    destruct (Forall2_lookup_r _ _ _ _ _ Hpairs Hi) as (term & Hterm & e & E).
    exists term. split; [eapply list_elem_of_lookup_2; exact Hterm|].
    destruct e as [e|]; [|exact E].
    apply searchCity_error in E as Hz. subst r. contradiction Hid. reflexivity.
  - intros term r e Hterm E Hid. rewrite Hres. apply list_elem_of_filter.
    split; [exact Hid|].
    apply list_elem_of_lookup in Hterm as [i Hi].
    destruct (Forall2_lookup_l _ _ _ _ _ Hpairs Hi) as (c & Hc & e' & E').
    rewrite E in E'. inversion E'; subst. eapply list_elem_of_lookup_2; exact Hc.
Qed.

(** C4.  When the index returns no hit, [searchCity] returns, with the error
    "No results found" beside the zero record; when it returns hits whose
    documents can be read, [searchCity] returns the record of the first hit
    and no error; and a result without error never comes from an empty
    sequence of hits. *)
Theorem searchCity_first_hit_or_no_match (searchTerm : string) (index : bleveIndex) :
  (ix_Search index (city_request searchTerm) = inl [] ->
   searchCity searchTerm index = Returns (zeroCity, Some "No results found"%string)) /\
  (forall hit hits first others,
     ix_Search index (city_request searchTerm) = inl (hit :: hits) ->
     document_City (ix_Document index hit) = Returns first ->
     mapO (fun id => document_City (ix_Document index id)) hits = Returns others ->
     searchCity searchTerm index = Returns (first, None)) /\
  (forall result,
     searchCity searchTerm index = Returns (result, None) ->
     exists hit hits,
       ix_Search index (city_request searchTerm) = inl (hit :: hits) /\
       document_City (ix_Document index hit) = Returns result).
Proof.
  unfold searchCity. split; [|split].
  - intros ->. reflexivity.
  - intros hit hits first others -> Hfirst Hothers. simpl.
    unfold mbind, outcome_bind. rewrite Hfirst, Hothers. reflexivity.
  - intros result.
    destruct (ix_Search index (city_request searchTerm)) as [[|hit hits]|err];
      simpl; try discriminate.
    unfold mbind, outcome_bind.
    destruct (document_City (ix_Document index hit)) as [first|] eqn:Hfirst; [|discriminate].
    destruct (mapO _ hits); [|discriminate].
    intros E. inversion E; subst. eauto.
Qed.

(** ** The Index Store *)

Module IndexStoreFacts.
Import IndexStore.

Lemma ranks_before_city_request (term : string) (a b : City * Z) :
  ranks_before (req_sort (city_request term)) b a = false <-> ranked_above a b.
Proof.
  unfold ranks_before, ranked_above, city_request. simpl.
  destruct (Z.compare_spec (snd a) (snd b));
    destruct (Z.compare_spec (city_Population (fst a)) (city_Population (fst b)));
    split; intros; try reflexivity; try discriminate; lia.
Qed.

Lemma ranks_before_asym (term : string) (a b : City * Z) :
  ranks_before (req_sort (city_request term)) a b = true ->
  ranks_before (req_sort (city_request term)) b a = false.
Proof.
  unfold ranks_before, city_request. simpl.
  destruct (Z.compare_spec (snd a) (snd b));
    destruct (Z.compare_spec (snd b) (snd a)); try lia;
    destruct (Z.compare_spec (city_Population (fst a)) (city_Population (fst b)));
    destruct (Z.compare_spec (city_Population (fst b)) (city_Population (fst a)));
    intros; try reflexivity; try discriminate; lia.
Qed.

Lemma ranks_before_ge_trans (term : string) (a b c : City * Z) :
  ranks_before (req_sort (city_request term)) b a = false ->
  ranks_before (req_sort (city_request term)) c b = false ->
  ranks_before (req_sort (city_request term)) c a = false.
Proof.
  rewrite !ranks_before_city_request. unfold ranked_above. lia.
Qed.

Lemma StronglySorted_impl {A} (R R' : A -> A -> Prop) (l : list A) :
  (forall a b, R a b -> R' a b) -> StronglySorted R l -> StronglySorted R' l.
Proof.
  intros HR. induction 1 as [|a l Hs IH Hall]; constructor; [exact IH|].
  eapply Forall_impl; [exact Hall|]. intros b. apply HR.
Qed.

Lemma query_ranked (s : store) (term : string) :
  query s (city_request term) ≡ₚ matches s term /\
  StronglySorted ranked_above (query s (city_request term)).
Proof.
  unfold query. split; [apply stable_sort_perm|].
  eapply StronglySorted_impl.
  - intros a b. apply ranks_before_city_request.
  - apply (stable_sort_ascending _ (fun _ => True)).
    + intros a b _ _. apply ranks_before_asym.
    + intros a b c _ _ _. apply ranks_before_ge_trans.
    + apply Forall_true. auto.
Qed.

(** Reading back what was stored. *)
Lemma byte_value_ascii (x : Z) :
  0 <= x < 256 -> byte_value (ascii_of_N (Z.to_N x)) = x.
Proof.
  intros Hx. unfold byte_value. rewrite N_ascii_embedding by lia. lia.
Qed.

Lemma be_value_bytes (n : nat) :
  forall acc u, be_value acc n (be_bytes n u)
                = Some (acc * 256 ^ Z.of_nat n + u mod 256 ^ Z.of_nat n).
Proof.
  induction n as [|n IH]; intros acc u.
  - simpl. rewrite Z.mod_1_r. f_equal. lia.
  - cbn [be_value be_bytes]. rewrite IH.
    rewrite byte_value_ascii by (apply Z.mod_pos_bound; lia).
    f_equal. rewrite Nat2Z.inj_succ, Z.pow_succ_r by lia.
    set (p := 256 ^ Z.of_nat n).
    assert (Hp : 0 < p) by (apply Z.pow_pos_nonneg; lia).
    rewrite (Z.mul_comm 256 p), Z.rem_mul_r by lia. lia.
Qed.

Lemma BigEndian_Uint64_bytes (u : Z) :
  0 <= u < 2 ^ 64 -> BigEndian_Uint64 (be_bytes 8 u) = Returns u.
Proof.
  intros Hu. unfold BigEndian_Uint64. rewrite be_value_bytes.
  change (256 ^ Z.of_nat 8) with (2 ^ 64).
  rewrite Z.mul_0_l, Z.add_0_l, Z.mod_small by lia. reflexivity.
Qed.

Lemma int64_of_uint64_of_int64 (z : Z) :
  - 2 ^ 63 <= z < 2 ^ 63 -> int64_of_uint64 (uint64_of_int64 z) = z.
Proof.
  intros Hz. unfold int64_of_uint64, uint64_of_int64.
  destruct (Z_lt_le_dec z 0) as [Hneg|Hpos].
  - replace (z mod 2 ^ 64) with (z + 2 ^ 64)
      by (apply Z.mod_unique with (-1); lia).
    destruct (Z.ltb_spec (z + 2 ^ 64) (2 ^ 63)); lia.
  - rewrite Z.mod_small by lia.
    destruct (Z.ltb_spec z (2 ^ 63)); lia.
Qed.

Lemma document_City_stored (s : store) (c : City) (u : Z) :
  BigEndian_Uint64 (population_field s c) = Returns u ->
  document_City (Some (stored_fields s c))
  = Returns (mkCity (city_ID c) (city_Name c) (city_ASCIIName c) (city_CountryID c)
                    (city_Timezone c) (int64_of_uint64 u)
                    (city_Latitude c) (city_Longitude c)).
Proof.
  intros Hu. unfold document_City, stored_fields, field_value. simpl lookup.
  unfold mbind, outcome_bind. rewrite Hu. reflexivity.
Qed.

Lemma BigEndian_Uint64_long (b : string) :
  (8 <= String.length b)%nat -> exists u, BigEndian_Uint64 b = Returns u.
Proof.
  unfold BigEndian_Uint64. generalize 0. generalize 8%nat as n.
  intros n. revert b. induction n as [|n IH]; intros b acc Hlen.
  - eexists. reflexivity.
  - destruct b as [|c b]; [simpl in Hlen; lia|]. simpl.
    apply IH. simpl in Hlen. lia.
Qed.

Lemma document_City_decoded (s : store) (c : City) :
  (8 <= String.length (population_field s c))%nat ->
  document_City (Some (stored_fields s c)) = Returns (decoded s c).
Proof.
  intros Hlen. destruct (BigEndian_Uint64_long _ Hlen) as [u Hu].
  rewrite (document_City_stored s c u Hu). unfold decoded.
  unfold BigEndian_Uint64 in Hu.
  destruct (be_value 0 8 (population_field s c)); inversion Hu; subst. reflexivity.
Qed.

(** A store that keeps the population as the 8 big-endian bytes of the
    int64 gives back the record stored. *)
Lemma document_City_big_endian (s : store) (c : City) :
  population_field s c = big_endian_population c ->
  - 2 ^ 63 <= city_Population c < 2 ^ 63 ->
  document_City (Some (stored_fields s c)) = Returns c.
Proof.
  intros Hfield Hpop.
  rewrite (document_City_stored s c (uint64_of_int64 (city_Population c))).
  - rewrite int64_of_uint64_of_int64 by exact Hpop. destruct c. reflexivity.
  - rewrite Hfield. apply BigEndian_Uint64_bytes.
    unfold uint64_of_int64. apply Z.mod_pos_bound. lia.
Qed.

(** With unique identities, the document of a record's identity is the
    record. *)
Lemma document_of_record (s : store) (c : City) :
  NoDup (map city_ID (records s)) -> c ∈ records s ->
  document s (city_ID c) = Some (stored_fields s c).
Proof.
  intros Hnodup Hc. unfold document.
  destruct (list_find (fun c' => city_ID c' = city_ID c) (records s)) as [[i c']|] eqn:Hfind.
  - apply list_find_Some in Hfind as (Hi & Hid & _).
    apply list_elem_of_lookup in Hc as [j Hj].
    assert (i = j) as ->.
    { apply (NoDup_lookup _ i j (city_ID c) Hnodup).
      - rewrite list_lookup_fmap, Hi. simpl. congruence.
      - rewrite list_lookup_fmap, Hj. reflexivity. }
    congruence.
  - apply list_find_None in Hfind. rewrite List.Forall_forall in Hfind.
    exfalso. apply (Hfind c); [apply list_elem_of_In; exact Hc|reflexivity].
Qed.

Lemma matches_records (s : store) (term : string) (m : City * Z) :
  m ∈ matches s term -> fst m ∈ records s.
Proof.
  unfold matches. intros Hm. apply list_elem_of_omap in Hm as (c & Hc & E).
  destruct (relevance s term c); inversion E; subst. exact Hc.
Qed.

Lemma documents_of_hits (s : store) (hits : list (City * Z)) :
  NoDup (map city_ID (records s)) ->
  Forall (fun c => (8 <= String.length (population_field s c))%nat) (records s) ->
  Forall (fun m => fst m ∈ records s) hits ->
  mapO (fun id => document_City (ix_Document (index s) id))
       (map (fun m => city_ID (fst m)) hits)
  = Returns (map (fun m => decoded s (fst m)) hits).
Proof.
  intros Hnodup Hpop Hhits. apply mapO_Returns.
  induction Hhits as [|m hits Hm _ IH]; simpl; constructor; [|exact IH].
  rewrite (document_of_record s (fst m) Hnodup Hm).
  apply document_City_decoded.
  rewrite List.Forall_forall in Hpop. apply Hpop, list_elem_of_In, Hm.
Qed.

End IndexStoreFacts.

(** C6.  For a store whose records have unique identities and whose stored
    population fields have the 8 bytes the decoder reads, the hits of the
    query [searchCity] sends are all the matches of the term, ordered by
    descending score and, among equal scores, by descending population; and
    [searchCity] returns the record at the head of that order, or the
    no-match outcome when there is none.  The record returned has the
    identity, names, country, time zone and coordinates of the head; its
    population is what the first 8 bytes of the stored field say, whatever
    encoding the store uses. *)
Theorem searchCity_picks_head_of_ranked_matches
    (s : IndexStore.store) (searchTerm : string) :
  NoDup (map city_ID (IndexStore.records s)) ->
  Forall (fun c => (8 <= String.length (IndexStore.population_field s c))%nat)
         (IndexStore.records s) ->
  let hits := IndexStore.query s (city_request searchTerm) in
  hits ≡ₚ IndexStore.matches s searchTerm /\
  StronglySorted
    (fun a b => snd b < snd a \/
                (snd a = snd b /\ city_Population (fst b) <= city_Population (fst a)))
    hits /\
  match hits with
  | [] =>
      searchCity searchTerm (IndexStore.index s)
      = Returns (zeroCity, Some "No results found"%string)
  | (best, _) :: _ =>
      exists u : Z,
        BigEndian_Uint64 (IndexStore.population_field s best) = Returns u /\
        searchCity searchTerm (IndexStore.index s)
        = Returns (mkCity (city_ID best) (city_Name best) (city_ASCIIName best)
                          (city_CountryID best) (city_Timezone best)
                          (int64_of_uint64 u)
                          (city_Latitude best) (city_Longitude best), None)
  end.
Proof.
  intros Hnodup Hpop hits.
  destruct (IndexStoreFacts.query_ranked s searchTerm) as [Hperm Hsorted].
  split; [exact Hperm|]. split; [exact Hsorted|].
  assert (Hrecords : Forall (fun m => fst m ∈ IndexStore.records s) hits).
  { rewrite List.Forall_forall. intros m Hm.
    apply (IndexStoreFacts.matches_records s searchTerm).
    rewrite <- Hperm. apply list_elem_of_In. exact Hm. }
  pose proof (IndexStoreFacts.documents_of_hits s hits Hnodup Hpop Hrecords) as Hdocs.
  unfold searchCity. simpl ix_Search. fold hits.
  destruct hits as [|[best score] rest]; [reflexivity|].
  assert (Hbest : (8 <= String.length (IndexStore.population_field s best))%nat).
  { rewrite List.Forall_forall in Hpop. apply Hpop, list_elem_of_In.
    inversion Hrecords; subst. assumption. }
  destruct (IndexStoreFacts.BigEndian_Uint64_long _ Hbest) as [u Hu].
  exists u. split; [exact Hu|].
  rewrite decide_False by discriminate.
  rewrite Hdocs. simpl. unfold IndexStore.decoded.
  unfold BigEndian_Uint64 in Hu.
  destruct (be_value 0 8 (IndexStore.population_field s best)); inversion Hu; subst.
  reflexivity.
Qed.

(** ** formatResults *)

Section FormatResultsFacts.
Context {libm : MathLib} {rt : GoRuntime} {world : World}.

(** Reading the codes of the airports found leaves the store alone. *)
Lemma codes_loop (airports : slice) (h : heap) (n : nat) :
  valid_slice h airports ->
  forall (k : nat) (codes : list string),
  (k + n <= s_len airports)%nat ->
  exists codes',
    foldM (fun codes j => a ← index airports j; mret (<[j := ap_Code a]> codes))
          (seq k n) codes h = Returns (codes', h).
Proof.
  intros Hv. induction n as [|n IH]; intros k codes Hk; simpl.
  - eexists. reflexivity.
  - destruct (lookup_lt_is_Some_2 (view h airports) k) as [a Ha].
    { rewrite view_length by exact Hv. lia. }
    destruct (IH (S k) (<[k := ap_Code a]> codes)) as [codes' E]; [lia|].
    exists codes'.
    erewrite bind_Returns; [exact E|].
    erewrite bind_Returns; [|apply index_view; exact Ha]. reflexivity.
Qed.

(** A record whose time zone does not load makes the loop body panic. *)
Lemma formatResult_no_location (i : nat) (city : City)
    (countryIndex : gmap string string) (airportIndex : gmap string slice)
    (phoneIndex currencyIndex : gmap string string) (h : heap) :
  LoadLocation (city_Timezone city) = None ->
  formatResult i city countryIndex airportIndex phoneIndex currencyIndex h
  = Panics "time: missing Location in call to Time.In".
Proof. intros E. unfold formatResult. rewrite E. reflexivity. Qed.

(** A record whose time zone loads is formatted, for any country. *)
Lemma formatResult_returns (i : nat) (city : City)
    (countryIndex : gmap string string) (airportIndex : gmap string slice)
    (phoneIndex currencyIndex : gmap string string) (h : heap) (loc : Location) :
  LoadLocation (city_Timezone city) = Some loc ->
  valid_slice h (airports_of airportIndex (city_CountryID city)) ->
  exists r h' airports,
    formatResult i city countryIndex airportIndex phoneIndex currencyIndex h
    = Returns (r, h') /\
    extends h h' /\
    view h' airports
    = nearestAirports (ParseFloat (city_Latitude city)) (ParseFloat (city_Longitude city))
                      (view h (airports_of airportIndex (city_CountryID city))) /\
    sr_UID r = city_ID city /\
    sr_Arg r = city_Name city /\
    sr_Autocomplete r = city_Name city /\
    sr_Icon r =
      mkIcon (let icon := ("flags/" ++ ToLower (Replace_spaces
                             (at_key countryIndex (city_CountryID city))) ++ ".png")%string in
              if NotExist icon then "flags/_no_flag.png"%string else icon) /\
    exists codes,
      sr_Subtitle r =
        Join [Time_Format (Time_In (Now i) loc) "Monday, January 2";
              at_key countryIndex (city_CountryID city);
              ("+" ++ at_key phoneIndex (city_CountryID city))%string;
              at_key currencyIndex (city_CountryID city);
              Join codes ","] " | ".
Proof.
  intros Hloc Hvalid. unfold formatResult. rewrite Hloc. simpl InLocation.
  destruct (FindClosestAirport_returns (ParseFloat (city_Latitude city))
              (ParseFloat (city_Longitude city))
              (airports_of airportIndex (city_CountryID city)) h Hvalid)
    as (res & h' & E & V & Hv' & Hext).
  destruct (codes_loop res h' (s_len res) Hv' 0 (replicate (s_len res) EmptyString))
    as [codes Ecodes]; [lia|].
  eexists _, h', res. split.
  - erewrite bind_Returns; [|reflexivity].
    erewrite bind_Returns; [|exact E].
    erewrite bind_Returns; [|exact Ecodes]. reflexivity.
  - repeat split; try assumption; try reflexivity. exists codes. reflexivity.
Qed.

Lemma formatLoop_panics (results : list City)
    (countryIndex : gmap string string) (airportIndex : gmap string slice)
    (phoneIndex currencyIndex : gmap string string) :
  Exists (fun city => city_ID city <> EmptyString /\
                      LoadLocation (city_Timezone city) = None) results ->
  forall (i : nat) (output : list SearchResult) (h : heap),
  exists msg,
    formatLoop i results countryIndex airportIndex phoneIndex currencyIndex output h
    = Panics msg.
Proof.
  induction results as [|city results IH]; intros Hex i output h.
  - inversion Hex.
  - cbn [formatLoop]. destruct (decide (city_ID city = EmptyString)) as [Hid|Hid].
    + apply IH. inversion Hex as [? ? [Hne _]|]; subst; [contradiction|assumption].
    + destruct (formatResult i city countryIndex airportIndex phoneIndex currencyIndex h)
        as [[r h']|msg] eqn:E.
      * erewrite bind_Returns; [|exact E]. apply IH.
        inversion Hex as [? ? [_ Hloc]|]; subst; [|assumption].
        rewrite formatResult_no_location in E by exact Hloc. discriminate.
      * exists msg. apply bind_Panics. exact E.
Qed.

(** The loop from position [i]: it returns when the time zones load, the
    array keeps its length, the positions before [i] and the positions of
    records without identity are left as they were, and each other position
    receives the result of its record. *)
Lemma formatLoop_returns (h0 : heap)
    (countryIndex : gmap string string) (airportIndex : gmap string slice)
    (phoneIndex currencyIndex : gmap string string) (results : list City) :
  map_Forall (fun _ s => valid_slice h0 s) airportIndex ->
  Forall (fun city => city_ID city <> EmptyString ->
                      is_Some (LoadLocation (city_Timezone city))) results ->
  forall (i : nat) (output : list SearchResult) (h : heap),
  extends h0 h ->
  (i + length results <= length output)%nat ->
  exists items h',
    formatLoop i results countryIndex airportIndex phoneIndex currencyIndex output h
    = Returns (items, h') /\
    extends h0 h' /\
    length items = length output /\
    (forall j, (j < i)%nat -> items !! j = output !! j) /\
    (forall k city, results !! k = Some city ->
       if decide (city_ID city = EmptyString)
       then items !! (i + k)%nat = output !! (i + k)%nat
       else exists r, items !! (i + k)%nat = Some r /\ sr_UID r = city_ID city).
Proof.
  intros Hslices Hzones. induction Hzones as [|city results Hzone _ IH];
    intros i output h Hext Hlen.
  - exists output, h. simpl.
    split; [reflexivity|]. split; [exact Hext|]. split; [reflexivity|].
    split; [reflexivity|]. intros k city Hk. discriminate.
  - simpl in Hlen. cbn [formatLoop].
    destruct (decide (city_ID city = EmptyString)) as [Hid|Hid].
    + destruct (IH (S i) output h Hext) as (items & h' & E & Hext' & Hl & Hbefore & Hat); [lia|].
      exists items, h'.
      split; [exact E|]. split; [exact Hext'|]. split; [exact Hl|]. split.
      * intros j Hj. apply Hbefore. lia.
      * intros [|k] c Hk; simpl in Hk.
        -- inversion Hk; subst. rewrite decide_True by exact Hid.
           rewrite Nat.add_0_r. apply Hbefore. lia.
        -- specialize (Hat k c Hk).
           replace (i + S k)%nat with (S i + k)%nat by lia. exact Hat.
    + destruct (Hzone Hid) as [loc Hloc].
      assert (Hvalid : valid_slice h (airports_of airportIndex (city_CountryID city))).
      { apply (extends_valid h0 h _ Hext). unfold airports_of.
        destruct (airportIndex !! city_CountryID city) as [s|] eqn:Es; simpl.
        - exact (Hslices _ _ Es).
        - split; simpl; lia. }
      destruct (formatResult_returns i city countryIndex airportIndex phoneIndex
                  currencyIndex h loc Hloc Hvalid)
        as (r & h1 & _ & E1 & Hext1 & _ & Huid & _).
      assert (Hext01 : extends h0 h1) by (eapply extends_trans; eassumption).
      destruct (IH (S i) (<[i := r]> output) h1 Hext01)
        as (items & h' & E & Hext' & Hl & Hbefore & Hat);
        [rewrite length_insert; lia|].
      exists items, h'. rewrite length_insert in Hl.
      split; [erewrite bind_Returns; [exact E|exact E1]|].
      split; [exact Hext'|]. split; [exact Hl|]. split.
      * intros j Hj. rewrite Hbefore by lia. apply list_lookup_insert_ne. lia.
      * intros [|k] c Hk; simpl in Hk.
        -- inversion Hk; subst. rewrite decide_False by exact Hid.
           exists r. rewrite Nat.add_0_r, Hbefore by lia.
           split; [apply list_lookup_insert_eq; lia|exact Huid].
        -- specialize (Hat k c Hk).
           replace (i + S k)%nat with (S i + k)%nat by lia.
           destruct (decide (city_ID c = EmptyString)); [|exact Hat].
           rewrite Hat. apply list_lookup_insert_ne. lia.
Qed.

End FormatResultsFacts.

Section FormatResultsClaims.
Context {libm : MathLib} {rt : GoRuntime} {world : World}.

Lemma formatLoop_panics_in_Time_In (h0 : heap)
    (countryIndex : gmap string string) (airportIndex : gmap string slice)
    (phoneIndex currencyIndex : gmap string string) (results : list City) :
  map_Forall (fun _ s => valid_slice h0 s) airportIndex ->
  Exists (fun city => city_ID city <> EmptyString /\
                      LoadLocation (city_Timezone city) = None) results ->
  forall (i : nat) (output : list SearchResult) (h : heap),
  extends h0 h ->
  formatLoop i results countryIndex airportIndex phoneIndex currencyIndex output h
  = Panics "time: missing Location in call to Time.In".
Proof.
  intros Hslices. induction results as [|city results IH]; intros Hex i output h Hext.
  - inversion Hex.
  - cbn [formatLoop]. destruct (decide (city_ID city = EmptyString)) as [Hid|Hid].
    + apply IH; [|exact Hext].
      inversion Hex as [? ? [Hne _]|]; subst; [contradiction|assumption].
    + destruct (LoadLocation (city_Timezone city)) as [loc|] eqn:Hloc.
      * assert (Hvalid : valid_slice h (airports_of airportIndex (city_CountryID city))).
        { apply (extends_valid h0 h _ Hext). unfold airports_of.
          destruct (airportIndex !! city_CountryID city) as [s|] eqn:Es; simpl.
          - exact (Hslices _ _ Es).
          - split; simpl; lia. }
        destruct (formatResult_returns i city countryIndex airportIndex phoneIndex
                    currencyIndex h loc Hloc Hvalid)
          as (r & h1 & _ & E1 & Hext1 & _).
        erewrite bind_Returns; [|exact E1]. apply IH.
        -- inversion Hex as [? ? [_ Hnone]|]; subst; [congruence|assumption].
        -- eapply extends_trans; eassumption.
      * apply bind_Panics. apply formatResult_no_location. exact Hloc.
Qed.

(** C5.  The claim does not hold of the code where the time zone is
    concerned.  Whenever a record with an identity has a time zone that does
    not load, [formatResults] panics in [Time.In] (the location is nil), and
    nothing is produced for the batch. *)
Theorem formatResults_panics_on_unknown_timezone
    (results : list City)
    (countryIndex : gmap string string) (airportIndex : gmap string slice)
    (phoneIndex currencyIndex : gmap string string) (h : heap) :
  map_Forall (fun _ s => valid_slice h s) airportIndex ->
  Exists (fun city => city_ID city <> EmptyString /\
                      LoadLocation (city_Timezone city) = None) results ->
  formatResults results countryIndex airportIndex phoneIndex currencyIndex h
  = Panics "time: missing Location in call to Time.In".
Proof.
  intros Hslices Hex. unfold formatResults, formatResults_items.
  apply bind_Panics.
  apply (formatLoop_panics_in_Time_In h); auto using extends_refl.
Qed.

(** The other fields degrade as the claim says: for a country absent from
    every table the names are empty, the airport list is empty, and a
    missing flag file gives the default icon. *)
Lemma formatResult_unknown_country (i : nat) (city : City)
    (countryIndex : gmap string string) (airportIndex : gmap string slice)
    (phoneIndex currencyIndex : gmap string string) (h : heap) (loc : Location) :
  LoadLocation (city_Timezone city) = Some loc ->
  countryIndex !! city_CountryID city = None ->
  airportIndex !! city_CountryID city = None ->
  phoneIndex !! city_CountryID city = None ->
  currencyIndex !! city_CountryID city = None ->
  NotExist ("flags/" ++ ToLower EmptyString ++ ".png")%string = true ->
  exists r,
    formatResult i city countryIndex airportIndex phoneIndex currencyIndex h
    = Returns (r, h) /\
    sr_Icon r = mkIcon "flags/_no_flag.png" /\
    sr_Subtitle r =
      Join [Time_Format (Time_In (Now i) loc) "Monday, January 2";
            EmptyString; "+"%string; EmptyString; EmptyString] " | ".
Proof.
  intros Hloc Hc Ha Hp Hcur Hflag.
  unfold formatResult, at_key, airports_of.
  rewrite Hloc, Hc, Ha, Hp, Hcur. simpl. rewrite Hflag.
  eexists. split; [reflexivity|]. split; reflexivity.
Qed.

(** When every record with an identity has a time zone that loads, the
    loop returns; the array it fills is as long as the input, a record
    without identity leaves the zero [SearchResult] at its position, and
    every other position holds the result of its record. *)
Lemma formatResults_items_when_zones_load
    (results : list City)
    (countryIndex : gmap string string) (airportIndex : gmap string slice)
    (phoneIndex currencyIndex : gmap string string) (h : heap) :
  map_Forall (fun _ s => valid_slice h s) airportIndex ->
  Forall (fun city => city_ID city <> EmptyString ->
                      is_Some (LoadLocation (city_Timezone city))) results ->
  exists items h',
    formatResults_items results countryIndex airportIndex phoneIndex currencyIndex h
    = Returns (items, h') /\
    formatResults results countryIndex airportIndex phoneIndex currencyIndex h
    = Returns (("{" ++ quote ++ "items" ++ quote ++ ":" ++ Marshal items ++ "}")%string, h') /\
    length items = length results /\
    (forall i city, results !! i = Some city -> city_ID city = EmptyString ->
       items !! i = Some zeroSearchResult) /\
    (forall i city, results !! i = Some city -> city_ID city <> EmptyString ->
       exists r, items !! i = Some r /\ sr_UID r = city_ID city).
Proof.
  intros Hslices Hzones.
  destruct (formatLoop_returns h countryIndex airportIndex phoneIndex currencyIndex
              results Hslices Hzones 0 (replicate (length results) zeroSearchResult) h)
    as (items & h' & E & _ & Hlen & _ & Hat).
  { apply extends_refl. }
  { rewrite length_replicate. lia. }
  rewrite length_replicate in Hlen.
  exists items, h'. split; [exact E|]. split; [|split; [exact Hlen|split]].
  - unfold formatResults. erewrite bind_Returns; [|exact E]. reflexivity.
  - intros i city Hi Hid. specialize (Hat i city Hi). simpl in Hat.
    rewrite decide_True in Hat by exact Hid. rewrite Hat.
    apply lookup_replicate_2. eapply lookup_lt_Some. exact Hi.
  - intros i city Hi Hid. specialize (Hat i city Hi). simpl in Hat.
    rewrite decide_False in Hat by exact Hid. exact Hat.
Qed.

(** C9.  The claim holds of the code on the lists in which every record
    with an identity has a time zone that loads: there the array has the
    length of the input, with the zero [SearchResult] at the position of a
    record without identity and the result of the record at every other
    position.  It does not hold on the other lists: as soon as one record
    with an identity has a time zone that does not load, the loop panics in
    [Time.In] and there is no array of any length. *)
Theorem formatResults_items_array_or_panic
    (results : list City)
    (countryIndex : gmap string string) (airportIndex : gmap string slice)
    (phoneIndex currencyIndex : gmap string string) (h : heap) :
  map_Forall (fun _ s => valid_slice h s) airportIndex ->
  (Forall (fun city => city_ID city <> EmptyString ->
                       is_Some (LoadLocation (city_Timezone city))) results ->
   exists items h',
     formatResults_items results countryIndex airportIndex phoneIndex currencyIndex h
     = Returns (items, h') /\
     formatResults results countryIndex airportIndex phoneIndex currencyIndex h
     = Returns (("{" ++ quote ++ "items" ++ quote ++ ":" ++ Marshal items ++ "}")%string, h') /\
     length items = length results /\
     (forall i city, results !! i = Some city -> city_ID city = EmptyString ->
        items !! i = Some zeroSearchResult) /\
     (forall i city, results !! i = Some city -> city_ID city <> EmptyString ->
        exists r, items !! i = Some r /\ sr_UID r = city_ID city)) /\
  (Exists (fun city => city_ID city <> EmptyString /\
                       LoadLocation (city_Timezone city) = None) results ->
   formatResults_items results countryIndex airportIndex phoneIndex currencyIndex h
   = Panics "time: missing Location in call to Time.In").
Proof.
  intros Hslices. split.
  - apply formatResults_items_when_zones_load. exact Hslices.
  - intros Hex. unfold formatResults_items.
    apply (formatLoop_panics_in_Time_In h); auto using extends_refl.
Qed.

End FormatResultsClaims.

Lemma example_airports_valid :
  map_Forall (fun _ s => valid_slice canada_heap s) example_airports.
Proof.
  unfold example_airports. apply map_Forall_singleton. split; simpl; lia.
Qed.

Lemma formatResults_panics_on_unknown_timezone_witness :
  @formatResults small_angle_math doubling_runtime example_world [Toronto; Atlantis]
    example_countries example_airports example_phones example_currencies canada_heap
  = Panics "time: missing Location in call to Time.In".
Proof.
  apply (@formatResults_panics_on_unknown_timezone small_angle_math doubling_runtime
           example_world).
  - exact example_airports_valid.
  - right. left. split; [discriminate|reflexivity].
Defined.

(** The input of C5 again: two records that format and one whose time zone
    does not load give no array. *)
Lemma formatResults_items_array_or_panic_witness :
  @formatResults_items small_angle_math doubling_runtime example_world
    [Toronto; zeroCity; Atlantis]
    example_countries example_airports example_phones example_currencies canada_heap
  = Panics "time: missing Location in call to Time.In".
Proof.
  apply (@formatResults_items_array_or_panic small_angle_math doubling_runtime
           example_world [Toronto; zeroCity; Atlantis]
           example_countries example_airports example_phones example_currencies
           canada_heap example_airports_valid).
  right. right. left. split; [discriminate|reflexivity].
Defined.

(** Without that record the array has the three positions, the second one
    zero. *)
Example formatResults_items_three_positions :
  exists items h',
    @formatResults_items small_angle_math doubling_runtime example_world
      [Toronto; zeroCity; Toronto_Ohio]
      example_countries example_airports example_phones example_currencies canada_heap
    = Returns (items, h') /\
    length items = 3%nat /\ items !! 1%nat = Some zeroSearchResult.
Proof.
  destruct (@formatResults_items_when_zones_load small_angle_math doubling_runtime
              example_world [Toronto; zeroCity; Toronto_Ohio]
              example_countries example_airports example_phones example_currencies
              canada_heap example_airports_valid)
    as (items & h' & E & _ & Hlen & Hzero & _).
  - repeat constructor; intros _; simpl; eauto.
  - exists items, h'. split; [exact E|]. split; [exact Hlen|].
    apply (Hzero 1%nat zeroCity); reflexivity.
Qed.

(** The records formatted in the example environment. *)
Example formatResults_items_toronto :
  match @formatResults_items small_angle_math doubling_runtime example_world
          [Toronto; zeroCity; Toronto_Ohio]
          example_countries example_airports example_phones example_currencies
          canada_heap with
  | Returns (items, _) =>
      map sr_Subtitle items
      = ["Monday, January 2 | Canada | +1 | CAD | YYZ,YTZ,YOO";
         "";
         "Monday, January 2 |  | + |  | "]%string /\
      map (fun r => icon_Path (sr_Icon r)) items
      = ["flags/canada.png"; ""; "flags/_no_flag.png"]%string
  | Panics _ => False
  end.
Proof. vm_compute. split; reflexivity. Qed.

(** ** main *)

Section MainClaims.
Context {libm : MathLib} {rt : GoRuntime} {world : World} {process : Process}.

(** C10.  With no argument (the joined input is empty) [main] panics with
    "Must specify query": no index is built or opened, no dataset is read
    and nothing is printed. *)
Theorem main_must_specify_query :
  Join Args " " = EmptyString ->
  main = ([], Panics "Must specify query").
Proof.
  intros Hinput. unfold main. rewrite decide_True by exact Hinput. reflexivity.
Qed.

End MainClaims.

Lemma main_must_specify_query_witness :
  @main small_angle_math doubling_runtime example_world (example_process [])
  = ([], Panics "Must specify query").
Proof.
  apply (@main_must_specify_query small_angle_math doubling_runtime example_world
           (example_process [])).
  reflexivity.
Defined.

(** A run with two terms, one of which matches nothing: the index is opened,
    the four datasets are read and one line is printed. *)
Example main_toronto_and_a_miss :
  fst (@main small_angle_math doubling_runtime example_world
         (example_process ["toronto,"; "nonexistentcityxyz"]%string))
  = [OpensIndex "cities.bleve";
     ReadsDataset "datasets/countries.json";
     ReadsDataset "datasets/airports.json";
     ReadsDataset "datasets/phone.json";
     ReadsDataset "datasets/currency.json";
     Prints ("{" ++ quote ++ "items" ++ quote ++ ":Toronto " ++ title_dash
             ++ " 3:04 PM EST}")]%string.
Proof. vm_compute. reflexivity. Qed.

(** ** The search on the example store *)

Example searchCity_toronto :
  searchCity "toronto" example_index = Returns (Toronto, None).
Proof. vm_compute. reflexivity. Qed.

Example searchCity_miss :
  searchCity "nonexistentcityxyz" example_index
  = Returns (zeroCity, Some "No results found"%string).
Proof. vm_compute. reflexivity. Qed.

(** Two deliveries of the same batch: the order of the results follows the
    schedule, the miss is left out of both. *)
Example performSearch_two_orders :
  performSearch [0%nat] ["toronto"; "nonexistentcityxyz"; "atlantis"]%string example_index
  = Returns [Toronto; Atlantis] /\
  performSearch [2%nat] ["toronto"; "nonexistentcityxyz"; "atlantis"]%string example_index
  = Returns [Atlantis; Toronto].
Proof. split; vm_compute; reflexivity. Qed.

Lemma performSearch_hits_of_the_batch_witness :
  exists results,
    performSearch [2%nat] ["toronto"; "nonexistentcityxyz"; "atlantis"]%string example_index
    = Returns results /\
    (length results <= 3)%nat.
Proof.
  destruct (performSearch_hits_of_the_batch [2%nat]
              ["toronto"; "nonexistentcityxyz"; "atlantis"]%string example_index)
    as (results & sent & E & _ & _ & Hlen & _).
  - repeat constructor; eexists; vm_compute; reflexivity.
  - exists results. split; [exact E|exact Hlen].
Defined.

Lemma prefix_coded_store_identities :
  NoDup (map city_ID (IndexStore.records prefix_coded_store)).
Proof.
  simpl. repeat constructor; rewrite ?elem_of_cons, ?elem_of_nil;
    intros H; repeat destruct H as [H|H]; try discriminate; exact H.
Qed.

(** On the store with prefix coded numbers the record of the head is
    returned with the population the decoder reads from the first 8 of the
    11 bytes. *)
Lemma searchCity_picks_head_of_ranked_matches_witness :
  searchCity "toronto" (IndexStore.index prefix_coded_store)
  = Returns (mkCity "6167865" "Toronto" "toronto" "CA" "America/Toronto"
                    2306196096147521536 "43.70011" "-79.4163", None).
Proof.
  destruct (searchCity_picks_head_of_ranked_matches prefix_coded_store "toronto")
    as (_ & _ & u & Hu & E).
  - exact prefix_coded_store_identities.
  - repeat constructor.
  - vm_compute in Hu. inversion Hu; subst. exact E.
Defined.

Lemma searchCity_first_hit_or_no_match_witness :
  searchCity "nonexistentcityxyz" example_index
  = Returns (zeroCity, Some "No results found"%string) /\
  searchCity "toronto" example_index = Returns (Toronto, None).
Proof.
  destruct (searchCity_first_hit_or_no_match "nonexistentcityxyz" example_index)
    as (Hmiss & _ & _).
  destruct (searchCity_first_hit_or_no_match "toronto" example_index)
    as (_ & Hhit & _).
  split.
  - apply Hmiss. reflexivity.
  - apply (Hhit "6167865"%string ["5174095"%string] Toronto [Toronto_Ohio]);
      vm_compute; reflexivity.
Defined.

(** ** HaversineDistance *)

(** *** Signs in IEEE arithmetic *)

Lemma binary_round_aux_opp (s : bool) (m e : Z) (l : location) :
  binary_round_aux prec emax (negb s) m e l
  = SFopp (binary_round_aux prec emax s m e l).
Proof.
  unfold binary_round_aux.
  destruct (shr_fexp prec emax m e l) as [mrs1 e1].
  destruct (shr_fexp prec emax _ e1 loc_Exact) as [mrs2 e2].
  destruct (shr_m mrs2); simpl; try reflexivity.
  destruct (e2 <=? emax - prec); reflexivity.
Qed.

Lemma binary_normalize_opp (z e : Z) :
  z <> 0 ->
  binary_normalize prec emax (- z) e false
  = SFopp (binary_normalize prec emax z e false).
Proof.
  intros Hz. destruct z as [|p|p]; [congruence| |]; simpl;
    unfold binary_round; destruct (shl_align _ _ _) as [mz ez].
  - apply (binary_round_aux_opp false).
  - rewrite (binary_round_aux_opp false). destruct (binary_round_aux _ _ _ _ _ _) as [[]|[]| |[] ? ?];
      reflexivity.
Qed.

(** [b - a] is [-(a - b)], except that both are [+0] when the difference of
    two numbers vanishes. *)
Lemma fsub_swap (a b : float64) :
  fsub b a = fneg (fsub a b) \/ (fsub a b = f_zero /\ fsub b a = f_zero).
Proof.
  unfold fsub, SF64sub, fneg, f_zero.
  destruct a as [sa|sa| |sa ma ea], b as [sb|sb| |sb mb eb];
    try (destruct sa, sb; simpl; auto; fail);
    try (destruct sa; simpl; auto; fail);
    try (destruct sb; simpl; auto; fail);
    try (simpl; auto; fail).
  unfold SFsub. rewrite (Z.min_comm eb ea).
  set (ez := Z.min ea eb).
  set (x := cond_Zopp sa (Zpos (fst (shl_align ma ea ez)))).
  set (y := cond_Zopp sb (Zpos (fst (shl_align mb eb ez)))).
  destruct (Z.eq_dec (x - y) 0) as [E|E].
  - right. replace (y - x) with 0 by lia. rewrite E. split; reflexivity.
  - left. replace (y - x) with (- (x - y)) by lia.
    apply binary_normalize_opp. exact E.
Qed.

Lemma fdiv_neg (x y : float64) : fdiv (fneg x) y = fneg (fdiv x y).
Proof.
  unfold fdiv, SF64div, fneg.
  destruct x as [sx|sx| |sx mx ex], y as [sy|sy| |sy my ey]; simpl;
    try reflexivity; try (destruct sx, sy; reflexivity).
  destruct (SFdiv_core_binary prec emax (Zpos mx) ex (Zpos my) ey) as [[mz ez] lz].
  rewrite <- binary_round_aux_opp. destruct sx, sy; reflexivity.
Qed.

Lemma fmul_comm (x y : float64) : fmul x y = fmul y x.
Proof.
  unfold fmul, SF64mul.
  destruct x as [sx|sx| |sx mx ex], y as [sy|sy| |sy my ey]; simpl;
    try reflexivity; try (destruct sx, sy; reflexivity).
  rewrite (Pos.mul_comm mx my), (Z.add_comm ex ey), (xorb_comm sx sy). reflexivity.
Qed.

Lemma fsub_self (x : float64) : is_finite x = true -> fsub x x = f_zero.
Proof.
  unfold fsub, SF64sub, f_zero.
  destruct x as [[]|s| |s m e]; simpl; try discriminate; try reflexivity.
  intros _. rewrite Z.sub_diag. reflexivity.
Qed.

(** *** No overflow below 2^1023 *)

Lemma Zdigits2_log2 (p : positive) : Zdigits2 (Zpos p) = Z.log2 (Zpos p) + 1.
Proof.
  simpl Zdigits2. symmetry.
  assert (H : Z.log2 (Zpos p) = Zpos (digits2_pos p) - 1); [|lia].
  apply Z.log2_unique; [lia|]. split; [apply digits2_pos_lower|].
  replace (Z.succ (Zpos (digits2_pos p) - 1)) with (Zpos (digits2_pos p)) by lia.
  rewrite digits2_pos_size, <- Pos2Z.inj_pow. apply Pos2Z.pos_lt_pos, Pos.size_gt.
Qed.

Lemma Zdigits2_nonneg (m : Z) : 0 <= Zdigits2 m.
Proof. destruct m; simpl; lia. Qed.

Lemma Zdigits2_le (a b : Z) : 0 <= a <= b -> Zdigits2 a <= Zdigits2 b.
Proof.
  intros [Ha Hab]. destruct a as [|a|a]; [apply Zdigits2_nonneg| |lia].
  destruct b as [|b|b]; try lia.
  rewrite !Zdigits2_log2. pose proof (Z.log2_le_mono (Zpos a) (Zpos b) Hab). lia.
Qed.

Lemma Zdigits2_succ (a : Z) : 0 <= a -> Zdigits2 (a + 1) <= Zdigits2 a + 1.
Proof.
  intros Ha. destruct a as [|a|a]; [simpl; lia| |lia].
  replace (Zpos a + 1) with (Zpos (a + 1)) by lia.
  rewrite !Zdigits2_log2. replace (Zpos (a + 1)) with (Z.succ (Zpos a)) by lia.
  pose proof (Z.log2_succ_le (Zpos a)). lia.
Qed.

Lemma Zdigits2_shiftr (m n : Z) :
  0 <= m -> 0 <= n -> Zdigits2 (Z.shiftr m n) <= Z.max 0 (Zdigits2 m - n).
Proof.
  intros Hm Hn. destruct m as [|p|p]; [rewrite Z.shiftr_0_l; simpl; lia| |lia].
  destruct (Z.shiftr (Zpos p) n) as [|q|q] eqn:E; [simpl; lia| |].
  - rewrite !Zdigits2_log2, <- E, Z.log2_shiftr by lia.
    destruct (Z_lt_le_dec (Z.log2 (Zpos p)) n) as [Hlt|Hle]; [|lia].
    rewrite Z.shiftr_eq_0 in E by (try lia; exact Hlt). discriminate.
  - pose proof (proj2 (Z.shiftr_nonneg (Zpos p) n)) as H. rewrite E in H. lia.
Qed.

Lemma shr_fexp_bounds (m e : Z) (l : location) :
  0 <= m ->
  exists mrs e', shr_fexp prec emax m e l = (mrs, e') /\
    0 <= shr_m mrs /\
    e' = Z.max e (fexp prec emax (Zdigits2 m + e)) /\
    Zdigits2 (shr_m mrs) + e' <= Z.max e' (Zdigits2 m + e).
Proof.
  intros Hm. unfold shr_fexp.
  set (n := fexp prec emax (Zdigits2 m + e) - e).
  assert (Hrec : shr_m (shr_record_of_loc m l) = m)
    by (destruct l as [|[]]; reflexivity).
  unfold shr. destruct n as [|p|p] eqn:En.
  - eexists _, _. split; [reflexivity|]. rewrite Hrec. repeat split; lia.
  - eexists _, _. split; [reflexivity|].
    rewrite iter_shr_1, Hrec by (rewrite Hrec; exact Hm).
    pose proof (Zdigits2_shiftr m (Zpos p) Hm ltac:(lia)).
    repeat split; try lia. apply Z.shiftr_nonneg. exact Hm.
  - eexists _, _. split; [reflexivity|]. rewrite Hrec. repeat split; lia.
Qed.

Lemma round_nearest_even_le (m : Z) (l : location) : round_nearest_even m l <= m + 1.
Proof.
  destruct l as [|[]]; simpl; try lia. destruct (Z.even m); lia.
Qed.

(** Rounding a number below 2^1023 gives a zero or a finite number of the
    sign asked for, of a magnitude at most one bit above. *)
Lemma binary_round_aux_finite (s : bool) (m e : Z) (l : location) (B : Z) :
  0 <= m -> e <= B -> Zdigits2 m + e <= B -> -1074 <= B <= 971 ->
  binary_round_aux prec emax s m e l = S754_zero s \/
  exists m' e', binary_round_aux prec emax s m e l = S754_finite s m' e' /\
    e' <= B /\ Zpos (digits2_pos m') + e' <= B + 1.
Proof.
  intros Hm He Hd HB. unfold binary_round_aux.
  destruct (shr_fexp_bounds m e l Hm) as (mrs1 & e1 & -> & Hm1 & He1 & Hd1).
  set (m1 := round_nearest_even (shr_m mrs1) (loc_of_shr_record mrs1)).
  assert (Hm1' : 0 <= m1)
    by (pose proof (round_nearest_even_ge (shr_m mrs1) (loc_of_shr_record mrs1)); lia).
  assert (Hdig : Zdigits2 m1 <= Zdigits2 (shr_m mrs1) + 1).
  { etransitivity; [|apply Zdigits2_succ; exact Hm1].
    apply Zdigits2_le. split; [exact Hm1'|apply round_nearest_even_le]. }
  destruct (shr_fexp_bounds m1 e1 loc_Exact Hm1') as (mrs2 & e2 & -> & Hm2 & He2 & Hd2).
  assert (He1' : e1 <= B)
    by (rewrite He1; unfold fexp, SpecFloat.emin, prec, emax; lia).
  assert (He2' : e2 <= B)
    by (rewrite He2; unfold fexp, SpecFloat.emin, prec, emax; lia).
  destruct (shr_m mrs2) as [|p|p]; [left; reflexivity| |lia].
  right. replace (e2 <=? emax - prec) with true
    by (symmetry; apply Z.leb_le; unfold emax, prec; lia).
  eexists _, _. split; [reflexivity|]. simpl Zdigits2 in Hd2. lia.
Qed.

Lemma unit_bounded_finite (s : bool) (m : positive) (e : Z) :
  unit_bounded (S754_finite s m e) -> Zpos (digits2_pos m) <= 53 /\ e <= -52.
Proof.
  intros [Hvalid Hle]. split.
  - unfold valid_binary, SpecFloat.valid_binary, bounded in Hvalid.
    apply andb_prop in Hvalid as [Hcanon _].
    unfold canonical_mantissa, fexp, SpecFloat.emin, prec, emax in Hcanon.
    apply Z.eqb_eq in Hcanon. lia.
  - unfold SFleb, SFcompare, SFabs, f_one in Hle.
    destruct (Z.compare_spec e (-52)); try lia; discriminate.
Qed.

(** The square of such a number is a zero or finite, and positive. *)
Lemma fmul_square_bounded (x : float64) :
  unit_bounded x ->
  fmul x x = f_zero \/ exists m e, fmul x x = S754_finite false m e.
Proof.
  intros Hx. destruct x as [s|s| |s m e].
  - left. destruct s; reflexivity.
  - destruct Hx as [_ H]. discriminate.
  - destruct Hx as [_ H]. discriminate.
  - apply unit_bounded_finite in Hx as [Hdig He].
    unfold fmul, SF64mul, SFmul. rewrite xorb_nilpotent.
    destruct (binary_round_aux_finite false (Zpos (m * m)) (e + e) loc_Exact 2)
      as [H|(m' & e' & H & _)]; try lia; eauto.
    pose proof (Zdigits2_log2 m) as Hm. simpl Zdigits2 in Hm.
    rewrite Zdigits2_log2, Pos2Z.inj_mul.
    pose proof (Z.log2_mul_above (Zpos m) (Zpos m)). lia.
Qed.

(** *** Degrees to radians *)

Lemma coordinate_finite (s : bool) (m : positive) (e : Z) :
  coordinate (S754_finite s m e) -> Zpos (digits2_pos m) <= 53 /\ e <= -45.
Proof.
  intros [Hvalid Hle]. split.
  - unfold valid_binary, SpecFloat.valid_binary, bounded in Hvalid.
    apply andb_prop in Hvalid as [Hcanon _].
    unfold canonical_mantissa, fexp, SpecFloat.emin, prec, emax in Hcanon.
    apply Z.eqb_eq in Hcanon. lia.
  - unfold SFleb, SFcompare, SFabs, f_180 in Hle.
    destruct (Z.compare_spec e (-45)); try lia; discriminate.
Qed.

Lemma Zdigits2_shiftl (p : positive) (n : Z) :
  0 <= n -> Zdigits2 (Z.shiftl (Zpos p) n) = Zdigits2 (Zpos p) + n.
Proof.
  intros Hn.
  assert (Hpos : 0 < Z.shiftl (Zpos p) n).
  { rewrite Z.shiftl_mul_pow2 by exact Hn.
    apply Z.mul_pos_pos; [lia|apply Z.pow_pos_nonneg; lia]. }
  destruct (Z.shiftl (Zpos p) n) as [|q|q] eqn:E; try lia.
  rewrite !Zdigits2_log2, <- E, Z.log2_shiftl by lia. lia.
Qed.

(** The quotient of a finite number of magnitude below 2^12 by 180 is zero
    or finite. *)
Lemma fdiv_180_finite (s : bool) (m : positive) (e : Z) :
  e <= 11 -> Zpos (digits2_pos m) + e <= 12 ->
  is_finite (fdiv (S754_finite s m e) f_180) = true.
Proof.
  intros He Hd. unfold fdiv, SF64div, SFdiv, f_180, SFdiv_core_binary.
  set (m2 := 6333186975989760%positive).
  set (d1 := Zdigits2 (Zpos m)).
  assert (Hd1 : d1 = Zpos (digits2_pos m)) by reflexivity.
  assert (Hd2 : Zdigits2 (Zpos m2) = 53) by reflexivity. rewrite Hd2.
  set (e' := Z.min (fexp prec emax (d1 + e - (53 + -45))) (e - -45)).
  set (sh := e - -45 - e').
  assert (Hsh : 0 <= sh) by (unfold sh, e'; lia).
  set (m' := match sh with
             | 0 => Zpos m
             | Zpos _ => Z.shiftl (Zpos m) sh
             | Zneg _ => 0
             end).
  assert (Hm' : 0 <= m' /\ Zdigits2 m' = d1 + sh).
  { unfold m'. destruct sh as [|p|p] eqn:Esh; try lia.
    rewrite Zdigits2_shiftl by lia. split; [|reflexivity].
    rewrite Z.shiftl_mul_pow2 by lia.
    apply Z.mul_nonneg_nonneg; [lia|apply Z.pow_nonneg; lia]. }
  destruct Hm' as [Hm'0 Hm'd].
  pose proof (Z.div_pos m' (Zpos m2) Hm'0 ltac:(lia)) as Hq0.
  assert (Hqle : m' / Zpos m2 <= m').
  { apply Z.div_le_upper_bound; [lia|]. nia. }
  unfold Z.div in Hq0, Hqle.
  destruct (Z.div_eucl m' (Zpos m2)) as [q r]. simpl in Hq0, Hqle.
  assert (Hqd : Zdigits2 q <= d1 + sh)
    by (rewrite <- Hm'd; apply Zdigits2_le; lia).
  destruct (binary_round_aux_finite (xorb s false) q e' (new_location (Zpos m2) r) 57)
    as [->|(mq & eq & -> & _)]; try reflexivity; try lia.
Qed.

Lemma radians_finite (x : float64) :
  coordinate x -> is_finite (fdiv (fmul x f_Pi) f_180) = true.
Proof.
  intros Hx. destruct x as [s|s| |s m e].
  - destruct s; reflexivity.
  - destruct Hx as [_ H]. discriminate.
  - destruct Hx as [_ H]. discriminate.
  - apply coordinate_finite in Hx as [Hdig He].
    unfold fmul, SF64mul, SFmul, f_Pi.
    set (mpi := 7074237752028440%positive).
    destruct (binary_round_aux_finite (xorb s false) (Zpos (m * mpi)) (e + -51) loc_Exact 11)
      as [->|(m' & e' & -> & He' & Hd')]; try lia.
    + pose proof (Zdigits2_log2 m) as Hm. simpl Zdigits2 in Hm.
      assert (Hpi : Z.log2 (Zpos mpi) = 52) by reflexivity.
      rewrite Zdigits2_log2, Pos2Z.inj_mul.
      pose proof (Z.log2_mul_above (Zpos m) (Zpos mpi)). lia.
    + destruct (xorb s false); reflexivity.
    + apply fdiv_180_finite; lia.
Qed.


(** *** The distance *)

Lemma feq_self (x : float64) : feq x x = negb (is_nan x).
Proof.
  unfold feq, SFeqb, SFcompare.
  destruct x as [[]|[]| |[] m e]; simpl; try reflexivity;
    rewrite Z.compare_refl; simpl;
    change (Pos.compare_cont Eq m m) with (Pos.compare m m);
    rewrite Pos.compare_refl; reflexivity.
Qed.

Lemma Sqrt_negative (x : float64) : flt x f_zero = true -> Sqrt x = S754_nan.
Proof.
  destruct x as [[]|[]| |[] m e]; simpl; try discriminate; reflexivity.
Qed.

Section HaversineClaims.
Context {libm : MathLib} {laws : GoMathLaws libm}.

(** The squared sine of half a difference does not change when the two
    numbers are exchanged. *)
Lemma half_sine_squared_swap (a b : float64) :
  Pow (Sin (fdiv (fsub b a) f_two)) f_two = Pow (Sin (fdiv (fsub a b) f_two)) f_two.
Proof.
  destruct (fsub_swap a b) as [-> | [-> ->]]; [|reflexivity].
  rewrite fdiv_neg, Sin_odd, Pow_two_even. reflexivity.
Qed.

Lemma cos_square_times_zero (x : float64) :
  is_finite x = true -> fmul (fmul (Cos x) (Cos x)) f_zero = f_zero.
Proof.
  intros Hx. destruct (fmul_square_bounded (Cos x) (Cos_bounded x Hx))
    as [-> | (m & e & ->)]; reflexivity.
Qed.

(** The two directions give the same float64, for all arguments. *)
Lemma HaversineDistance_swap (la1 lg1 la2 lg2 : float64) :
  HaversineDistance la1 lg1 la2 lg2 = HaversineDistance la2 lg2 la1 lg1.
Proof.
  unfold HaversineDistance.
  rewrite (half_sine_squared_swap (fdiv (fmul la1 f_Pi) f_180)).
  rewrite (half_sine_squared_swap (fdiv (fmul lg1 f_Pi) f_180)).
  rewrite (fmul_comm (Cos (fdiv (fmul la1 f_Pi) f_180))).
  reflexivity.
Qed.

(** From a point to itself the distance is [+0], for every latitude and
    longitude between -180 and 180. *)
Lemma HaversineDistance_self (la lg : float64) :
  coordinate la -> coordinate lg -> HaversineDistance la lg la lg = f_zero.
Proof.
  intros Hla Hlg. unfold HaversineDistance.
  rewrite !fsub_self by (apply radians_finite; assumption).
  change (fdiv f_zero f_two) with f_zero.
  rewrite Sin_zero, Pow_zero_two.
  rewrite cos_square_times_zero by (apply radians_finite; assumption).
  change (fadd f_zero f_zero) with f_zero.
  change (Sqrt f_zero) with f_zero.
  change (fsub f_one f_zero) with f_one.
  replace (Sqrt f_one) with f_one by (vm_compute; reflexivity).
  rewrite Atan2_zero_one. reflexivity.
Qed.

(** C7.  The claim holds of the code wherever the distance is a number, and
    fails where it is NaN.  The two directions give the same float64 for all
    arguments, so Go's [==] between them is true exactly when the result is
    not NaN.  It is NaN whenever the term [a] of the formula is above 1 (the
    square root of [1 - a] is then NaN, and [math.Atan2] of a NaN is NaN),
    which rounding brings about for points that are valid and opposite on
    the globe.  From a point to itself the distance is [+0], for every
    latitude and longitude between -180 and 180; and, a function of its four
    arguments, the distance is equal on equal arguments. *)
Theorem HaversineDistance_symmetric_unless_not_a_number (la1 lg1 la2 lg2 : float64) :
  HaversineDistance la1 lg1 la2 lg2 = HaversineDistance la2 lg2 la1 lg1 /\
  feq (HaversineDistance la1 lg1 la2 lg2) (HaversineDistance la2 lg2 la1 lg1)
  = negb (is_nan (HaversineDistance la1 lg1 la2 lg2)) /\
  ((forall y, Atan2 y S754_nan = S754_nan) ->
   flt (fsub f_one (haversine_a la1 lg1 la2 lg2)) f_zero = true ->
   HaversineDistance la1 lg1 la2 lg2 = S754_nan /\
   feq (HaversineDistance la1 lg1 la2 lg2) (HaversineDistance la2 lg2 la1 lg1) = false) /\
  (coordinate la1 -> coordinate lg1 -> HaversineDistance la1 lg1 la1 lg1 = f_zero) /\
  (forall a b c d, (a, b, c, d) = (la1, lg1, la2, lg2) ->
     HaversineDistance a b c d = HaversineDistance la1 lg1 la2 lg2).
Proof.
  split; [apply HaversineDistance_swap|].
  split; [rewrite (HaversineDistance_swap la2 lg2 la1 lg1); apply feq_self|].
  split; [|split].
  - intros Hnan Ha.
    assert (E : HaversineDistance la1 lg1 la2 lg2 = S754_nan).
    { change (HaversineDistance la1 lg1 la2 lg2)
        with (fmul (fmul f_two (Atan2 (Sqrt (haversine_a la1 lg1 la2 lg2))
                                      (Sqrt (fsub f_one (haversine_a la1 lg1 la2 lg2)))))
                   f_6371).
      rewrite (Sqrt_negative _ Ha), Hnan. reflexivity. }
    split; [exact E|]. rewrite (HaversineDistance_swap la2 lg2 la1 lg1), E. reflexivity.
  - apply HaversineDistance_self.
  - intros a b c d E. inversion E. reflexivity.
Qed.

End HaversineClaims.

Lemma fmul_neg_neg (x : float64) : fmul (fneg x) (fneg x) = fmul x x.
Proof.
  unfold fmul, SF64mul, fneg. destruct x as [[]|[]| |[] m e]; reflexivity.
Qed.

(** The small-angle stand-in keeps the laws. *)
Lemma small_angle_math_laws : GoMathLaws small_angle_math.
Proof.
  constructor; simpl; try reflexivity.
  - intros x. apply fmul_neg_neg.
  - intros x _. split; reflexivity.
Qed.

(** So does the second stand-in. *)
Lemma reference_math_laws : GoMathLaws reference_math.
Proof.
  constructor; simpl; try reflexivity.
  - intros x. destruct x as [[]|[]| |[] m e]; try reflexivity;
      cbn [is_finite negb SFabs fneg SFopp]; unfold with_sign_of;
      destruct (feq _ radians_51_3); try reflexivity;
      destruct (feq _ half_pi); reflexivity.
  - intros x. apply fmul_neg_neg.
  - intros x Hx. rewrite Hx. simpl.
    destruct (feq (SFabs x) radians_51_3); split; reflexivity.
Qed.

Lemma toronto_coordinates : coordinate toronto_lat /\ coordinate toronto_long.
Proof. repeat split; reflexivity. Qed.

(** The failing input: a point on the Greenwich meridian and the point
    opposite to it.  All four arguments are valid coordinates; the term [a]
    is the float64 next above 1, and the distance is NaN in both directions,
    which [==] does not take for equal. *)
Lemma HaversineDistance_symmetric_unless_not_a_number_witness :
  (coordinate meridian_lat /\ coordinate meridian_long /\
   coordinate opposite_lat /\ coordinate opposite_long) /\
  SF2Prim (@haversine_a reference_math meridian_lat meridian_long opposite_lat opposite_long)
  = 1.0000000000000002%float /\
  @HaversineDistance reference_math meridian_lat meridian_long opposite_lat opposite_long
  = S754_nan /\
  @HaversineDistance reference_math opposite_lat opposite_long meridian_lat meridian_long
  = S754_nan /\
  feq (@HaversineDistance reference_math meridian_lat meridian_long opposite_lat opposite_long)
      (@HaversineDistance reference_math opposite_lat opposite_long meridian_lat meridian_long)
  = false.
Proof.
  destruct (@HaversineDistance_symmetric_unless_not_a_number reference_math
              reference_math_laws meridian_lat meridian_long opposite_lat opposite_long)
    as (Hswap & _ & Hnan & _).
  destruct Hnan as [E Hne].
  - intros y. simpl. destruct (is_nan y); reflexivity.
  - vm_compute. reflexivity.
  - split; [repeat split; reflexivity|].
    split; [vm_compute; reflexivity|].
    split; [exact E|]. split; [rewrite <- Hswap; exact E|exact Hne].
Defined.

(** Where the distance is a number the two directions agree, and a point is
    at distance 0 from itself. *)
Example HaversineDistance_toronto_YYZ :
  SF2Prim (@HaversineDistance small_angle_math toronto_lat toronto_long
             (ap_Lat YYZ) (ap_Long YYZ)) = 25.119308021589163%float /\
  SF2Prim (@HaversineDistance small_angle_math (ap_Lat YYZ) (ap_Long YYZ)
             toronto_lat toronto_long) = 25.119308021589163%float /\
  @HaversineDistance small_angle_math toronto_lat toronto_long toronto_lat toronto_long
  = f_zero.
Proof.
  split; [vm_compute; reflexivity|]. split; [vm_compute; reflexivity|].
  apply (@HaversineDistance_self small_angle_math small_angle_math_laws);
    apply toronto_coordinates.
Qed.

(** * Further properties of the code *)

(** ** The bounds of the two reslicings *)

Lemma Min_three_large (x : float64) :
  (exists m e, x = S754_finite false m e /\ -49 <= e) \/ x = S754_infinity false ->
  Min x f_three = f_three.
Proof.
  intros [(m & e & -> & He)| ->]; [|reflexivity].
  unfold Min, flt, SFltb, SFcompare, f_three.
  destruct (e ?= -51) eqn:E; try reflexivity.
  - apply Z.compare_eq in E. lia.
  - change (e < -51) in E. lia.
Qed.

Lemma clamp_three_any (n : nat) : clamp n f_three = Z.of_nat (Nat.min n 3).
Proof.
  do 8 (destruct n as [|n]; [reflexivity|]).
  replace (Nat.min _ 3) with 3%nat by lia.
  unfold clamp.
  remember (S (S (S (S (S (S (S (S n)))))))) as k eqn:Hk.
  destruct (Z.of_nat k) as [|p|p] eqn:E; try lia.
  rewrite Min_three_large; [reflexivity|].
  apply of_int_large. lia.
Qed.

(** X1.  The bounds [int64(math.Min(float64(len(s)), 5))] and
    [int64(math.Min(float64(len(s)), 3))] of the two reslicings are the
    smaller of the length and 5, respectively 3, for every length: also for
    lengths that float64 does not represent and rounds.  So the bound is
    never negative and never beyond the length, and reslicing a slice whose
    length is within its capacity does not panic. *)
Theorem clamp_is_min_for_every_length (n : nat) :
  clamp n f_five = Z.of_nat (Nat.min n 5) /\
  clamp n f_three = Z.of_nat (Nat.min n 3) /\
  forall (s : slice) (h : heap),
    s_len s = n -> (s_len s <= s_cap s)%nat ->
    slice_to s (clamp n f_five) h
    = Returns (mkSlice (s_ptr s) (s_off s) (Nat.min n 5) (s_cap s), h) /\
    slice_to s (clamp n f_three) h
    = Returns (mkSlice (s_ptr s) (s_off s) (Nat.min n 3) (s_cap s), h).
Proof.
  split; [apply clamp_five|]. split; [apply clamp_three_any|].
  intros s h Hn Hcap. rewrite clamp_five, clamp_three_any. unfold slice_to.
  split.
  - replace ((0 <=? Z.of_nat (Nat.min n 5)) && (Z.of_nat (Nat.min n 5) <=? Z.of_nat (s_cap s)))
      with true by (symmetry; apply andb_true_iff; split; apply Z.leb_le; lia).
    rewrite Nat2Z.id. reflexivity.
  - replace ((0 <=? Z.of_nat (Nat.min n 3)) && (Z.of_nat (Nat.min n 3) <=? Z.of_nat (s_cap s)))
      with true by (symmetry; apply andb_true_iff; split; apply Z.leb_le; lia).
    rewrite Nat2Z.id. reflexivity.
Qed.

(** ** The order and the choice of the airports returned *)

Lemma StronglySorted_sublist {A} (R : A -> A -> Prop) (l1 l2 : list A) :
  l1 `sublist_of` l2 -> StronglySorted R l2 -> StronglySorted R l1.
Proof.
  induction 1 as [|x l1 l2 Hs IH|x l1 l2 Hs IH]; intros Hl2.
  - constructor.
  - apply StronglySorted_inv in Hl2 as [Hl2 Hx]. constructor; [auto|].
    rewrite Forall_forall in *. intros y Hy. apply Hx.
    eapply elem_of_sublist; eassumption.
  - apply StronglySorted_inv in Hl2 as [Hl2 _]. auto.
Qed.

(** A list sorted by [R1] in which the elements of every key are sorted by
    [R2] is sorted by [R1], then [R2] among equal keys. *)
Lemma StronglySorted_refine {A K} `{EqDecision K} (key : A -> K)
    (R1 R2 : A -> A -> Prop) (l : list A) :
  StronglySorted R1 l ->
  (forall k, StronglySorted R2 (filter (fun a => key a = k) l)) ->
  StronglySorted (fun a b => R1 a b /\ (key a = key b -> R2 a b)) l.
Proof.
  induction l as [|a l IH]; intros H1 H2; [constructor|].
  apply StronglySorted_inv in H1 as [H1 Ha].
  constructor.
  - apply IH; [assumption|]. intros k. specialize (H2 k).
    rewrite filter_cons in H2.
    destruct (decide (key a = k)); [apply StronglySorted_inv in H2 as [H2 _]|];
      assumption.
  - specialize (H2 (key a)). rewrite filter_cons in H2.
    destruct (decide (key a = key a)); [|congruence].
    apply StronglySorted_inv in H2 as [_ H2].
    rewrite Forall_forall in *. intros b Hb. split; [auto|].
    intros E. apply H2. apply list_elem_of_filter. split; [congruence|assumption].
Qed.

Lemma filter_none {A} (P : A -> Prop) `{forall a, Decision (P a)} (l : list A) :
  Forall (fun a => ~ P a) l -> filter P l = [].
Proof.
  induction 1 as [|a l Ha _ IH]; [reflexivity|].
  rewrite filter_cons. destruct (decide (P a)); [contradiction|assumption].
Qed.

Lemma length_filter_map {A B} (f : A -> B) (P : B -> Prop)
    `{forall b, Decision (P b)} (l : list A) :
  length (filter P (map f l)) = length (filter (fun a => P (f a)) l).
Proof.
  induction l as [|a l IH]; [reflexivity|].
  simpl map. rewrite !filter_cons.
  destruct (decide (P (f a))); simpl; rewrite IH; reflexivity.
Qed.

Section RankingOrder.
Context {libm : MathLib}.

Lemma measured_not_nan (lat lon : float64) (l : list Airport) :
  Forall (fun c => is_nan (HaversineDistance lat lon (ap_Lat c) (ap_Long c)) = false) l ->
  Forall (fun a => is_nan (ap_Distance a) = false) (map (with_distance lat lon) l).
Proof.
  intros H. apply Forall_fmap. eapply Forall_impl; [exact H|].
  intros c Hc. exact Hc.
Qed.

Lemma nearestAirports_refined (lat lon : float64) (l : list Airport) :
  Forall (fun c => is_nan (HaversineDistance lat lon (ap_Lat c) (ap_Long c)) = false) l ->
  StronglySorted
    (fun a b => by_type b a = false /\ (ap_Type a = ap_Type b -> by_distance b a = false))
    (nearestAirports lat lon l).
Proof.
  intros Hnan. unfold nearestAirports.
  set (s := stable_sort by_distance (map (with_distance lat lon) l)).
  assert (Hs : ascending by_distance s).
  { apply by_distance_stable. apply measured_not_nan. exact Hnan. }
  destruct (by_type_stable (take 5 s)) as (_ & Hasc & Hkeep).
  eapply StronglySorted_sublist; [apply sublist_take|].
  apply (StronglySorted_refine ap_Type); [exact Hasc|].
  intros k. rewrite (Hkeep k).
  eapply StronglySorted_sublist; [apply sublist_filter|].
  eapply StronglySorted_sublist; [apply sublist_take|exact Hs].
Qed.

Lemma nearestAirports_among_five (lat lon : float64) (l : list Airport) (r : Airport) :
  Forall (fun c => is_nan (HaversineDistance lat lon (ap_Lat c) (ap_Long c)) = false) l ->
  r ∈ nearestAirports lat lon l ->
  (length (filter (fun c => flt (HaversineDistance lat lon (ap_Lat c) (ap_Long c))
                                (ap_Distance r) = true) l) < 5)%nat.
Proof.
  intros Hnan Hr. unfold nearestAirports in Hr.
  set (measured := map (with_distance lat lon) l) in *.
  set (s := stable_sort by_distance measured) in *.
  assert (Hs : ascending by_distance s).
  { apply by_distance_stable. apply measured_not_nan. exact Hnan. }
  apply elem_of_take in Hr as (i & Hr & _). apply list_elem_of_lookup_2 in Hr.
  rewrite stable_sort_perm in Hr.
  assert (Hlen : length (filter (fun a => by_distance a r = true) s)
                 = length (filter (fun c => flt (HaversineDistance lat lon (ap_Lat c) (ap_Long c))
                                                (ap_Distance r) = true) l)).
  { transitivity (length (filter (fun a => by_distance a r = true) measured)).
    - apply Permutation_length. apply filter_Permutation. apply stable_sort_perm.
    - unfold measured. rewrite length_filter_map. reflexivity. }
  rewrite <- Hlen. rewrite <- (take_drop 5 s) in Hs |- * at 1.
  unfold ascending in Hs. apply StronglySorted_app_iff in Hs as (_ & _ & Hcross).
  rewrite filter_app, (filter_none _ (drop 5 s)), app_nil_r.
  - eapply Nat.lt_le_trans.
    + apply (length_filter_lt _ _ r); [exact Hr|].
      unfold by_distance. rewrite flt_irrefl. discriminate.
    + apply firstn_le_length.
  - rewrite Forall_forall. intros d Hd. rewrite (Hcross r d).
    + discriminate.
    + apply list_elem_of_In. exact Hr.
    + apply list_elem_of_In. exact Hd.
Qed.


End RankingOrder.

Section FindClosestAirportOrder.
Context {libm : MathLib} {rt : GoRuntime}.

(** X2.  The airports returned are in ascending order of their type string,
    and airports of the same type are in ascending order of distance
    (nearest first), whenever no distance is NaN. *)
Theorem FindClosestAirport_by_type_then_by_distance
    (lat long : float64) (airports : slice) (h : heap) :
  valid_slice h airports ->
  Forall (fun c => is_nan (HaversineDistance lat long (ap_Lat c) (ap_Long c)) = false)
         (view h airports) ->
  exists res h',
    FindClosestAirport lat long airports h = Returns (res, h') /\
    StronglySorted
      (fun a b => String.ltb (ap_Type b) (ap_Type a) = false /\
                  (ap_Type a = ap_Type b ->
                   flt (ap_Distance b) (ap_Distance a) = false))
      (view h' res).
Proof.
  intros Hvalid Hnan.
  destruct (FindClosestAirport_returns lat long airports h Hvalid)
    as (res & h' & E & V & _ & _).
  exists res, h'. split; [exact E|]. rewrite V.
  apply nearestAirports_refined. exact Hnan.
Qed.

(** X3.  Every airport returned is one of the five nearest candidates: fewer
    than five candidates are strictly nearer than it (whenever no distance is
    NaN).  The nearest candidate itself may be missing from the result. *)
Theorem FindClosestAirport_among_five_nearest
    (lat long : float64) (airports : slice) (h : heap) :
  valid_slice h airports ->
  Forall (fun c => is_nan (HaversineDistance lat long (ap_Lat c) (ap_Long c)) = false)
         (view h airports) ->
  exists res h',
    FindClosestAirport lat long airports h = Returns (res, h') /\
    forall r, r ∈ view h' res ->
      (length (filter (fun c => flt (HaversineDistance lat long (ap_Lat c) (ap_Long c))
                                    (ap_Distance r) = true)
                      (view h airports)) < 5)%nat.
Proof.
  intros Hvalid Hnan.
  destruct (FindClosestAirport_returns lat long airports h Hvalid)
    as (res & h' & E & V & _ & _).
  exists res, h'. split; [exact E|]. rewrite V.
  intros r Hr. apply nearestAirports_among_five; assumption.
Qed.


End FindClosestAirportOrder.

(** ** The order of the candidates only breaks ties *)

Lemma flt_true_not_nan (a b : float64) :
  flt a b = true -> is_nan a = false /\ is_nan b = false.
Proof.
  destruct a, b; simpl; try discriminate; auto.
Qed.

Lemma filter_only {A} (P : A -> Prop) `{forall a, Decision (P a)} (l : list A) (x : A) :
  NoDup l -> x ∈ l -> P x -> (forall y, y ∈ l -> P y -> y = x) ->
  filter P l = [x].
Proof.
  induction l as [|a l IH]; intros Hnd Hx HPx Honly.
  - apply elem_of_nil in Hx. contradiction.
  - apply NoDup_cons in Hnd as [Ha Hnd]. rewrite filter_cons.
    apply elem_of_cons in Hx as [->|Hx].
    + rewrite decide_True by exact HPx. f_equal.
      apply filter_none. rewrite Forall_forall. intros y Hy HPy.
      apply Ha. rewrite <- (Honly y) by (try right; assumption). exact Hy.
    + destruct (decide (P a)) as [HPa|_].
      * exfalso. apply Ha. rewrite (Honly a) by (try left; assumption). exact Hx.
      * apply IH; try assumption. intros y Hy. apply Honly. right. exact Hy.
Qed.

Section RankingPermutation.
Context {libm : MathLib}.

(** Candidates of which no two are at the same distance have distinct
    measured records, none with a NaN distance when there are two at least,
    and any two of them are ordered by distance. *)
Lemma distinct_distances (lat lon : float64) (l : list Airport) :
  (forall i j a b, l !! i = Some a -> l !! j = Some b -> i <> j ->
     flt (HaversineDistance lat lon (ap_Lat a) (ap_Long a))
         (HaversineDistance lat lon (ap_Lat b) (ap_Long b)) = true \/
     flt (HaversineDistance lat lon (ap_Lat b) (ap_Long b))
         (HaversineDistance lat lon (ap_Lat a) (ap_Long a)) = true) ->
  NoDup (map (with_distance lat lon) l) /\
  (forall x y, x ∈ map (with_distance lat lon) l -> y ∈ map (with_distance lat lon) l ->
     by_distance x y = false -> by_distance y x = false -> x = y) /\
  ((2 <= length l)%nat ->
   Forall (fun a => is_nan (ap_Distance a) = false) (map (with_distance lat lon) l)).
Proof.
  intros Hd.
  assert (Hpair : forall i j x y,
            map (with_distance lat lon) l !! i = Some x ->
            map (with_distance lat lon) l !! j = Some y -> i <> j ->
            by_distance x y = true \/ by_distance y x = true).
  { intros i j x y Hi Hj Hij.
    apply list_lookup_fmap_Some in Hi as (a & -> & Ha).
    apply list_lookup_fmap_Some in Hj as (b & -> & Hb).
    exact (Hd i j a b Ha Hb Hij). }
  split; [|split].
  - apply NoDup_alt. intros i j x Hi Hj.
    destruct (decide (i = j)) as [|Hij]; [assumption|].
    destruct (Hpair i j x x Hi Hj Hij) as [H|H];
      unfold by_distance in H; rewrite flt_irrefl in H; discriminate.
  - intros x y Hx Hy Hxy Hyx.
    apply list_elem_of_lookup in Hx as [i Hi]. apply list_elem_of_lookup in Hy as [j Hj].
    destruct (decide (i = j)) as [->|Hij]; [congruence|].
    destruct (Hpair i j x y Hi Hj Hij); congruence.
  - intros Hlen. rewrite Forall_forall. intros x Hx.
    apply list_elem_of_lookup in Hx as [i Hi].
    assert (Hj : exists j y, map (with_distance lat lon) l !! j = Some y /\ i <> j).
    { destruct (decide (i = 0%nat)) as [->|Hi0].
      - destruct (lookup_lt_is_Some_2 (map (with_distance lat lon) l) 1) as [y Hy];
          [rewrite length_map; lia|]. exists 1%nat, y. split; [exact Hy|lia].
      - destruct (lookup_lt_is_Some_2 (map (with_distance lat lon) l) 0) as [y Hy];
          [rewrite length_map; lia|]. exists 0%nat, y. split; [exact Hy|exact Hi0]. }
    destruct Hj as (j & y & Hj & Hij).
    destruct (Hpair i j x y Hi Hj Hij) as [H|H];
      apply flt_true_not_nan in H; apply H.
Qed.

Lemma nearestAirports_permutation (lat lon : float64) (l1 l2 : list Airport) :
  l2 ≡ₚ l1 ->
  (forall i j a b, l1 !! i = Some a -> l1 !! j = Some b -> i <> j ->
     flt (HaversineDistance lat lon (ap_Lat a) (ap_Long a))
         (HaversineDistance lat lon (ap_Lat b) (ap_Long b)) = true \/
     flt (HaversineDistance lat lon (ap_Lat b) (ap_Long b))
         (HaversineDistance lat lon (ap_Lat a) (ap_Long a)) = true) ->
  nearestAirports lat lon l2 = nearestAirports lat lon l1.
Proof.
  intros Hperm Hd.
  destruct (le_lt_dec 2 (length l1)) as [Hlen|Hlen].
  2:{ destruct l1 as [|a [|b l1]]; simpl in Hlen; try lia.
      - apply Permutation_nil_r in Hperm. subst. reflexivity.
      - apply Permutation_singleton_r in Hperm. subst. reflexivity. }
  destruct (distinct_distances lat lon l1 Hd) as (Hnd & Hcmp & Hnan).
  specialize (Hnan Hlen).
  set (m1 := map (with_distance lat lon) l1) in *.
  set (m2 := map (with_distance lat lon) l2).
  assert (Hm : m2 ≡ₚ m1) by (unfold m1, m2; rewrite Hperm; reflexivity).
  assert (Hsort : stable_sort by_distance m2 = stable_sort by_distance m1).
  { apply by_distance_sort_unique.
    - exact Hnan.
    - rewrite stable_sort_perm. exact Hm.
    - apply by_distance_stable. rewrite Hm. exact Hnan.
    - intros x Hx. apply list_elem_of_In in Hx.
      assert (Hclass : forall l, l ≡ₚ m1 ->
                filter (incomparable by_distance x) l = [x]).
      { intros l Hl. apply filter_only.
        - rewrite Hl. exact Hnd.
        - rewrite Hl. exact Hx.
        - split; unfold by_distance; apply flt_irrefl.
        - intros y Hy [Hxy Hyx]. rewrite Hl in Hy.
          symmetry. apply (Hcmp x y Hx Hy Hxy Hyx). }
      rewrite (Hclass m1) by reflexivity.
      apply Hclass. rewrite stable_sort_perm. exact Hm. }
  unfold nearestAirports. fold m1 m2. rewrite Hsort. reflexivity.
Qed.

End RankingPermutation.

Section FindClosestAirportPermutation.
Context {libm : MathLib} {rt : GoRuntime}.

(** X17.  The order in which the candidates are given only breaks ties: when
    no two candidates are at the same distance from the place, any
    rearrangement of the candidates (in any store) gives the same airports in
    the same order. *)
Theorem FindClosestAirport_candidate_order_breaks_ties_only
    (lat long : float64) (airports1 airports2 : slice) (h1 h2 : heap) :
  valid_slice h1 airports1 ->
  valid_slice h2 airports2 ->
  view h2 airports2 ≡ₚ view h1 airports1 ->
  (forall i j a b,
     view h1 airports1 !! i = Some a -> view h1 airports1 !! j = Some b -> i <> j ->
     flt (HaversineDistance lat long (ap_Lat a) (ap_Long a))
         (HaversineDistance lat long (ap_Lat b) (ap_Long b)) = true \/
     flt (HaversineDistance lat long (ap_Lat b) (ap_Long b))
         (HaversineDistance lat long (ap_Lat a) (ap_Long a)) = true) ->
  exists res1 h1' res2 h2',
    FindClosestAirport lat long airports1 h1 = Returns (res1, h1') /\
    FindClosestAirport lat long airports2 h2 = Returns (res2, h2') /\
    view h2' res2 = view h1' res1.
Proof.
  intros Hv1 Hv2 Hperm Hd.
  destruct (FindClosestAirport_returns lat long airports1 h1 Hv1)
    as (res1 & h1' & E1 & V1 & _ & _).
  destruct (FindClosestAirport_returns lat long airports2 h2 Hv2)
    as (res2 & h2' & E2 & V2 & _ & _).
  exists res1, h1', res2, h2'. split; [exact E1|]. split; [exact E2|].
  rewrite V1, V2. apply nearestAirports_permutation; assumption.
Qed.

End FindClosestAirportPermutation.

(** ** Ranking a result again *)

Lemma filter_filter_comm {A} (P Q : A -> Prop)
    `{forall a, Decision (P a)} `{forall a, Decision (Q a)} (l : list A) :
  filter P (filter Q l) = filter Q (filter P l).
Proof.
  induction l as [|a l IH]; [reflexivity|].
  rewrite !filter_cons.
  destruct (decide (Q a)) as [q|q], (decide (P a)) as [p|p]; rewrite ?filter_cons.
  - rewrite (decide_True _ _ p), (decide_True _ _ q), IH. reflexivity.
  - rewrite (decide_False _ _ p), IH. reflexivity.
  - rewrite (decide_False _ _ q), IH. reflexivity.
  - exact IH.
Qed.

Lemma StronglySorted_weaken {A} (R R' : A -> A -> Prop) (l : list A) :
  (forall a b, R a b -> R' a b) -> StronglySorted R l -> StronglySorted R' l.
Proof.
  intros HR. induction 1 as [|a l _ IH Ha]; constructor; [exact IH|].
  eapply Forall_impl; [exact Ha|]. intros b. apply HR.
Qed.

Lemma Forall_sublist_of {A} (P : A -> Prop) (l1 l2 : list A) :
  l1 `sublist_of` l2 -> Forall P l2 -> Forall P l1.
Proof.
  intros Hs Hl. rewrite Forall_forall in *. intros x Hx. apply Hl.
  eapply elem_of_sublist; eassumption.
Qed.

(** Sorting by distance leaves a class of elements alone that is in
    ascending order of distance already. *)
Lemma by_distance_sort_keeps_sorted (P : Airport -> Prop) `{forall a, Decision (P a)}
    (l : list Airport) :
  Forall (fun a => is_nan (ap_Distance a) = false) l ->
  ascending by_distance (filter P l) ->
  filter P (stable_sort by_distance l) = filter P l.
Proof.
  intros Hnan Hasc.
  assert (Hsorted : ascending by_distance (stable_sort by_distance l))
    by (apply by_distance_stable; exact Hnan).
  assert (Hasym : forall a b : Airport,
            is_nan (ap_Distance a) = false -> is_nan (ap_Distance b) = false ->
            by_distance a b = true -> by_distance b a = false)
    by (intros a b _ _; apply flt_asym).
  apply (ascending_unique by_distance (fun a => is_nan (ap_Distance a) = false) Hasym).
  - eapply Forall_sublist_of; [apply sublist_filter|].
    rewrite stable_sort_perm. exact Hnan.
  - apply filter_Permutation. apply stable_sort_perm.
  - eapply StronglySorted_sublist; [apply sublist_filter|exact Hsorted].
  - exact Hasc.
  - intros x Hx.
    assert (Hxn : is_nan (ap_Distance x) = false).
    { apply list_elem_of_In, list_elem_of_filter in Hx as [_ Hx].
      rewrite stable_sort_perm in Hx. rewrite Forall_forall in Hnan. apply Hnan. exact Hx. }
    rewrite !(filter_filter_comm (incomparable by_distance x) P). f_equal.
    apply stable_sort_filter.
    intros a b Ha Hb [Hxa Hax] [Hxb Hbx].
    apply list_elem_of_In in Ha, Hb. rewrite Forall_forall in Hnan.
    unfold by_distance in *.
    apply (flt_ge_trans (ap_Distance b) (ap_Distance x) (ap_Distance a));
      auto.
Qed.

Lemma by_type_incomparable (x a : Airport) :
  incomparable by_type x a <-> ap_Type a = ap_Type x.
Proof.
  unfold incomparable, by_type. split.
  - intros [Hxa Hax]. unfold String.ltb in *.
    destruct (String.compare (ap_Type x) (ap_Type a)) eqn:E.
    + apply String.compare_eq_iff in E. congruence.
    + discriminate.
    + rewrite String.compare_antisym, E in Hax. discriminate.
  - intros ->. split; apply string_ltb_irrefl.
Qed.

Section RankingAgain.
Context {libm : MathLib}.

Lemma with_distance_again (lat lon : float64) (c : Airport) :
  with_distance lat lon (with_distance lat lon c) = with_distance lat lon c.
Proof. reflexivity. Qed.

Lemma nearestAirports_again (lat lon : float64) (l : list Airport) :
  Forall (fun c => is_nan (HaversineDistance lat lon (ap_Lat c) (ap_Long c)) = false) l ->
  nearestAirports lat lon (nearestAirports lat lon l) = nearestAirports lat lon l.
Proof.
  intros Hnan.
  set (r := nearestAirports lat lon l).
  assert (Hdrawn : forall x, x ∈ r -> exists c, c ∈ l /\ x = with_distance lat lon c)
    by (intros x; apply nearestAirports_drawn).
  assert (Hmap : map (with_distance lat lon) r = r).
  { rewrite <- (list_fmap_id r) at 2. apply list_fmap_ext.
    intros i x Hx. apply list_elem_of_lookup_2, Hdrawn in Hx as (c & _ & ->).
    apply with_distance_again. }
  assert (Hrn : Forall (fun a => is_nan (ap_Distance a) = false) r).
  { rewrite Forall_forall. intros x Hx. destruct (Hdrawn x Hx) as (c & Hc & ->).
    rewrite Forall_forall in Hnan. apply (Hnan c Hc). }
  pose proof (nearestAirports_length lat lon l) as Hlen. fold r in Hlen.
  pose proof (nearestAirports_refined lat lon l Hnan) as Hsorted. fold r in Hsorted.
  unfold nearestAirports at 1. fold r. rewrite Hmap.
  rewrite (take_ge (stable_sort by_distance r)) by (rewrite stable_sort_length; lia).
  rewrite take_ge by (rewrite !stable_sort_length; lia).
  symmetry. apply by_type_sort_unique.
  - symmetry. apply stable_sort_perm.
  - unfold ascending. eapply StronglySorted_weaken; [|exact Hsorted].
    intros a b [Hab _]. exact Hab.
  - intros x _. symmetry. apply by_distance_sort_keeps_sorted; [exact Hrn|].
    unfold ascending.
    assert (Hcls : StronglySorted
              (fun a b => by_type b a = false /\
                          (ap_Type a = ap_Type b -> by_distance b a = false))
              (filter (incomparable by_type x) r))
      by (eapply StronglySorted_sublist; [apply sublist_filter|exact Hsorted]).
    assert (Hin : Forall (incomparable by_type x) (filter (incomparable by_type x) r)).
    { rewrite Forall_forall. intros a Ha.
      apply list_elem_of_filter in Ha as [Ha _]. exact Ha. }
    induction Hcls as [|a k Hk IH Ha]; [constructor|].
    apply Forall_cons in Hin as [Hpa Hin].
    constructor; [apply IH; exact Hin|].
    rewrite Forall_forall in *. intros b Hb.
    apply (Ha b Hb). apply by_type_incomparable in Hpa.
    specialize (Hin b Hb). apply by_type_incomparable in Hin. congruence.
Qed.

End RankingAgain.

Section FindClosestAirportAgain.
Context {libm : MathLib} {rt : GoRuntime}.

(** X19.  Ranking a result again changes nothing: when no distance is NaN,
    [FindClosestAirport] called for the same place on the slice it returned
    returns the same airports in the same order. *)
Theorem FindClosestAirport_of_its_result
    (lat long : float64) (airports : slice) (h : heap) :
  valid_slice h airports ->
  Forall (fun c => is_nan (HaversineDistance lat long (ap_Lat c) (ap_Long c)) = false)
         (view h airports) ->
  exists res h' res2 h2,
    FindClosestAirport lat long airports h = Returns (res, h') /\
    FindClosestAirport lat long res h' = Returns (res2, h2) /\
    view h2 res2 = view h' res.
Proof.
  intros Hvalid Hnan.
  destruct (FindClosestAirport_returns lat long airports h Hvalid)
    as (res & h' & E & V & Hv' & _).
  destruct (FindClosestAirport_returns lat long res h' Hv')
    as (res2 & h2 & E2 & V2 & _ & _).
  exists res, h', res2, h2. split; [exact E|]. split; [exact E2|].
  rewrite V2, V. apply nearestAirports_again. exact Hnan.
Qed.

End FindClosestAirportAgain.

(** ** Decoding the documents of the hits *)

Lemma byte_value_range (c : ascii) : 0 <= byte_value c < 256.
Proof.
  unfold byte_value. pose proof (N_ascii_bounded c). lia.
Qed.

Lemma be_value_Some (n : nat) :
  forall (acc : Z) (b : string),
  (n <= String.length b)%nat -> exists u, be_value acc n b = Some u.
Proof.
  induction n as [|n IH]; intros acc b Hb; simpl.
  - eauto.
  - destruct b as [|c b]; simpl in Hb; [lia|]. apply IH. lia.
Qed.

Lemma be_value_None (n : nat) :
  forall (acc : Z) (b : string),
  (String.length b < n)%nat -> be_value acc n b = None.
Proof.
  induction n as [|n IH]; intros acc b Hb; simpl.
  - lia.
  - destruct b as [|c b]; simpl in Hb; [reflexivity|]. apply IH. lia.
Qed.

Lemma be_value_range (n : nat) :
  forall (acc : Z) (b : string) (u : Z),
  be_value acc n b = Some u ->
  acc * 256 ^ Z.of_nat n <= u < (acc + 1) * 256 ^ Z.of_nat n.
Proof.
  induction n as [|n IH]; intros acc b u E; simpl in E.
  - inversion E; subst. simpl. lia.
  - destruct b as [|c b]; [discriminate|].
    apply IH in E. pose proof (byte_value_range c).
    rewrite Nat2Z.inj_succ, Z.pow_succ_r by lia.
    assert (0 < 256 ^ Z.of_nat n) by (apply Z.pow_pos_nonneg; lia).
    nia.
Qed.

Lemma be_value_prefix (n : nat) :
  forall (acc : Z) (b extra : string) (u : Z),
  be_value acc n b = Some u -> be_value acc n (b ++ extra) = Some u.
Proof.
  induction n as [|n IH]; intros acc b extra u E; simpl in *.
  - exact E.
  - destruct b as [|c b]; [discriminate|]. simpl. apply IH. exact E.
Qed.

Lemma int64_of_uint64_range (u : Z) :
  0 <= u < 2 ^ 64 -> int64_min <= int64_of_uint64 u <= int64_max.
Proof.
  intros Hu. unfold int64_of_uint64, int64_min, int64_max.
  destruct (u <? 2 ^ 63) eqn:E.
  - apply Z.ltb_lt in E. lia.
  - apply Z.ltb_ge in E. lia.
Qed.

Lemma BigEndian_Uint64_returns (b : string) :
  (exists u, BigEndian_Uint64 b = Returns u) <-> (8 <= String.length b)%nat.
Proof.
  unfold BigEndian_Uint64. split.
  - intros [u E]. destruct (le_lt_dec 8 (String.length b)) as [|Hlt]; [assumption|].
    rewrite (be_value_None 8 0 b Hlt) in E. discriminate.
  - intros Hb. destruct (be_value_Some 8 0 b Hb) as [u ->]. eauto.
Qed.

Lemma document_City_short (fields : list string) :
  (length fields < 8)%nat -> exists msg, document_City (Some fields) = Panics msg.
Proof.
  intros H.
  destruct fields as [|f0 [|f1 [|f2 [|f3 [|f4 [|f5 [|f6 [|f7 rest]]]]]]]];
    simpl in H; try lia; unfold document_City; simpl; eauto.
  all: unfold mbind, outcome_bind; destruct (BigEndian_Uint64 f5); eauto.
Qed.

(** X5.  A document decodes into a record exactly when it exists, has at
    least eight fields, and its sixth field has at least eight bytes;
    otherwise the conversion panics.  The record takes the fields in the order
    of the document, further fields are ignored, and the population is the
    int64 spelled by the first eight bytes of the sixth field: bytes after
    them do not change it. *)
Theorem document_City_decodes (raw : option (list string)) :
  ((exists c, document_City raw = Returns c) <->
   exists fields f5,
     raw = Some fields /\ (8 <= length fields)%nat /\
     fields !! 5%nat = Some f5 /\ (8 <= String.length f5)%nat) /\
  (forall c, document_City raw = Returns c ->
     int64_min <= city_Population c <= int64_max /\
     exists fields,
       raw = Some fields /\
       take 5 fields = [city_ID c; city_Name c; city_ASCIIName c; city_CountryID c;
                        city_Timezone c] /\
       take 2 (drop 6 fields) = [city_Latitude c; city_Longitude c]) /\
  (forall c fields f5 extra,
     document_City raw = Returns c -> raw = Some fields -> fields !! 5%nat = Some f5 ->
     exists c',
       document_City (Some (<[5%nat := (f5 ++ extra)%string]> fields)) = Returns c' /\
       city_Population c' = city_Population c).
Proof.
  destruct raw as [fields|].
  2:{ split; [|split].
      - split; [intros [c E]; discriminate|intros (? & ? & ? & _); discriminate].
      - intros c E. discriminate.
      - intros c fields f5 extra E. discriminate. }
  destruct (le_lt_dec 8 (length fields)) as [Hlen|Hlen].
  2:{ destruct (document_City_short fields Hlen) as [msg Hmsg]. rewrite Hmsg.
      split; [|split].
      - split; [intros [c E]; discriminate|].
        intros (? & ? & E & Hlen' & _). inversion E; subst. lia.
      - intros c E. discriminate.
      - intros c ? ? ? E. discriminate. }
  destruct fields as [|f0 [|f1 [|f2 [|f3 [|f4 [|f5 [|f6 [|f7 rest]]]]]]]];
    simpl in Hlen; try lia.
  unfold document_City. simpl. unfold mbind, outcome_bind.
  split; [|split].
  - split.
    + intros [c E]. exists (f0 :: f1 :: f2 :: f3 :: f4 :: f5 :: f6 :: f7 :: rest), f5.
      split; [reflexivity|]. split; [simpl; lia|]. split; [reflexivity|].
      apply BigEndian_Uint64_returns.
      destruct (BigEndian_Uint64 f5) as [u|]; [eauto|discriminate].
    + intros (fields & g5 & E & _ & E5 & Hlen5). inversion E; subst fields.
      simpl in E5. inversion E5; subst g5.
      apply BigEndian_Uint64_returns in Hlen5 as [u ->]. eauto.
  - intros c E. unfold BigEndian_Uint64 in E.
    destruct (be_value 0 8 f5) as [u|] eqn:Eu; [|discriminate].
    inversion E; subst c. simpl.
    split.
    + apply int64_of_uint64_range. apply be_value_range in Eu.
      change (256 ^ Z.of_nat 8) with (2 ^ 64) in Eu. lia.
    + eexists. split; [reflexivity|]. split; reflexivity.
  - intros c fields g5 extra E Ef E5. inversion Ef; subst fields.
    simpl in E5. inversion E5; subst g5. simpl.
    unfold BigEndian_Uint64 in *.
    destruct (be_value 0 8 f5) as [u|] eqn:Eu; [|discriminate].
    rewrite (be_value_prefix 8 0 f5 extra u Eu).
    inversion E; subst c. eexists. split; reflexivity.
Qed.

(** ** searchCity and performSearch when something fails *)

Lemma mapO_Panics {A B} (f : A -> outcome B) (l : list A) :
  Exists (fun a => exists msg, f a = Panics msg) l ->
  exists msg, mapO f l = Panics msg.
Proof.
  induction 1 as [a l [msg Ha]|a l _ [msg IH]]; simpl; unfold mbind, outcome_bind.
  - rewrite Ha. eauto.
  - destruct (f a); [rewrite IH|]; eauto.
Qed.

Lemma mapO_outcome {A B} (f : A -> outcome B) (l : list A) :
  (exists bs, mapO f l = Returns bs) <-> Forall (fun a => exists b, f a = Returns b) l.
Proof.
  split; [|apply mapO_total].
  intros [bs E]. apply mapO_Returns in E.
  induction E as [|a b l bs Ha _ IH]; constructor; eauto.
Qed.

(** X6.  [searchCity] decodes the document of every hit before it takes the
    first: with hits, it returns exactly when the documents of all hits
    decode.  One hit whose document is missing or too short makes the lookup
    panic, also when the first hit is sound; the record returned is then that
    of the first hit alone. *)
Theorem searchCity_decodes_every_hit
    (searchTerm : string) (index : bleveIndex) (hit : string) (hits : list string) :
  ix_Search index (city_request searchTerm) = inl (hit :: hits) ->
  ((exists r, searchCity searchTerm index = Returns r) <->
   Forall (fun id => exists c, document_City (ix_Document index id) = Returns c)
          (hit :: hits)) /\
  ((exists msg, searchCity searchTerm index = Panics msg) <->
   Exists (fun id => exists msg, document_City (ix_Document index id) = Panics msg)
          (hit :: hits)) /\
  (forall r, searchCity searchTerm index = Returns r ->
     document_City (ix_Document index hit) = Returns (fst r) /\ snd r = None).
Proof.
  intros Hs.
  assert (E : searchCity searchTerm index
              = match mapO (fun id => document_City (ix_Document index id)) (hit :: hits) with
                | Returns (result :: _) => Returns (result, None)
                | Returns [] => Panics "index out of range"
                | Panics msg => Panics msg
                end).
  { unfold searchCity. rewrite Hs. reflexivity. }
  rewrite E. clear E.
  destruct (mapO (fun id => document_City (ix_Document index id)) (hit :: hits))
    as [results|msg] eqn:Em.
  - pose proof Em as Hall. apply mapO_Returns in Hall.
    inversion Hall as [|? first ? others Hfirst Hrest]; subst.
    split; [|split].
    + split; [intros _|eauto].
      apply mapO_outcome. eauto.
    + split; [intros [msg ?]; discriminate|].
      intros Hex. apply mapO_Panics in Hex as [msg Hmsg]. congruence.
    + intros r Hr. inversion Hr; subst. split; [exact Hfirst|reflexivity].
  - split; [|split].
    + split; [intros [r ?]; discriminate|].
      intros Hall. apply mapO_outcome in Hall as [bs Hbs]. congruence.
    + split; [intros _|eauto].
      apply Exists_exists.
      assert (Hnot : ~ Forall (fun id => exists c, document_City (ix_Document index id) = Returns c)
                       (hit :: hits)).
      { intros Hall. apply mapO_outcome in Hall as [bs Hbs]. congruence. }
      apply not_Forall_Exists in Hnot; [|intros id;
        destruct (document_City (ix_Document index id)); [left; eauto|right; intros [? ?]; discriminate]].
      apply Exists_exists in Hnot as (id & Hid & Hno). exists id. split; [exact Hid|].
      destruct (document_City (ix_Document index id)) as [c|m] eqn:Ed; [|eauto].
      exfalso. apply Hno. exists c. exact Ed.
    + intros r Hr. discriminate.
Qed.

(** X7.  [performSearch] discards the error [searchCity] returns but not its
    panic: for every schedule the batch panics exactly when [searchCity]
    panics for one of the terms (the index does not answer, or a document
    does not decode), and otherwise it returns. *)
Theorem performSearch_panics_iff
    (sched : list nat) (cities : list string) (cityIndex : bleveIndex) :
  ((exists msg, performSearch sched cities cityIndex = Panics msg) <->
   Exists (fun term => exists msg, searchCity term cityIndex = Panics msg) cities) /\
  ((exists results, performSearch sched cities cityIndex = Returns results) <->
   Forall (fun term => exists r, searchCity term cityIndex = Returns r) cities).
Proof.
  unfold performSearch.
  set (f := fun item => r ← searchCity item cityIndex; Returns (fst r)).
  assert (Hret : forall term, (exists c, f term = Returns c)
                              <-> exists r, searchCity term cityIndex = Returns r).
  { intros term. unfold f, mbind, outcome_bind.
    destruct (searchCity term cityIndex) as [r|msg].
    - split; eauto.
    - split; intros [? ?]; discriminate. }
  assert (Hpan : forall term, (exists msg, f term = Panics msg)
                              <-> exists msg, searchCity term cityIndex = Panics msg).
  { intros term. unfold f, mbind, outcome_bind.
    destruct (searchCity term cityIndex) as [r|msg].
    - split; intros [? ?]; discriminate.
    - split; eauto. }
  unfold mbind, outcome_bind.
  destruct (mapO f cities) as [sent|msg] eqn:Em.
  - assert (Hall : Forall (fun term => exists r, searchCity term cityIndex = Returns r) cities).
    { eapply Forall_impl; [apply (mapO_outcome f); eauto|]. intros term. apply Hret. }
    split.
    + split; [intros [? ?]; discriminate|].
      intros Hex. apply Exists_exists in Hex as (term & Hin & msg & Hmsg).
      rewrite Forall_forall in Hall. destruct (Hall term Hin) as [r Hr]. congruence.
    + split; [intros _; exact Hall|eauto].
  - assert (Hex : Exists (fun term => exists msg, searchCity term cityIndex = Panics msg) cities).
    { assert (Hnot : ~ Forall (fun term => exists b, f term = Returns b) cities).
      { intros Hall. apply mapO_outcome in Hall as [bs Hbs]. congruence. }
      apply not_Forall_Exists in Hnot;
        [|intros term; destruct (f term); [left; eauto|right; intros [? ?]; discriminate]].
      eapply Exists_impl; [exact Hnot|]. intros term Hno. apply Hpan.
      destruct (f term) as [c|m] eqn:Ed; [|eauto].
      exfalso. apply Hno. exists c. exact Ed. }
    split.
    + split; [intros _; exact Hex|eauto].
    + split; [intros [? ?]; discriminate|].
      intros Hall. apply Exists_exists in Hex as (term & Hin & m & Hm).
      rewrite Forall_forall in Hall. destruct (Hall term Hin) as [r Hr]. congruence.
Qed.

Lemma filter_all {A} (P : A -> Prop) `{forall a, Decision (P a)} (l : list A) :
  Forall P l -> filter P l = l.
Proof.
  induction 1 as [|a l Ha _ IH]; [reflexivity|].
  rewrite filter_cons. destruct (decide (P a)); [|contradiction].
  rewrite IH. reflexivity.
Qed.

(** X8.  The schedule decides the order of the results and nothing else:
    two runs of the same batch return the same records up to order, and every
    ordering of the records is what the batch returns under some schedule.
    The order of the search terms is not kept. *)
Theorem performSearch_order_is_the_schedule
    (sched : list nat) (cities : list string) (cityIndex : bleveIndex)
    (results : list City) :
  performSearch sched cities cityIndex = Returns results ->
  (forall sched' results',
     performSearch sched' cities cityIndex = Returns results' -> results' ≡ₚ results) /\
  (forall results', results' ≡ₚ results ->
     exists sched', performSearch sched' cities cityIndex = Returns results').
Proof.
  unfold performSearch.
  set (f := fun item => r ← searchCity item cityIndex; Returns (fst r)).
  unfold mbind, outcome_bind.
  destruct (mapO f cities) as [sent|msg] eqn:Em; [|discriminate].
  assert (Hlen : length cities = length sent).
  { apply mapO_Returns in Em. eapply Forall2_length; exact Em. }
  rewrite Hlen. intros E. inversion E as [Hres]; clear E.
  destruct (fanIn_order sent sched []) as (order & Hperm & Hfan).
  rewrite Hfan in *. simpl in *.
  split.
  - intros sched' results' E'. inversion E' as [Hres']; clear E'.
    destruct (fanIn_order sent sched' []) as (order' & Hperm' & Hfan').
    rewrite Hfan'. simpl. rewrite Hperm, Hperm'. reflexivity.
  - intros results' Hr'.
    set (P := fun c : City => city_ID c <> EmptyString) in *.
    assert (HP : Forall P results').
    { rewrite Forall_forall. intros c Hc. rewrite Hr' in Hc.
      apply list_elem_of_filter in Hc as [Hc _]. exact Hc. }
    destruct (fanIn_any_order (results' ++ filter (fun c => ~ P c) sent) sent [])
      as [sched' Hs'].
    { rewrite Hr', Hperm. apply filter_app_complement. }
    exists sched'. rewrite Hs'. simpl. fold P.
    rewrite filter_app, (filter_all P results' HP), (filter_none P), app_nil_r;
      [reflexivity|].
    rewrite Forall_forall. intros c Hc.
    apply list_elem_of_filter in Hc as [Hc _]. exact Hc.
Qed.

(** ** The items of formatResults *)

Section FormatResultsContent.
Context {libm : MathLib} {rt : GoRuntime} {world : World}.

(** The loop over the airports found writes their codes, in order. *)
Lemma codes_loop_value (airports : slice) (h : heap) :
  valid_slice h airports ->
  forall (n k : nat) (codes : list string),
  (k + n = s_len airports)%nat -> length codes = s_len airports ->
  take k codes = map ap_Code (take k (view h airports)) ->
  foldM (fun codes j => a ← index airports j; mret (<[j := ap_Code a]> codes))
        (seq k n) codes h = Returns (map ap_Code (view h airports), h).
Proof.
  intros Hv. induction n as [|n IH]; intros k codes Hk Hlen Htake.
  - rewrite take_ge in Htake by lia.
    rewrite take_ge in Htake by (rewrite view_length by exact Hv; lia).
    subst codes. reflexivity.
  - destruct (lookup_lt_is_Some_2 (view h airports) k) as [a Ha].
    { rewrite view_length by exact Hv. lia. }
    cbn [seq foldM].
    erewrite bind_Returns;
      [|erewrite bind_Returns; [|apply index_view; exact Ha]; reflexivity].
    apply IH.
    + lia.
    + rewrite length_insert. exact Hlen.
    + rewrite (take_S_r (<[k := ap_Code a]> codes) k (ap_Code a))
        by (apply list_lookup_insert_eq; lia).
      rewrite take_insert_ge by lia.
      rewrite (take_S_r _ _ _ Ha), map_app, Htake. reflexivity.
Qed.

(** The record a city is formatted into, with the airports as the ranking
    gives them for the airport list of its country. *)
Lemma formatResult_value (i : nat) (city : City)
    (countryIndex : gmap string string) (airportIndex : gmap string slice)
    (phoneIndex currencyIndex : gmap string string) (h : heap) (loc : Location) :
  LoadLocation (city_Timezone city) = Some loc ->
  valid_slice h (airports_of airportIndex (city_CountryID city)) ->
  exists h',
    formatResult i city countryIndex airportIndex phoneIndex currencyIndex h
    = Returns
        (let now := Time_In (Now i) loc in
         let country := at_key countryIndex (city_CountryID city) in
         let flag := ("flags/" ++ ToLower (Replace_spaces country) ++ ".png")%string in
         let nearest :=
           nearestAirports (ParseFloat (city_Latitude city))
                           (ParseFloat (city_Longitude city))
                           (view h (airports_of airportIndex (city_CountryID city))) in
         mkSearchResult
           (city_ID city)
           (city_Name city ++ " " ++ title_dash ++ " "
              ++ Time_Format now "3:04 PM" ++ " " ++ Time_Zone now)%string
           (Join [Time_Format now "Monday, January 2";
                  country;
                  ("+" ++ at_key phoneIndex (city_CountryID city))%string;
                  at_key currencyIndex (city_CountryID city);
                  Join (map ap_Code nearest) ","] " | ")
           (city_Name city)
           (city_Name city)
           (mkIcon (if NotExist flag then "flags/_no_flag.png"%string else flag)),
         h') /\
    extends h h'.
Proof.
  intros Hloc Hvalid. unfold formatResult. rewrite Hloc. simpl InLocation.
  destruct (FindClosestAirport_returns (ParseFloat (city_Latitude city))
              (ParseFloat (city_Longitude city))
              (airports_of airportIndex (city_CountryID city)) h Hvalid)
    as (res & h' & E & V & Hv' & Hext).
  pose proof (codes_loop_value res h' Hv' (s_len res) 0
                (replicate (s_len res) EmptyString)) as Ecodes.
  rewrite V in Ecodes.
  exists h'. split; [|exact Hext].
  erewrite bind_Returns; [|reflexivity].
  erewrite bind_Returns; [|exact E].
  erewrite bind_Returns; [|apply Ecodes; [lia|apply length_replicate|reflexivity]].
  reflexivity.
Qed.

Lemma airports_of_valid (h : heap) (airportIndex : gmap string slice) (key : string) :
  map_Forall (fun _ s => valid_slice h s) airportIndex ->
  valid_slice h (airports_of airportIndex key).
Proof.
  intros Hslices. unfold airports_of.
  destruct (airportIndex !! key) as [s|] eqn:Es; simpl.
  - exact (Hslices _ _ Es).
  - split; simpl; lia.
Qed.

(** The loop from position [i] stores at the position of every record with
    an identity the record it is formatted into; what an earlier iteration
    left in the store does not show in a later one. *)
Lemma formatLoop_value (h0 : heap)
    (countryIndex : gmap string string) (airportIndex : gmap string slice)
    (phoneIndex currencyIndex : gmap string string) (results : list City) :
  map_Forall (fun _ s => valid_slice h0 s) airportIndex ->
  Forall (fun city => city_ID city <> EmptyString ->
                      is_Some (LoadLocation (city_Timezone city))) results ->
  forall (i : nat) (output : list SearchResult) (h : heap),
  extends h0 h ->
  (i + length results <= length output)%nat ->
  exists items h',
    formatLoop i results countryIndex airportIndex phoneIndex currencyIndex output h
    = Returns (items, h') /\
    extends h0 h' /\
    length items = length output /\
    (forall j, (j < i)%nat -> items !! j = output !! j) /\
    (forall k city loc,
       results !! k = Some city -> city_ID city <> EmptyString ->
       LoadLocation (city_Timezone city) = Some loc ->
       items !! (i + k)%nat
       = Some
           (let now := Time_In (Now (i + k)) loc in
            let country := at_key countryIndex (city_CountryID city) in
            let flag := ("flags/" ++ ToLower (Replace_spaces country) ++ ".png")%string in
            let nearest :=
              nearestAirports (ParseFloat (city_Latitude city))
                              (ParseFloat (city_Longitude city))
                              (view h0 (airports_of airportIndex (city_CountryID city))) in
            mkSearchResult
              (city_ID city)
              (city_Name city ++ " " ++ title_dash ++ " "
                 ++ Time_Format now "3:04 PM" ++ " " ++ Time_Zone now)%string
              (Join [Time_Format now "Monday, January 2";
                     country;
                     ("+" ++ at_key phoneIndex (city_CountryID city))%string;
                     at_key currencyIndex (city_CountryID city);
                     Join (map ap_Code nearest) ","] " | ")
              (city_Name city)
              (city_Name city)
              (mkIcon (if NotExist flag then "flags/_no_flag.png"%string else flag)))).
Proof.
  intros Hslices Hzones. induction Hzones as [|city results Hzone _ IH];
    intros i output h Hext Hlen.
  - exists output, h. simpl.
    split; [reflexivity|]. split; [exact Hext|]. split; [reflexivity|].
    split; [reflexivity|]. intros k city loc Hk. discriminate.
  - simpl in Hlen. cbn [formatLoop].
    destruct (decide (city_ID city = EmptyString)) as [Hid|Hid].
    + destruct (IH (S i) output h Hext) as (items & h' & E & Hext' & Hl & Hbefore & Hat); [lia|].
      exists items, h'.
      split; [exact E|]. split; [exact Hext'|]. split; [exact Hl|]. split.
      * intros j Hj. apply Hbefore. lia.
      * intros [|k] c loc Hk Hc Hloc; simpl in Hk.
        -- inversion Hk; subst. contradiction.
        -- replace (i + S k)%nat with (S i + k)%nat by lia.
           apply (Hat k c loc Hk Hc Hloc).
    + destruct (Hzone Hid) as [loc Hloc].
      pose proof (airports_of_valid h0 airportIndex (city_CountryID city) Hslices) as Hv0.
      assert (Hvalid : valid_slice h (airports_of airportIndex (city_CountryID city)))
        by (apply (extends_valid h0 h _ Hext); exact Hv0).
      destruct (formatResult_value i city countryIndex airportIndex phoneIndex
                  currencyIndex h loc Hloc Hvalid) as (h1 & E1 & Hext1).
      rewrite (extends_view h0 h _ Hext Hv0) in E1.
      assert (Hext01 : extends h0 h1) by (eapply extends_trans; eassumption).
      match type of E1 with
      | _ = Returns (?r, _) =>
          destruct (IH (S i) (<[i := r]> output) h1 Hext01)
            as (items & h' & E & Hext' & Hl & Hbefore & Hat);
            [rewrite length_insert; lia|]
      end.
      exists items, h'. rewrite length_insert in Hl.
      split; [erewrite bind_Returns; [exact E|exact E1]|].
      split; [exact Hext'|]. split; [exact Hl|]. split.
      * intros j Hj. rewrite Hbefore by lia. apply list_lookup_insert_ne. lia.
      * intros [|k] c loc' Hk Hc Hloc'; simpl in Hk.
        -- inversion Hk; subst c. rewrite Hloc in Hloc'. inversion Hloc'; subst loc'.
           rewrite Nat.add_0_r, Hbefore by lia.
           apply list_lookup_insert_eq. lia.
        -- replace (i + S k)%nat with (S i + k)%nat by lia.
           apply (Hat k c loc' Hk Hc Hloc').
Qed.

(** X9.  The item of a city with an identity depends on that city alone (and
    on the clock reading of its iteration): its uid is the identity, its arg
    and autocomplete are the name, its icon is the flag file named after the
    country if that file exists and the fallback flag otherwise, and its
    subtitle lists the date, the country name, the phone prefix behind a
    plus sign, the currency and the codes of the airports that
    [FindClosestAirport] returns for the city's coordinates and the airport
    list of its country, called on the store as it was when [formatResults]
    was called.  The other cities of the batch and what their iterations
    allocate do not show in it. *)
Theorem formatResults_items_content
    (results : list City)
    (countryIndex : gmap string string) (airportIndex : gmap string slice)
    (phoneIndex currencyIndex : gmap string string) (h : heap) :
  map_Forall (fun _ s => valid_slice h s) airportIndex ->
  Forall (fun city => city_ID city <> EmptyString ->
                      is_Some (LoadLocation (city_Timezone city))) results ->
  exists items h',
    formatResults_items results countryIndex airportIndex phoneIndex currencyIndex h
    = Returns (items, h') /\
    forall i city loc,
      results !! i = Some city -> city_ID city <> EmptyString ->
      LoadLocation (city_Timezone city) = Some loc ->
      exists found hf,
        FindClosestAirport (ParseFloat (city_Latitude city))
                           (ParseFloat (city_Longitude city))
                           (airports_of airportIndex (city_CountryID city)) h
        = Returns (found, hf) /\
        let now := Time_In (Now i) loc in
        let country := at_key countryIndex (city_CountryID city) in
        let flag := ("flags/" ++ ToLower (Replace_spaces country) ++ ".png")%string in
        items !! i
        = Some (mkSearchResult
                  (city_ID city)
                  (city_Name city ++ " " ++ title_dash ++ " "
                     ++ Time_Format now "3:04 PM" ++ " " ++ Time_Zone now)%string
                  (Join [Time_Format now "Monday, January 2";
                         country;
                         ("+" ++ at_key phoneIndex (city_CountryID city))%string;
                         at_key currencyIndex (city_CountryID city);
                         Join (map ap_Code (view hf found)) ","] " | ")
                  (city_Name city)
                  (city_Name city)
                  (mkIcon (if NotExist flag then "flags/_no_flag.png"%string else flag))).
Proof.
  intros Hslices Hzones. unfold formatResults_items.
  destruct (formatLoop_value h countryIndex airportIndex phoneIndex currencyIndex results
              Hslices Hzones 0 (replicate (length results) zeroSearchResult) h)
    as (items & h' & E & _ & _ & _ & Hat).
  - apply extends_refl.
  - rewrite length_replicate. lia.
  - exists items, h'. split; [exact E|].
    intros i city loc Hi Hid Hloc.
    destruct (FindClosestAirport_returns (ParseFloat (city_Latitude city))
                (ParseFloat (city_Longitude city))
                (airports_of airportIndex (city_CountryID city)) h
                (airports_of_valid h airportIndex (city_CountryID city) Hslices))
      as (found & hf & Ef & Vf & _ & _).
    exists found, hf. split; [exact Ef|].
    cbv zeta. rewrite Vf. exact (Hat i city loc Hi Hid Hloc).
Qed.

(** When the time zones load, [formatResults] returns the payload of an
    array with one item for every record. *)
Lemma formatResults_returns
    (results : list City)
    (countryIndex : gmap string string) (airportIndex : gmap string slice)
    (phoneIndex currencyIndex : gmap string string) (h : heap) :
  map_Forall (fun _ s => valid_slice h s) airportIndex ->
  Forall (fun city => city_ID city <> EmptyString ->
                      is_Some (LoadLocation (city_Timezone city))) results ->
  exists items h',
    formatResults results countryIndex airportIndex phoneIndex currencyIndex h
    = Returns (("{" ++ quote ++ "items" ++ quote ++ ":" ++ Marshal items ++ "}")%string, h') /\
    length items = length results /\
    extends h h'.
Proof.
  intros Hslices Hzones. unfold formatResults, formatResults_items.
  destruct (formatLoop_returns h countryIndex airportIndex phoneIndex currencyIndex results
              Hslices Hzones 0 (replicate (length results) zeroSearchResult) h)
    as (items & h' & E & Hext & Hlen & _).
  - apply extends_refl.
  - rewrite length_replicate. lia.
  - exists items, h'. rewrite length_replicate in Hlen.
    split; [|split; [exact Hlen|exact Hext]].
    erewrite bind_Returns; [|exact E]. reflexivity.
Qed.

(** X10.  [formatResults] works on copies of the airport lists: when it
    returns, the store has only gained arrays, every airport list of the
    index shows the same records as before, in the same order, and a further
    call on the resulting store returns as well. *)
Theorem formatResults_leaves_airport_index
    (results : list City)
    (countryIndex : gmap string string) (airportIndex : gmap string slice)
    (phoneIndex currencyIndex : gmap string string) (h : heap) :
  map_Forall (fun _ s => valid_slice h s) airportIndex ->
  Forall (fun city => city_ID city <> EmptyString ->
                      is_Some (LoadLocation (city_Timezone city))) results ->
  exists payload h',
    formatResults results countryIndex airportIndex phoneIndex currencyIndex h
    = Returns (payload, h') /\
    extends h h' /\
    map_Forall (fun _ s => valid_slice h' s /\ view h' s = view h s) airportIndex /\
    forall results',
      Forall (fun city => city_ID city <> EmptyString ->
                          is_Some (LoadLocation (city_Timezone city))) results' ->
      exists payload' h'',
        formatResults results' countryIndex airportIndex phoneIndex currencyIndex h'
        = Returns (payload', h'').
Proof.
  intros Hslices Hzones.
  destruct (formatResults_returns results countryIndex airportIndex phoneIndex
              currencyIndex h Hslices Hzones) as (items & h' & E & _ & Hext).
  assert (Hslices' : map_Forall (fun _ s => valid_slice h' s) airportIndex).
  { intros k s Hk. apply (extends_valid h h' s Hext). exact (Hslices k s Hk). }
  eexists _, h'. split; [exact E|]. split; [exact Hext|]. split.
  - intros k s Hk. split; [exact (Hslices' k s Hk)|].
    apply extends_view; [exact Hext|exact (Hslices k s Hk)].
  - intros results' Hz'.
    destruct (formatResults_returns results' countryIndex airportIndex phoneIndex
                currencyIndex h' Hslices' Hz') as (items' & h'' & E' & _).
    eauto.
Qed.

End FormatResultsContent.

(** ** What a run of main does to the outside *)

Section MainTrace.
Context {libm : MathLib} {rt : GoRuntime} {world : World} {process : Process}.

(** X11.  A run that returns has built the index only if its file was
    missing, then opened it, read the four datasets in the order countries,
    airports, phone, currency, and printed one line, last.  A run that panics
    has printed nothing: what it did is an initial part of those steps. *)
Theorem main_prints_once_or_panics :
  let startup :=
    (if index_NotExist
     then [BuildsIndex "cities.bleve" "datasets/cities.json"] else [])
    ++ [OpensIndex "cities.bleve";
        ReadsDataset "datasets/countries.json";
        ReadsDataset "datasets/airports.json";
        ReadsDataset "datasets/phone.json";
        ReadsDataset "datasets/currency.json"] in
  (snd main = Returns tt -> exists payload, fst main = startup ++ [Prints payload]) /\
  (forall msg, snd main = Panics msg ->
     fst main `prefix_of` startup /\ forall line, Prints line ∉ fst main).
Proof.
  intros startup.
  assert (Hno : forall es line, es `prefix_of` startup -> Prints line ∉ es).
  { intros es line Hes Hin. apply (elem_of_prefix _ _ _ Hin) in Hes.
    unfold startup in Hes. destruct index_NotExist; simpl in Hes;
      repeat (apply elem_of_cons in Hes as [Hes|Hes]; [discriminate|]);
      apply elem_of_nil in Hes; exact Hes. }
  assert (Hmain : (exists payload, main = (startup ++ [Prints payload], Returns tt)) \/
                  (exists es msg, main = (es, Panics msg) /\ es `prefix_of` startup)).
  { unfold main, startup.
    destruct (decide (Join Args " " = EmptyString)); [right; do 2 eexists; split; [reflexivity|apply prefix_nil]|].
    unfold mbind, IO_bind, act, pure_step, mret, IO_ret.
    destruct index_NotExist; [destruct (CreateIndex _ _) as [[]|]|];
      try (destruct (OpenIndex _) as [cityIndex|]);
      try (destruct (GetCountryMap _) as [countryIndex|]);
      try (destruct (GetAirportsByCountry _) as [airports|]);
      try (destruct (GetPhoneCodesByCountry _) as [phoneIndex|]);
      try (destruct (GetCurrencyByCountry _) as [currencyIndex|]);
      try (destruct (performSearch _ _ _) as [results|]);
      try (destruct (formatResults _ _ _ _ _ _) as [[payload h']|]);
      simpl;
      first [left; eexists; reflexivity
            |right; do 2 eexists; split; [reflexivity|eexists; reflexivity]]. }
  split.
  - intros Hret. destruct Hmain as [[payload E]|(es & msg & E & _)].
    + exists payload. rewrite E. reflexivity.
    + rewrite E in Hret. discriminate.
  - intros msg Hpanic. destruct Hmain as [[payload E]|(es & msg' & E & Hes)].
    + rewrite E in Hpanic. discriminate.
    + rewrite E. simpl. split; [exact Hes|]. intros line. apply Hno. exact Hes.
Qed.

End MainTrace.

(** ** The search terms *)

Lemma Split_commas_cons (s : string) : exists e elems, Split_commas s = e :: elems.
Proof.
  destruct s as [|c s]; simpl; [eauto|].
  destruct (Ascii.eqb c comma); [eauto|].
  destruct (Split_commas s); eauto.
Qed.

Lemma Join_cons (e : string) (elems : list string) (sep : string) :
  elems <> [] -> Join (e :: elems) sep = (e ++ sep ++ Join elems sep)%string.
Proof. destruct elems; [contradiction|reflexivity]. Qed.

Lemma Join_Split_commas (s : string) : Join (Split_commas s) "," = s.
Proof.
  induction s as [|c s IH]; [reflexivity|]. simpl Split_commas.
  destruct (Split_commas_cons s) as (e & elems & Es). rewrite Es in *.
  destruct (Ascii.eqb_spec c comma) as [->|Hc].
  - rewrite Join_cons by discriminate. rewrite IH. reflexivity.
  - destruct elems as [|e' elems].
    + simpl in *. rewrite IH. reflexivity.
    + rewrite Join_cons by discriminate. rewrite Join_cons in IH by discriminate.
      rewrite <- IH. reflexivity.
Qed.

Lemma Split_commas_length (s : string) :
  length (Split_commas s)
  = S (length (filter (fun c => c = comma) (list_ascii_of_string s))).
Proof.
  induction s as [|c s IH]; [reflexivity|]. simpl Split_commas.
  simpl list_ascii_of_string. rewrite filter_cons.
  destruct (Split_commas_cons s) as (e & elems & Es). rewrite Es in *.
  destruct (Ascii.eqb_spec c comma) as [->|Hc].
  - rewrite decide_True by reflexivity. simpl. rewrite <- IH. reflexivity.
  - rewrite decide_False by exact Hc. simpl. exact IH.
Qed.

Lemma Split_commas_no_comma (s : string) :
  Forall (fun term => comma ∉ list_ascii_of_string term) (Split_commas s).
Proof.
  induction s as [|c s IH]; simpl.
  - constructor; [|constructor]. simpl. apply not_elem_of_nil.
  - destruct (Split_commas_cons s) as (e & elems & Es). rewrite Es in *.
    apply Forall_cons in IH as [He Helems].
    destruct (Ascii.eqb_spec c comma) as [->|Hc].
    + constructor; [simpl; apply not_elem_of_nil|]. constructor; assumption.
    + constructor; [|assumption]. simpl. rewrite not_elem_of_cons.
      split; [congruence|exact He].
Qed.

Lemma Split_commas_term (term rest : string) :
  comma ∉ list_ascii_of_string term ->
  Split_commas term = [term] /\
  Split_commas (term ++ "," ++ rest) = term :: Split_commas rest.
Proof.
  induction term as [|c term IH]; intros Hno.
  - split; reflexivity.
  - simpl in Hno. rewrite not_elem_of_cons in Hno. destruct Hno as [Hc Hno].
    destruct (IH Hno) as [IH1 IH2]. simpl.
    destruct (Ascii.eqb_spec c comma) as [->|_]; [congruence|].
    simpl in IH2. rewrite IH1, IH2. split; reflexivity.
Qed.

Lemma Split_commas_Join (terms : list string) :
  terms <> [] ->
  Forall (fun term => comma ∉ list_ascii_of_string term) terms ->
  Split_commas (Join terms ",") = terms.
Proof.
  intros Hne Hall. induction Hall as [|term terms Hterm Hall IH]; [contradiction|].
  destruct terms as [|term' terms].
  - simpl. apply Split_commas_term; [exact EmptyString|exact Hterm].
  - rewrite Join_cons by discriminate.
    destruct (Split_commas_term term (Join (term' :: terms) ",") Hterm) as [_ ->].
    rewrite IH by discriminate. reflexivity.
Qed.

(** X12.  [main] splits its input at every comma and nowhere else: joined
    with commas the search terms give back the input, there is one term more
    than the input has commas (so at least one, and a trailing comma gives an
    empty last term), no term holds a comma, and nothing is trimmed from a
    term.  Conversely terms without commas joined with commas split into
    themselves. *)
Theorem search_terms_split_at_commas (input : string) :
  Join (Split_commas input) "," = input /\
  length (Split_commas input)
  = S (length (filter (fun c => c = comma) (list_ascii_of_string input))) /\
  Forall (fun term => comma ∉ list_ascii_of_string term) (Split_commas input) /\
  (forall terms,
     terms <> [] ->
     Forall (fun term => comma ∉ list_ascii_of_string term) terms ->
     Split_commas (Join terms ",") = terms).
Proof.
  split; [apply Join_Split_commas|].
  split; [apply Split_commas_length|].
  split; [apply Split_commas_no_comma|].
  apply Split_commas_Join.
Qed.

(** ** GetCountryMap *)

Section GetCountryMapFacts.
Context {files : Files}.

(** One round of the loop: an entry with a string code and a string name is
    stored under its code; any other value makes a type assertion panic. *)
Lemma addCountry_entry (countries : gmap string string) (country : JSON) :
  match country_entry country with
  | Some (code, name) =>
      Loaders.addCountry countries country = Returns (<[code := name]> countries)
  | None => exists msg, Loaders.addCountry countries country = Panics msg
  end.
Proof.
  unfold Loaders.addCountry, country_entry, member.
  destruct country as [| | | | |members]; simpl; eauto.
  destruct (members !! "Code"%string) as [[]|]; simpl; eauto.
  destruct (members !! "Name"%string) as [[]|]; simpl; eauto.
Qed.

Lemma rangeO_addCountry (elems : list JSON) (countries : gmap string string) :
  (Forall (fun v => is_Some (country_entry v)) elems ->
   rangeO Loaders.addCountry elems countries
   = Returns (foldl (fun m entry => <[fst entry := snd entry]> m) countries
                    (omap country_entry elems))) /\
  (~ Forall (fun v => is_Some (country_entry v)) elems ->
   exists msg, rangeO Loaders.addCountry elems countries = Panics msg).
Proof.
  revert countries. induction elems as [|v elems IH]; intros countries.
  - split; [reflexivity|]. intros Hn. contradiction Hn. constructor.
  - pose proof (addCountry_entry countries v) as Hv.
    cbn [rangeO omap list_omap]. unfold mbind, outcome_bind.
    destruct (country_entry v) as [[code name]|] eqn:Ev.
    + rewrite Hv. split.
      * intros Hall. apply Forall_cons in Hall as [_ Hall]. simpl.
        apply IH. exact Hall.
      * intros Hn. apply IH. intros Hall. apply Hn. constructor; [eauto|exact Hall].
    + destruct Hv as [msg Hv]. rewrite Hv. split.
      * intros Hall. apply Forall_cons in Hall as [[? Hsome] _]. congruence.
      * eauto.
Qed.

Lemma foldl_insert_lookup (entries : list (string * string)) (code : string) :
  foldl (fun m entry => <[fst entry := snd entry]> m) (∅ : gmap string string) entries
    !! code
  = snd <$> last (filter (fun entry => fst entry = code) entries).
Proof.
  induction entries as [|[c n] entries IH] using rev_ind; [reflexivity|].
  rewrite foldl_app, filter_app. simpl. rewrite filter_cons, filter_nil. simpl.
  destruct (decide (c = code)) as [->|Hc].
  - rewrite lookup_insert_eq, last_snoc. reflexivity.
  - rewrite lookup_insert_ne by exact Hc. rewrite app_nil_r. exact IH.
Qed.

(** X13.  [GetCountryMap] returns exactly when the file is read, decodes,
    and is a JSON array whose elements are all objects with a string [Code]
    and a string [Name]; one element of another shape makes the whole load
    panic.  In the map returned a code has the name of the last entry with
    that code; other members of an entry are ignored; a code without an entry
    is absent. *)
Theorem GetCountryMap_last_entry_wins (countryFile : string) :
  ((exists countries, Loaders.GetCountryMap countryFile = Returns countries) <->
   exists cdata elems,
     ReadFile countryFile = inl cdata /\
     Unmarshal_any cdata = inl (JArray elems) /\
     Forall (fun v => is_Some (country_entry v)) elems) /\
  (forall cdata elems countries,
     ReadFile countryFile = inl cdata ->
     Unmarshal_any cdata = inl (JArray elems) ->
     Loaders.GetCountryMap countryFile = Returns countries ->
     forall code,
       countries !! code
       = snd <$> last (filter (fun entry => fst entry = code)
                              (omap country_entry elems))).
Proof.
  unfold Loaders.GetCountryMap.
  destruct (ReadFile countryFile) as [cdata|err] eqn:Er.
  2:{ split.
      - split; [intros [? ?]; discriminate|intros (? & ? & ? & _); discriminate].
      - intros ? ? ? ?. discriminate. }
  destruct (Unmarshal_any cdata) as [data|err] eqn:Eu.
  2:{ split.
      - split; [intros [? ?]; discriminate|].
        intros (? & ? & E & ? & _). inversion E; subst. congruence.
      - intros ? ? ? E. inversion E; subst. congruence. }
  destruct data as [| | | |elems|];
    try (split;
         [split; [intros [? ?]; discriminate|];
          intros (? & ? & E & E' & _); inversion E; subst; congruence
         |intros ? ? ? E E'; inversion E; subst; congruence]).
  simpl. unfold mbind, outcome_bind.
  destruct (rangeO_addCountry elems ∅) as [Hret Hpanic].
  destruct (decide (Forall (fun v => is_Some (country_entry v)) elems)) as [Hall|Hn].
  - rewrite (Hret Hall). split.
    + split; [intros _; eauto|eauto].
    + intros cdata' elems' countries E E' Ec code.
      inversion E; subst cdata'. rewrite Eu in E'. inversion E'; subst elems'.
      inversion Ec; subst countries.
      apply foldl_insert_lookup.
  - destruct (Hpanic Hn) as [msg Hmsg]. rewrite Hmsg. split.
    + split; [intros [? ?]; discriminate|].
      intros (cdata' & elems' & E & E' & Hall). inversion E; subst cdata'.
      rewrite Eu in E'. inversion E'; subst elems'. contradiction.
    + intros ? ? ? _ _ Ec. discriminate.
Qed.

End GetCountryMapFacts.

(** ** GetAirportsByCountry *)

Lemma same_except_view (p : nat) (h h' : heap) (t : slice) :
  same_except p h h' -> s_ptr t <> p ->
  view h' t = view h t /\ (valid_slice h t -> valid_slice h' t).
Proof.
  intros [_ Hsame] Hp. unfold view, valid_slice. rewrite (Hsame _ Hp). auto.
Qed.

Lemma valid_slice_allocated (h : heap) (s : slice) :
  valid_slice h s -> (0 < s_cap s)%nat -> (s_ptr s < length h)%nat.
Proof.
  intros [_ Hfit] Hcap.
  destruct (h !! s_ptr s) as [arr|] eqn:E.
  - eapply lookup_lt_Some. exact E.
  - simpl in Hfit. lia.
Qed.

Section GetAirportsByCountryFacts.
Context {files : Files} {rt : GoRuntime}.

(** Where [append] writes: into the array of the slice while there is room,
    otherwise into a new array at the end of the store. *)
Lemma append_frame (h : heap) (s : slice) (v : Airport) (s' : slice) (h' : heap) :
  append s v h = Returns (s', h') ->
  (s_ptr s' = s_ptr s /\ (s_len s < s_cap s)%nat /\ same_except (s_ptr s) h h') \/
  (s_ptr s' = length h /\ extends h h' /\ length h' = S (length h)).
Proof.
  unfold append. destruct (decide (s_len s < s_cap s)%nat) as [Hroom|Hfull].
  - destruct (h !! s_ptr s) as [arr|]; [|discriminate].
    destruct (decide (s_off s + s_len s < length arr)%nat); [|discriminate].
    intros E. inversion E; subst. left. split; [reflexivity|]. split; [exact Hroom|].
    split; [apply length_insert|].
    intros q Hq. apply list_lookup_insert_ne. congruence.
  - intros E. inversion E; subst. right. split; [reflexivity|]. split.
    + intros q arr E'. apply lookup_app_l_Some. exact E'.
    + rewrite length_app. simpl. lia.
Qed.

Lemma emptySlice_fresh (h0 h : heap) : fresh h0 h emptySlice.
Proof. split; [split; simpl; lia|left; reflexivity]. Qed.

(** One round of the loop keeps the grouping. *)
Lemma addAirport_grouped (h0 h : heap) (airports : gmap string slice)
    (done : list Airport) (airport : Airport) :
  grouped h0 h airports done ->
  exists airports' h',
    Loaders.addAirport airports airport h = Returns (airports', h') /\
    grouped h0 h' airports' (done ++ [airport]).
Proof.
  intros (Hext & Hsome & Hnone & Hdist).
  set (code := ap_CountryCode airport).
  set (s := airports_of airports code).
  assert (Hfresh : fresh h0 h s).
  { unfold s, airports_of. destruct (airports !! code) as [s0|] eqn:Es; simpl.
    - apply (Hsome code s0 Es).
    - apply emptySlice_fresh. }
  assert (Hview : view h s = filter (fun a => ap_CountryCode a = code) done).
  { unfold s, airports_of. destruct (airports !! code) as [s0|] eqn:Es; simpl.
    - apply (Hsome code s0 Es).
    - rewrite (Hnone code Es). reflexivity. }
  destruct (append_fresh h0 h s airport Hext Hfresh)
    as (s' & h' & E & Hv' & Hfresh' & Hext').
  pose proof (append_frame h s airport s' h' E) as Hframe.
  assert (Hlen' : (0 < s_len s')%nat).
  { rewrite <- (view_length h' s') by apply Hfresh'.
    rewrite Hv', length_app. simpl. lia. }
  assert (Hgrow : (length h <= length h')%nat).
  { destruct Hframe as [(_ & _ & [Hl _])|(_ & _ & Hl)]; lia. }
  assert (Hother : forall c t, c <> code -> airports !! c = Some t ->
            s_ptr t <> s_ptr s' /\ view h' t = view h t /\ valid_slice h' t).
  { intros c t Hc Et. destruct (Hsome c t Et) as ([Hvt _] & _ & [_ Hpt] & _).
    destruct Hframe as [(Hp & Hroom & Hsame)|(Hp & Hexth & _)].
    - assert (Hne : s_ptr t <> s_ptr s).
      { unfold s, airports_of in *. destruct (airports !! code) as [s0|] eqn:Es; simpl in *.
        - apply (Hdist c code t s0 Hc Et Es).
        - lia. }
      destruct (same_except_view (s_ptr s) h h' t Hsame Hne) as [Hvw Hvl].
      split; [congruence|]. split; [exact Hvw|apply Hvl; exact Hvt].
    - split; [lia|]. split; [apply extends_view; assumption|].
      eapply extends_valid; eassumption. }
  exists (<[code := s']> airports), h'. split.
  { unfold Loaders.addAirport. fold code. fold s.
    erewrite bind_Returns; [|exact E]. reflexivity. }
  split; [exact Hext'|]. split; [|split].
  - intros c t Et. destruct (decide (c = code)) as [->|Hc].
    + rewrite lookup_insert_eq in Et. inversion Et; subst t.
      split; [exact Hfresh'|]. split; [exact Hlen'|]. split.
      * destruct Hfresh' as [[Hlc Hfit] [Hcap|Hptr]]; [lia|].
        split; [exact Hptr|].
        apply valid_slice_allocated; [split; assumption|lia].
      * rewrite Hv', Hview, filter_app, filter_cons, filter_nil.
        rewrite decide_True by reflexivity. reflexivity.
    + rewrite lookup_insert_ne in Et by congruence.
      destruct (Hother c t Hc Et) as (_ & Hvw & Hvl).
      destruct (Hsome c t Et) as ([_ Hfr] & Hl & [Hp0 Hp] & Hv).
      split; [split; assumption|]. split; [exact Hl|]. split; [lia|].
      rewrite Hvw, Hv, filter_app, filter_cons, filter_nil.
      rewrite decide_False by (fold code; congruence).
      rewrite app_nil_r. reflexivity.
  - intros c Ec. destruct (decide (c = code)) as [->|Hc].
    + rewrite lookup_insert_eq in Ec. discriminate.
    + rewrite lookup_insert_ne in Ec by congruence.
      rewrite filter_app, (Hnone c Ec), filter_cons, filter_nil.
      rewrite decide_False by (fold code; congruence). reflexivity.
  - intros c1 c2 s1 s2 Hne E1 E2.
    destruct (decide (c1 = code)) as [->|Hc1]; destruct (decide (c2 = code)) as [->|Hc2].
    + contradiction.
    + rewrite lookup_insert_eq in E1. rewrite lookup_insert_ne in E2 by congruence.
      inversion E1; subst s1. destruct (Hother c2 s2 Hc2 E2) as [Hp _]. congruence.
    + rewrite lookup_insert_eq in E2. rewrite lookup_insert_ne in E1 by congruence.
      inversion E2; subst s2. destruct (Hother c1 s1 Hc1 E1) as [Hp _]. exact Hp.
    + rewrite lookup_insert_ne in E1 by congruence.
      rewrite lookup_insert_ne in E2 by congruence.
      apply (Hdist c1 c2 s1 s2 Hne E1 E2).
Qed.

Lemma rangeM_addAirport (h0 : heap) (todo : list Airport) :
  forall (done : list Airport) (airports : gmap string slice) (h : heap),
  grouped h0 h airports done ->
  exists airports' h',
    rangeM Loaders.addAirport todo airports h = Returns (airports', h') /\
    grouped h0 h' airports' (done ++ todo).
Proof.
  induction todo as [|airport todo IH]; intros done airports h Hg.
  - exists airports, h. rewrite app_nil_r. split; [reflexivity|exact Hg].
  - destruct (addAirport_grouped h0 h airports done airport Hg)
      as (airports1 & h1 & E1 & Hg1).
    destruct (IH (done ++ [airport]) airports1 h1 Hg1) as (airports' & h' & E & Hg').
    exists airports', h'. rewrite <- app_assoc in Hg'. split; [|exact Hg'].
    cbn [rangeM]. erewrite bind_Returns; [exact E|exact E1].
Qed.

Lemma grouped_empty (h : heap) : grouped h h ∅ [].
Proof.
  split; [apply extends_refl|]. split; [|split].
  - intros code s E. rewrite lookup_empty in E. discriminate.
  - intros code _. reflexivity.
  - intros c1 c2 s1 s2 _ E. rewrite lookup_empty in E. discriminate.
Qed.

(** What the airport index holds once the file is read and decoded. *)
Lemma GetAirportsByCountry_grouped (airportFile cdata : string) (data : list Airport)
    (h : heap) :
  ReadFile airportFile = inl cdata ->
  Unmarshal_Airports cdata = inl data ->
  exists airports h',
    Loaders.GetAirportsByCountry airportFile h = Returns (airports, h') /\
    grouped h h' airports data.
Proof.
  intros Er Eu. unfold Loaders.GetAirportsByCountry. rewrite Er, Eu.
  apply (rangeM_addAirport h data [] ∅ h). apply grouped_empty.
Qed.

Lemma grouped_view (h0 h : heap) (airports : gmap string slice) (data : list Airport)
    (code : string) :
  grouped h0 h airports data ->
  valid_slice h (airports_of airports code) /\
  view h (airports_of airports code) = filter (fun a => ap_CountryCode a = code) data.
Proof.
  intros (_ & Hsome & Hnone & _). unfold airports_of.
  destruct (airports !! code) as [s|] eqn:Es; simpl.
  - destruct (Hsome code s Es) as ([Hv _] & _ & _ & Hview). split; assumption.
  - rewrite (Hnone code Es). split; [split; simpl; lia|reflexivity].
Qed.

(** X14.  [GetAirportsByCountry] panics with the error when the file cannot
    be read or decoded; otherwise it returns, and under every country code the
    index shows exactly the airports of the file with that code, in file
    order (appending to the list of one country never disturbs the list of
    another).  A code has an entry only if the file has an airport with it,
    and the arrays the caller had before are left as they were. *)
Theorem GetAirportsByCountry_groups_by_country_code (airportFile : string) (h : heap) :
  (forall err, ReadFile airportFile = inr err ->
     Loaders.GetAirportsByCountry airportFile h = Panics err) /\
  (forall cdata err, ReadFile airportFile = inl cdata ->
     Unmarshal_Airports cdata = inr err ->
     Loaders.GetAirportsByCountry airportFile h = Panics err) /\
  (forall cdata data, ReadFile airportFile = inl cdata ->
     Unmarshal_Airports cdata = inl data ->
     exists airports h',
       Loaders.GetAirportsByCountry airportFile h = Returns (airports, h') /\
       extends h h' /\
       map_Forall (fun _ s => valid_slice h' s) airports /\
       (forall code,
          view h' (airports_of airports code)
          = filter (fun a => ap_CountryCode a = code) data) /\
       (forall code,
          is_Some (airports !! code) <-> exists a, a ∈ data /\ ap_CountryCode a = code)).
Proof.
  split; [|split].
  - intros err E. unfold Loaders.GetAirportsByCountry. rewrite E. reflexivity.
  - intros cdata err E E'. unfold Loaders.GetAirportsByCountry. rewrite E, E'. reflexivity.
  - intros cdata data Er Eu.
    destruct (GetAirportsByCountry_grouped airportFile cdata data h Er Eu)
      as (airports & h' & E & Hg).
    exists airports, h'. split; [exact E|].
    pose proof Hg as (Hext & Hsome & Hnone & _).
    split; [exact Hext|]. split; [|split].
    + intros code s Es. apply (Hsome code s Es).
    + intros code. apply (grouped_view h h' airports data code Hg).
    + intros code. split.
      * intros [s Es]. destruct (Hsome code s Es) as ([Hv _] & Hl & _ & Hview).
        pose proof (view_length h' s Hv) as Hvl. rewrite Hview in Hvl.
        destruct (filter (fun a => ap_CountryCode a = code) data) as [|a l] eqn:Ef;
          [simpl in Hvl; lia|].
        assert (Ha : a ∈ filter (fun a => ap_CountryCode a = code) data)
          by (rewrite Ef; left).
        apply list_elem_of_filter in Ha as [Hc Ha]. eauto.
      * intros (a & Ha & Hc). destruct (airports !! code) as [s|] eqn:Es; [eauto|].
        assert (Hin : a ∈ filter (fun a => ap_CountryCode a = code) data)
          by (apply list_elem_of_filter; split; assumption).
        rewrite (Hnone code Es) in Hin. apply elem_of_nil in Hin. contradiction.
Qed.

End GetAirportsByCountryFacts.

(** ** The loaders together with the formatting and with main *)

Section LoadedAirports.
Context {libm : MathLib} {rt : GoRuntime} {world : World} {files : Files}.

Lemma grouped_valid (h0 h : heap) (airports : gmap string slice) (data : list Airport) :
  grouped h0 h airports data -> map_Forall (fun _ s => valid_slice h s) airports.
Proof.
  intros (_ & Hsome & _) code s Es. apply (Hsome code s Es).
Qed.

(** X15.  On the airport index that [GetAirportsByCountry] builds, the
    candidates of a city are the airports of the file whose country code is
    the city's country, in file order, and no others: the airports in the
    subtitle of its item are the codes [FindClosestAirport] returns for
    them.  An airport of another country is never a candidate, however near
    it is; a city whose country has no airport in the file has no
    candidate. *)
Theorem formatResults_ranks_airports_of_the_country
    (airportFile cdata : string) (data : list Airport) (h : heap)
    (results : list City) (countryIndex phoneIndex currencyIndex : gmap string string) :
  ReadFile airportFile = inl cdata ->
  Unmarshal_Airports cdata = inl data ->
  Forall (fun city => city_ID city <> EmptyString ->
                      is_Some (LoadLocation (city_Timezone city))) results ->
  exists airportIndex h1 items h2,
    Loaders.GetAirportsByCountry airportFile h = Returns (airportIndex, h1) /\
    formatResults_items results countryIndex airportIndex phoneIndex currencyIndex h1
    = Returns (items, h2) /\
    forall i city loc,
      results !! i = Some city -> city_ID city <> EmptyString ->
      LoadLocation (city_Timezone city) = Some loc ->
      view h1 (airports_of airportIndex (city_CountryID city))
      = filter (fun a => ap_CountryCode a = city_CountryID city) data /\
      exists found hf r,
        FindClosestAirport (ParseFloat (city_Latitude city))
                           (ParseFloat (city_Longitude city))
                           (airports_of airportIndex (city_CountryID city)) h1
        = Returns (found, hf) /\
        items !! i = Some r /\
        sr_Subtitle r
        = Join [Time_Format (Time_In (Now i) loc) "Monday, January 2";
                at_key countryIndex (city_CountryID city);
                ("+" ++ at_key phoneIndex (city_CountryID city))%string;
                at_key currencyIndex (city_CountryID city);
                Join (map ap_Code (view hf found)) ","] " | ".
Proof.
  intros Er Eu Hzones.
  destruct (GetAirportsByCountry_grouped airportFile cdata data h Er Eu)
    as (airportIndex & h1 & E & Hg).
  pose proof (grouped_valid h h1 airportIndex data Hg) as Hslices.
  destruct (formatLoop_value h1 countryIndex airportIndex phoneIndex currencyIndex results
              Hslices Hzones 0 (replicate (length results) zeroSearchResult) h1)
    as (items & h2 & E2 & _ & _ & _ & Hat).
  - apply extends_refl.
  - rewrite length_replicate. lia.
  - exists airportIndex, h1, items, h2. split; [exact E|]. split; [exact E2|].
    intros i city loc Hi Hid Hloc.
    split; [exact (proj2 (grouped_view h h1 airportIndex data (city_CountryID city) Hg))|].
    destruct (FindClosestAirport_returns (ParseFloat (city_Latitude city))
                (ParseFloat (city_Longitude city))
                (airports_of airportIndex (city_CountryID city)) h1
                (airports_of_valid h1 airportIndex (city_CountryID city) Hslices))
      as (found & hf & Ef & Vf & _ & _).
    eexists found, hf, _. split; [exact Ef|].
    split; [exact (Hat i city loc Hi Hid Hloc)|].
    cbn [sr_Subtitle]. rewrite Vf. reflexivity.
Qed.

(** X16.  With the datasets loaded by the repository's loaders, a run with a
    non-empty input returns and prints exactly one line, the payload of one
    item for every record found, whenever the index is built (if missing) and
    opened, the four files load, the index answers the terms, and the time
    zones of the records found load.  Nothing else is needed: whatever
    airports the file holds, the ranking and the formatting do not panic. *)
Theorem main_with_loaders_prints_one_line
    (args : list string) (index_missing : bool)
    (create : string -> string -> outcome unit) (open : string -> outcome bleveIndex)
    (sched : list nat) (cityIndex : bleveIndex)
    (countries phones currencies : gmap string string)
    (cdata : string) (data : list Airport) (results : list City) :
  Join args " " <> EmptyString ->
  (index_missing = true -> create "cities.bleve" "datasets/cities.json" = Returns tt) ->
  open "cities.bleve" = Returns cityIndex ->
  Loaders.GetCountryMap "datasets/countries.json" = Returns countries ->
  ReadFile "datasets/airports.json" = inl cdata ->
  Unmarshal_Airports cdata = inl data ->
  Loaders.GetPhoneCodesByCountry "datasets/phone.json" = Returns phones ->
  Loaders.GetCurrencyByCountry "datasets/currency.json" = Returns currencies ->
  performSearch sched (Split_commas (Join args " ")) cityIndex = Returns results ->
  Forall (fun city => city_ID city <> EmptyString ->
                      is_Some (LoadLocation (city_Timezone city))) results ->
  exists items,
    length items = length results /\
    @main libm rt world (loading_process args index_missing create open sched)
    = ((if index_missing
        then [BuildsIndex "cities.bleve" "datasets/cities.json"] else [])
       ++ [OpensIndex "cities.bleve";
           ReadsDataset "datasets/countries.json";
           ReadsDataset "datasets/airports.json";
           ReadsDataset "datasets/phone.json";
           ReadsDataset "datasets/currency.json";
           Prints ("{" ++ quote ++ "items" ++ quote ++ ":" ++ Marshal items ++ "}")%string],
       Returns tt).
Proof.
  intros Hinput Hcreate Hopen Hcountries Er Eu Hphones Hcurrencies Hsearch Hzones.
  destruct (GetAirportsByCountry_grouped "datasets/airports.json" cdata data [] Er Eu)
    as (airportIndex & h1 & E & Hg).
  pose proof (grouped_valid [] h1 airportIndex data Hg) as Hslices.
  destruct (formatResults_returns results countries airportIndex phones currencies h1
              Hslices Hzones) as (items & h2 & Ef & Hlen & _).
  exists items. split; [exact Hlen|].
  unfold main. cbn [Args index_NotExist CreateIndex OpenIndex GetCountryMap
                    GetAirportsByCountry GetPhoneCodesByCountry GetCurrencyByCountry
                    schedule loading_process].
  rewrite decide_False by exact Hinput.
  unfold mbind, IO_bind, act, pure_step, mret, IO_ret.
  destruct index_missing; [rewrite Hcreate by reflexivity|]; cbv beta iota.
  all: rewrite Hopen; cbv beta iota.
  all: rewrite Hcountries; cbv beta iota.
  all: rewrite E; cbv beta iota.
  all: rewrite Hphones; cbv beta iota.
  all: rewrite Hcurrencies; cbv beta iota.
  all: rewrite Hsearch; cbv beta iota.
  all: cbn [fst snd]; rewrite Ef; reflexivity.
Qed.

End LoadedAirports.

(** ** The records found, formatted *)

(** Every record [performSearch] returns has an identity. *)
Lemma performSearch_identities
    (sched : list nat) (cities : list string) (cityIndex : bleveIndex)
    (results : list City) :
  performSearch sched cities cityIndex = Returns results ->
  Forall (fun c => city_ID c <> EmptyString) results.
Proof.
  unfold performSearch.
  set (f := fun item => r ← searchCity item cityIndex; Returns (fst r)).
  unfold mbind, outcome_bind.
  destruct (mapO f cities) as [sent|msg] eqn:Em; [|discriminate].
  assert (Hlen : length cities = length sent).
  { apply mapO_Returns in Em. eapply Forall2_length; exact Em. }
  rewrite Hlen. intros E. inversion E as [Hres]; clear E.
  destruct (fanIn_order sent sched []) as (order & _ & ->). simpl.
  rewrite Forall_forall. intros c Hc.
  apply list_elem_of_filter in Hc as [Hc _]. exact Hc.
Qed.

Section FoundAndFormatted.
Context {libm : MathLib} {rt : GoRuntime} {world : World}.

(** X18.  What [formatResults] receives in [main] is what [performSearch]
    returns, and those records all have an identity: the branch that skips a
    record without identity is never taken there.  So the array printed has
    exactly one item for every record found, in the order the records
    arrived, each with the identity of its record as uid, and no blank item.
    A term without a match shortens the array; it leaves no gap in it. *)
Theorem formatResults_of_performSearch_has_no_blank_item
    (sched : list nat) (cities : list string) (cityIndex : bleveIndex)
    (results : list City)
    (countryIndex : gmap string string) (airportIndex : gmap string slice)
    (phoneIndex currencyIndex : gmap string string) (h : heap) :
  performSearch sched cities cityIndex = Returns results ->
  map_Forall (fun _ s => valid_slice h s) airportIndex ->
  Forall (fun city => is_Some (LoadLocation (city_Timezone city))) results ->
  exists items h',
    formatResults_items results countryIndex airportIndex phoneIndex currencyIndex h
    = Returns (items, h') /\
    (length items <= length cities)%nat /\
    Forall2 (fun city item => sr_UID item = city_ID city /\ sr_UID item <> EmptyString)
            results items.
Proof.
  intros Hsearch Hslices Hzones.
  pose proof (performSearch_identities sched cities cityIndex results Hsearch) as Hids.
  assert (Hcount : (length results <= length cities)%nat).
  { revert Hsearch. unfold performSearch.
    set (f := fun item => r ← searchCity item cityIndex; Returns (fst r)).
    unfold mbind, outcome_bind.
    destruct (mapO f cities) as [sent|msg] eqn:Em; [|discriminate].
    assert (Hlen : length cities = length sent).
    { apply mapO_Returns in Em. eapply Forall2_length; exact Em. }
    rewrite Hlen. intros E. inversion E as [Hres]; clear E.
    destruct (fanIn_order sent sched []) as (order & Hperm & ->). simpl.
    etransitivity; [apply length_filter|]. rewrite Hperm. reflexivity. }
  unfold formatResults_items.
  destruct (formatLoop_returns h countryIndex airportIndex phoneIndex currencyIndex results
              Hslices) with (i := 0%nat)
              (output := replicate (length results) zeroSearchResult) (h := h)
    as (items & h' & E & _ & Hlen & _ & Hat).
  - eapply Forall_impl; [exact Hzones|]. intros city Hz _. exact Hz.
  - apply extends_refl.
  - rewrite length_replicate. lia.
  - rewrite length_replicate in Hlen.
    exists items, h'. split; [exact E|]. split; [lia|].
    apply Forall2_same_length_lookup_2; [congruence|].
    intros i city item Hi Hitem.
    specialize (Hat i city Hi). simpl in Hat.
    rewrite Forall_forall in Hids.
    assert (Hid : city_ID city <> EmptyString)
      by (apply Hids; eapply list_elem_of_lookup_2; exact Hi).
    rewrite decide_False in Hat by exact Hid.
    destruct Hat as (r & Hr & Huid). rewrite Hitem in Hr. inversion Hr; subst r.
    split; [exact Huid|]. rewrite Huid. exact Hid.
Qed.

End FoundAndFormatted.

(** ** The further properties on the worked inputs *)

Lemma canada_distances :
  Forall (fun c => is_nan (@HaversineDistance small_angle_math toronto_lat toronto_long
                             (ap_Lat c) (ap_Long c)) = false)
         (view canada_heap canada_slice).
Proof.
  change (view canada_heap canada_slice) with canada. unfold canada.
  repeat (constructor; [vm_compute; reflexivity|]). constructor.
Qed.

Lemma FindClosestAirport_by_type_then_by_distance_witness :
  exists res h',
    @FindClosestAirport small_angle_math doubling_runtime
      toronto_lat toronto_long canada_slice canada_heap = Returns (res, h') /\
    StronglySorted
      (fun a b => String.ltb (ap_Type b) (ap_Type a) = false /\
                  (ap_Type a = ap_Type b ->
                   flt (ap_Distance b) (ap_Distance a) = false))
      (view h' res).
Proof.
  apply (@FindClosestAirport_by_type_then_by_distance small_angle_math doubling_runtime).
  - split; simpl; lia.
  - apply canada_distances.
Defined.

Lemma FindClosestAirport_among_five_nearest_witness :
  exists res h',
    @FindClosestAirport small_angle_math doubling_runtime
      toronto_lat toronto_long canada_slice canada_heap = Returns (res, h') /\
    forall r, r ∈ view h' res ->
      (length (filter (fun c => flt (@HaversineDistance small_angle_math
                                       toronto_lat toronto_long (ap_Lat c) (ap_Long c))
                                    (ap_Distance r) = true)
                      (view canada_heap canada_slice)) < 5)%nat.
Proof.
  apply (@FindClosestAirport_among_five_nearest small_angle_math doubling_runtime).
  - split; simpl; lia.
  - apply canada_distances.
Defined.


Lemma document_City_decodes_witness :
  exists c, document_City (Some (IndexStore.stored_fields example_store Toronto)) = Returns c.
Proof.
  apply (proj2 (proj1 (document_City_decodes (Some (IndexStore.stored_fields example_store Toronto))))).
  eexists _, _. split; [reflexivity|]. split; [simpl; lia|].
  split; [reflexivity|]. simpl. lia.
Defined.

Lemma searchCity_decodes_every_hit_witness :
  exists r, searchCity "toronto" example_index = Returns r.
Proof.
  destruct (searchCity_decodes_every_hit "toronto" example_index
              "6167865" ["5174095"%string]) as [[_ Hret] _].
  - reflexivity.
  - apply Hret. repeat (constructor; [eexists; reflexivity|]). constructor.
Defined.

Lemma performSearch_order_is_the_schedule_witness :
  exists sched,
    performSearch sched ["toronto"; "nonexistentcityxyz"; "atlantis"]%string example_index
    = Returns [Atlantis; Toronto].
Proof.
  destruct (performSearch_order_is_the_schedule [0%nat]
              ["toronto"; "nonexistentcityxyz"; "atlantis"]%string example_index
              [Toronto; Atlantis]) as [_ Hany].
  - reflexivity.
  - apply Hany. apply perm_swap.
Defined.

Lemma formatResults_items_content_witness :
  exists items h',
    @formatResults_items small_angle_math doubling_runtime example_world
      [Toronto; zeroCity] example_countries example_airports example_phones
      example_currencies canada_heap = Returns (items, h') /\
    sr_Subtitle <$> items !! 0%nat
    = Some "Monday, January 2 | Canada | +1 | CAD | YYZ,YTZ,YOO"%string.
Proof.
  destruct (@formatResults_items_content small_angle_math doubling_runtime example_world
              [Toronto; zeroCity] example_countries example_airports example_phones
              example_currencies canada_heap) as (items & h' & E & Hat).
  - unfold example_airports. apply map_Forall_singleton. split; simpl; lia.
  - repeat constructor.
    + intros _. eexists. reflexivity.
    + intros Hid. contradiction Hid. reflexivity.
  - exists items, h'. split; [exact E|].
    destruct (Hat 0%nat Toronto "EST"%string) as (found & hf & Ef & E0);
      [reflexivity|discriminate|reflexivity|].
    vm_compute in Ef. inversion Ef; subst found hf.
    cbv zeta in E0. rewrite E0. vm_compute. reflexivity.
Defined.

Lemma formatResults_leaves_airport_index_witness :
  exists payload h',
    @formatResults small_angle_math doubling_runtime example_world
      [Toronto; zeroCity] example_countries example_airports example_phones
      example_currencies canada_heap = Returns (payload, h') /\
    view h' canada_slice = canada.
Proof.
  destruct (@formatResults_leaves_airport_index small_angle_math doubling_runtime
              example_world [Toronto; zeroCity] example_countries example_airports
              example_phones example_currencies canada_heap)
    as (payload & h' & E & _ & Hsame & _).
  - unfold example_airports. apply map_Forall_singleton. split; simpl; lia.
  - repeat constructor.
    + intros _. eexists. reflexivity.
    + intros Hid. contradiction Hid. reflexivity.
  - exists payload, h'. split; [exact E|].
    apply (Hsame "CA"%string canada_slice). reflexivity.
Defined.

Lemma GetCountryMap_last_entry_wins_witness :
  exists countries,
    @Loaders.GetCountryMap example_files "datasets/countries.json" = Returns countries /\
    countries !! "CA"%string = Some "Canada"%string /\
    countries !! "US"%string = None.
Proof.
  destruct (@GetCountryMap_last_entry_wins example_files "datasets/countries.json")
    as [Hiff Hlast].
  destruct (proj2 Hiff) as [countries E].
  - eexists _, _. split; [reflexivity|]. split; [reflexivity|].
    repeat (constructor; [eexists; reflexivity|]). constructor.
  - exists countries. split; [exact E|].
    split; rewrite (Hlast _ _ countries eq_refl eq_refl E); reflexivity.
Defined.

Lemma GetAirportsByCountry_groups_by_country_code_witness :
  exists airports h',
    @Loaders.GetAirportsByCountry example_files doubling_runtime
      "datasets/airports.json" [] = Returns (airports, h') /\
    view h' (airports_of airports "CA") = canada /\
    view h' (airports_of airports "US") = [].
Proof.
  destruct (@GetAirportsByCountry_groups_by_country_code example_files doubling_runtime
              "datasets/airports.json" []) as (_ & _ & Hret).
  destruct (Hret "datasets/airports.json"%string canada eq_refl eq_refl)
    as (airports & h' & E & _ & _ & Hview & _).
  exists airports, h'. split; [exact E|].
  split; rewrite Hview; reflexivity.
Defined.

Lemma formatResults_ranks_airports_of_the_country_witness :
  exists airportIndex h1 items h2,
    @Loaders.GetAirportsByCountry example_files doubling_runtime
      "datasets/airports.json" [] = Returns (airportIndex, h1) /\
    @formatResults_items small_angle_math doubling_runtime example_world
      [Toronto; Toronto_Ohio] example_countries airportIndex example_phones
      example_currencies h1 = Returns (items, h2) /\
    view h1 (airports_of airportIndex "CA") = canada /\
    view h1 (airports_of airportIndex "US") = [].
Proof.
  destruct (@formatResults_ranks_airports_of_the_country small_angle_math doubling_runtime
              example_world example_files "datasets/airports.json"
              "datasets/airports.json" canada [] [Toronto; Toronto_Ohio]
              example_countries example_phones example_currencies)
    as (airportIndex & h1 & items & h2 & E & E2 & Hat).
  - reflexivity.
  - reflexivity.
  - repeat constructor; intros _; eexists; reflexivity.
  - exists airportIndex, h1, items, h2. split; [exact E|]. split; [exact E2|].
    destruct (Hat 0%nat Toronto "EST"%string) as (V0 & _);
      [reflexivity|discriminate|reflexivity|].
    destruct (Hat 1%nat Toronto_Ohio "EST"%string) as (V1 & _);
      [reflexivity|discriminate|reflexivity|].
    split; [exact V0|exact V1].
Defined.

Lemma main_with_loaders_prints_one_line_witness :
  exists items,
    length items = 1%nat /\
    @main small_angle_math doubling_runtime example_world
      (@loading_process example_files doubling_runtime ["toronto"%string] false
         (fun _ _ => Returns tt) (fun _ => Returns example_index) [0%nat])
    = ([OpensIndex "cities.bleve";
        ReadsDataset "datasets/countries.json";
        ReadsDataset "datasets/airports.json";
        ReadsDataset "datasets/phone.json";
        ReadsDataset "datasets/currency.json";
        Prints ("{" ++ quote ++ "items" ++ quote ++ ":"
                  ++ @Marshal example_world items ++ "}")%string],
       Returns tt).
Proof.
  apply (@main_with_loaders_prints_one_line small_angle_math doubling_runtime
           example_world example_files ["toronto"%string] false
           (fun _ _ => Returns tt) (fun _ => Returns example_index) [0%nat]
           example_index
           (<["CA"%string := "Canada"%string]> (<["CA"%string := "Kanada"%string]> ∅))
           example_phones example_currencies
           "datasets/airports.json" canada [Toronto]).
  - discriminate.
  - discriminate.
  - reflexivity.
  - reflexivity.
  - reflexivity.
  - reflexivity.
  - reflexivity.
  - reflexivity.
  - reflexivity.
  - repeat constructor. intros _. eexists. reflexivity.
Defined.

(** The terms of an input with a space behind the comma and a trailing
    comma: the space stays in the second term and the last term is empty. *)
Example Split_commas_keeps_spaces :
  Split_commas "toronto, new york," = ["toronto"; " new york"; ""]%string.
Proof. reflexivity. Qed.

(** A country file with an entry without a name is not loaded at all. *)
Example GetCountryMap_broken :
  @Loaders.GetCountryMap example_files "datasets/broken.json"
  = Panics "interface conversion: interface {} is nil, not string".
Proof. reflexivity. Qed.

Lemma FindClosestAirport_candidate_order_breaks_ties_only_witness :
  exists res1 h1' res2 h2',
    @FindClosestAirport small_angle_math doubling_runtime
      toronto_lat toronto_long (mkSlice 0 0 3 7) canada_heap = Returns (res1, h1') /\
    @FindClosestAirport small_angle_math doubling_runtime
      toronto_lat toronto_long (mkSlice 0 0 3 3) [[YYZ; YHM; YKZ]] = Returns (res2, h2') /\
    view h2' res2 = view h1' res1.
Proof.
  apply (@FindClosestAirport_candidate_order_breaks_ties_only
           small_angle_math doubling_runtime).
  - split; simpl; lia.
  - split; simpl; lia.
  - change ([YYZ; YHM; YKZ] ≡ₚ [YHM; YKZ; YYZ]).
    etransitivity; [apply perm_swap|apply perm_skip, perm_swap].
  - change (view canada_heap (mkSlice 0 0 3 7)) with [YHM; YKZ; YYZ].
    intros i j a b Hi Hj Hij.
    destruct i as [|[|[|i]]]; destruct j as [|[|[|j]]];
      simpl in Hi, Hj; try discriminate; try (contradiction Hij; reflexivity);
      inversion Hi; inversion Hj; subst;
      first [left; vm_compute; reflexivity|right; vm_compute; reflexivity].
Defined.

Lemma formatResults_of_performSearch_has_no_blank_item_witness :
  exists items h',
    @formatResults_items small_angle_math doubling_runtime example_world
      [Toronto] example_countries example_airports example_phones
      example_currencies canada_heap = Returns (items, h') /\
    (length items <= 2)%nat /\
    Forall2 (fun city item => sr_UID item = city_ID city /\ sr_UID item <> EmptyString)
            [Toronto] items.
Proof.
  apply (@formatResults_of_performSearch_has_no_blank_item small_angle_math
           doubling_runtime example_world [0%nat]
           ["toronto"; "nonexistentcityxyz"]%string example_index).
  - reflexivity.
  - unfold example_airports. apply map_Forall_singleton. split; simpl; lia.
  - repeat constructor. eexists. reflexivity.
Defined.

Lemma FindClosestAirport_of_its_result_witness :
  exists res h' res2 h2,
    @FindClosestAirport small_angle_math doubling_runtime
      toronto_lat toronto_long canada_slice canada_heap = Returns (res, h') /\
    @FindClosestAirport small_angle_math doubling_runtime
      toronto_lat toronto_long res h' = Returns (res2, h2) /\
    view h2 res2 = view h' res.
Proof.
  apply (@FindClosestAirport_of_its_result small_angle_math doubling_runtime).
  - split; simpl; lia.
  - apply canada_distances.
Defined.
